(** * Tree Style Tab: the sidebar's tab-tree DOM cache

    A shallow embedding of [webextensions/sidebar/dom-cache.js]: the
    signature codec ([getWindowSignature], [trimSignature],
    [trimTabsCache], [matcheSignatures], [signatureFromTabsCache]), the
    restoration engine ([restoreTabsFromCacheInternal]) and the fixup pass
    ([fixupTabsRestoredFromCache]), followed by the properties of the
    specification that concern them. [dumpCache] only feeds the log and
    is left out.

    Conventions of the embedding.
    - A JavaScript string is the list of its UTF-16 code units ([list N]).
    - A regular expression is a term of [regex], matched by a backtracking
      matcher with the priorities of ECMAScript.
    - A JavaScript exception is the [Throw] outcome of a computation.
    - The document is a store of nodes with parent and children; ranges
      follow the algorithms of the DOM standard on boundary points between
      children. The HTML parser of the browser and the constants of
      [/common/constants.js] are parameters.
    - The calls to the rest of the extension (tab model, progress
      indicator, frame scheduler) are recorded as the events of a trace;
      [Date.now()] reads the successive values of a clock. *)

From Stdlib Require Import ZArith NArith List Bool Lia String Ascii.
From Stdlib Require Import QArith Qround DecimalString.
From stdpp Require Import base option list gmap.

Import ListNotations.
Local Open Scope Z_scope.

(* ================================================================== *)
(** * JavaScript strings *)
(* ================================================================== *)

(** A string is the sequence of its UTF-16 code units. *)
Definition jsstring : Type := list N.

(** A literal of the source, written as a Rocq string of ASCII characters. *)
Definition lit (s : string) : jsstring :=
  map N_of_ascii (list_ascii_of_string s).

Fixpoint jsstring_eqb (a b : jsstring) : bool :=
  match a, b with
  | [], [] => true
  | x :: a', y :: b' => N.eqb x y && jsstring_eqb a' b'
  | _, _ => false
  end.

(** [s.length] *)
Definition jslength (s : jsstring) : Z := Z.of_nat (length s).

(** [s.startsWith(pat)] at position 0: the test [indexOf] performs at each
    position. *)
Fixpoint starts_with (pat s : jsstring) : bool :=
  match pat, s with
  | [], _ => true
  | _ :: _, [] => false
  | p :: pat', c :: s' => N.eqb p c && starts_with pat' s'
  end.

(** [String.prototype.indexOf]: the index of the first occurrence of [pat]
    in [s], or -1. *)
Fixpoint indexOf (s pat : jsstring) : Z :=
  if starts_with pat s then 0
  else match s with
       | [] => -1
       | _ :: s' =>
           let r := indexOf s' pat in
           if r <? 0 then -1 else r + 1
       end.

(** [Array.prototype.join] *)
Fixpoint join (sep : jsstring) (xs : list jsstring) : jsstring :=
  match xs with
  | [] => []
  | [x] => x
  | x :: rest => x ++ sep ++ join sep rest
  end.

(** [String.prototype.split] for a separator of one code unit. *)
Fixpoint splitOn (sep : N) (s : jsstring) : list jsstring :=
  match s with
  | [] => [[]]
  | c :: s' =>
      if N.eqb c sep then [] :: splitOn sep s'
      else match splitOn sep s' with
           | [] => [[c]]
           | w :: ws => (c :: w) :: ws
           end
  end.

Definition LF : N := 10%N.
Definition COMMA : N := 44%N.

(** The decimal form a template literal gives an integer. *)
Definition showZ (z : Z) : jsstring :=
  lit (NilEmpty.string_of_int (Z.to_int z)).

(** The form a template literal gives a boolean. *)
Definition showBool (b : bool) : jsstring :=
  if b then lit "true" else lit "false".

(** [Array.prototype.indexOf] over an equality test: the first index whose
    element is strictly equal to [x], or -1. *)
Fixpoint arrayIndexOf {A} (eqb : A -> A -> bool) (xs : list A) (x : A) : Z :=
  match xs with
  | [] => -1
  | y :: xs' =>
      if eqb y x then 0
      else let r := arrayIndexOf eqb xs' x in
           if r <? 0 then -1 else r + 1
  end.

(* ================================================================== *)
(** * Outcomes *)
(* ================================================================== *)

(** The exceptions the module can meet. *)
Inductive exn :=
| TypeError                  (* property access on null or undefined *)
| DOMException               (* raised by a DOM operation *)
| Error (msg : jsstring).    (* [throw new Error(...)] *)

Inductive result (A : Type) :=
| Ok (a : A)
| Throw (e : exn).
Arguments Ok {A} a.
Arguments Throw {A} e.

Definition rbind {A B} (x : result A) (f : A -> result B) : result B :=
  match x with
  | Ok a => f a
  | Throw e => Throw e
  end.

(** [Array.prototype.map] with a callback that may throw. *)
Fixpoint rmap {A B} (f : A -> result B) (xs : list A) : result (list B) :=
  match xs with
  | [] => Ok []
  | x :: xs' =>
      rbind (f x) (fun y => rbind (rmap f xs') (fun ys => Ok (y :: ys)))
  end.

(* ================================================================== *)
(** * Tab records and signatures *)
(* ================================================================== *)

(** The fields of a [tabs.Tab] the module reads. [openerTabId] is optional. *)
Record Tab := mkTab {
  tab_id : Z;
  tab_openerTabId : option Z;
  tab_cookieStoreId : jsstring;
  tab_incognito : bool;
  tab_pinned : bool;
  tab_windowId : Z
}.

(** [tab.openerTabId ? tabIds.indexOf(tab.openerTabId) : -1]: an absent
    opener and the opener 0 are both falsy. *)
Definition parentIndex (tabIds : list Z) (tab : Tab) : Z :=
  match tab_openerTabId tab with
  | Some o => if o =? 0 then -1 else arrayIndexOf Z.eqb tabIds o
  | None => -1
  end.

(** One line of a signature:
    [`${parentIndex},${cookieStoreId},${incognito},${pinned}`]. *)
Definition signatureLine (p : Z) (cookie : jsstring) (inc pin : bool)
  : jsstring :=
  showZ p ++ [COMMA] ++ cookie ++ [COMMA] ++ showBool inc
    ++ [COMMA] ++ showBool pin.

Definition windowSignatureLines (tabs : list Tab) : list jsstring :=
  let tabIds := map tab_id tabs in
  map (fun tab => signatureLine (parentIndex tabIds tab)
                    (tab_cookieStoreId tab) (tab_incognito tab)
                    (tab_pinned tab)) tabs.

Definition getWindowSignature (tabs : list Tab) : jsstring :=
  join [LF] (windowSignatureLines tabs).

(** [trimSignature], for an integer (or absent) [ignoreCount]. *)
Definition trimSignature (signature : jsstring) (ignoreCount : option Z)
  : jsstring :=
  match ignoreCount with
  | None => signature
  | Some n =>
      if (n =? 0) || (n <? 0) then signature
      else join [LF] (drop (Z.to_nat n) (splitOn LF signature))
  end.

(** The values [matcheSignatures] can return: a chain of [&&] yields its
    first falsy operand, or the last one. *)
Inductive jsval :=
| VUndefined
| VString (s : jsstring)
| VBool (b : bool).

Definition truthy (v : jsval) : bool :=
  match v with
  | VUndefined => false
  | VString s => negb (jsstring_eqb s [])
  | VBool b => b
  end.

(** The argument of [matcheSignatures]; a missing property is [None]. *)
Record Signatures := mkSignatures {
  actual : option jsstring;
  cached : option jsstring
}.

Definition matcheSignatures (signatures : Signatures) : jsval :=
  match actual signatures with
  | None => VUndefined
  | Some a =>
      if jsstring_eqb a [] then VString a
      else match cached signatures with
           | None => VUndefined
           | Some c =>
               if jsstring_eqb c [] then VString c
               else VBool (indexOf a c + jslength c =? jslength a)
           end
  end.

(* ================================================================== *)
(** * Regular expressions *)
(* ================================================================== *)

(** The fragment of the RegExp language the module uses (no flags other
    than [g], hence matching on code units and case-sensitive). *)
Inductive regex :=
| RClass (p : N -> bool)            (* one code unit of a class *)
| REmpty
| RSeq (r1 r2 : regex)
| RAlt (r1 r2 : regex)              (* r1|r2 *)
| RStar (greedy : bool) (r : regex) (* r* and r*? *)
| RGroup (i : nat) (r : regex)      (* the i-th capturing parentheses *)
| RWordBoundary                     (* \b *)
| RStart                            (* ^ *)
| REnd.                             (* $ *)

(** [r+] and [r+?] *)
Definition RPlus (greedy : bool) (r : regex) : regex :=
  RSeq r (RStar greedy r).

Definition RChar (c : N) : regex := RClass (N.eqb c).

(** A run of literal characters. *)
Fixpoint RLit (s : jsstring) : regex :=
  match s with
  | [] => REmpty
  | c :: s' => RSeq (RChar c) (RLit s')
  end.

Definition inRange (lo hi c : N) : bool := (lo <=? c)%N && (c <=? hi)%N.

(** [\w]: [A-Za-z0-9_] *)
Definition isWord (c : N) : bool :=
  inRange 65 90 c || inRange 97 122 c || inRange 48 57 c || N.eqb c 95.

(** [\s]: the white space and line terminators of ECMAScript. *)
Definition isSpace (c : N) : bool :=
  inRange 9 13 c || N.eqb c 32 || N.eqb c 160 || N.eqb c 5760
  || inRange 8192 8202 c || N.eqb c 8232 || N.eqb c 8233 || N.eqb c 8239
  || N.eqb c 8287 || N.eqb c 12288 || N.eqb c 65279.

Definition isWordAt (o : option N) : bool :=
  match o with
  | Some c => isWord c
  | None => false
  end.

(** The captures of a match, most recent first. *)
Definition captures : Type := list (nat * jsstring).

Fixpoint capture (i : nat) (cs : captures) : option jsstring :=
  match cs with
  | [] => None
  | (j, s) :: cs' => if Nat.eqb i j then Some s else capture i cs'
  end.

(** The backtracking matcher, in continuation-passing style: [prev] is the
    code unit before the current position, [s] the input from the current
    position on. Alternatives are tried in the order of ECMAScript; an
    iteration of a star that consumes nothing is rejected, as there. *)
Fixpoint rmatch {R} (r : regex) (prev : option N) (s : jsstring)
    (cs : captures) (k : option N -> jsstring -> captures -> option R)
  : option R :=
  match r with
  | RClass p =>
      match s with
      | c :: s' => if p c then k (Some c) s' cs else None
      | [] => None
      end
  | REmpty => k prev s cs
  | RSeq r1 r2 =>
      rmatch r1 prev s cs (fun prev' s' cs' => rmatch r2 prev' s' cs' k)
  | RAlt r1 r2 =>
      match rmatch r1 prev s cs k with
      | Some x => Some x
      | None => rmatch r2 prev s cs k
      end
  | RStar greedy r1 =>
      (fix star (n : nat) (prev : option N) (s : jsstring) (cs : captures)
         : option R :=
         let more (_ : unit) :=
           match n with
           | O => None
           | S n' =>
               rmatch r1 prev s cs (fun prev' s' cs' =>
                 if (length s' <? length s)%nat then star n' prev' s' cs'
                 else None)
           end in
         if greedy then
           match more tt with
           | Some x => Some x
           | None => k prev s cs
           end
         else
           match k prev s cs with
           | Some x => Some x
           | None => more tt
           end) (length s) prev s cs
  | RGroup i r1 =>
      rmatch r1 prev s cs (fun prev' s' cs' =>
        k prev' s' ((i, take (length s - length s') s) :: cs'))
  | RWordBoundary =>
      if xorb (isWordAt prev) (isWordAt (head s)) then k prev s cs else None
  | RStart =>
      match prev with
      | None => k prev s cs
      | Some _ => None
      end
  | REnd =>
      match s with
      | [] => k prev s cs
      | _ :: _ => None
      end
  end.

(** A successful match: where it starts, its text, what follows it, and
    its captures. *)
Record MatchResult := mkMatch {
  m_index : nat;
  m_text : jsstring;
  m_rest : jsstring;
  m_captures : captures
}.

(** [m[i]] on the array [match] returns: the text for 0, the i-th capture
    otherwise ([None] is [undefined]). *)
Definition matchGroup (m : MatchResult) (i : nat) : option jsstring :=
  match i with
  | O => Some (m_text m)
  | S _ => capture i (m_captures m)
  end.

(** The match attempt at one position. *)
Definition matchHere (r : regex) (prev : option N) (s : jsstring)
  : option (jsstring * captures) :=
  rmatch r prev s [] (fun _ s' cs => Some (s', cs)).

(** [RegExp.prototype.exec] from a position: the leftmost match. *)
Fixpoint search (r : regex) (prev : option N) (s : jsstring) (pos : nat)
  : option MatchResult :=
  match matchHere r prev s with
  | Some (s', cs) =>
      Some (mkMatch pos (take (length s - length s') s) s' cs)
  | None =>
      match s with
      | [] => None
      | c :: s' => search r (Some c) s' (S pos)
      end
  end.

(** [s.match(r)] for a regular expression without the [g] flag. *)
Definition jsmatch (s : jsstring) (r : regex) : option MatchResult :=
  search r None s 0.

(** [r.test(s)] *)
Definition test (r : regex) (s : jsstring) : bool :=
  match jsmatch s r with
  | Some _ => true
  | None => false
  end.

(** The successive matches of a [g] regular expression, each with the text
    skipped before it: the next search starts where the match ends, one
    code unit further after an empty match. *)
Fixpoint matchesFrom (fuel : nat) (r : regex) (prev : option N)
    (s : jsstring) : list (jsstring * jsstring) * jsstring :=
  match fuel with
  | O => ([], s)
  | S fuel' =>
      match search r prev s 0 with
      | None => ([], s)
      | Some m =>
          let skipped := take (m_index m) s in
          let prev' := match last (skipped ++ m_text m) with
                       | Some c => Some c
                       | None => prev
                       end in
          match m_text m, m_rest m with
          | [], [] => ([(skipped, [])], [])
          | [], c :: rest' =>
              let '(ms, tl) := matchesFrom fuel' r (Some c) rest' in
              match ms with
              | [] => ([(skipped, [])], c :: tl)
              | (sk, t) :: ms' => ((skipped, []) :: (c :: sk, t) :: ms', tl)
              end
          | _ :: _, rest =>
              let '(ms, tl) := matchesFrom fuel' r prev' rest in
              ((skipped, m_text m) :: ms, tl)
          end
      end
  end.

(** [s.match(r)] for a regular expression with the [g] flag: the texts of
    all matches, [None] ([null]) when there is none. *)
Definition jsmatchAll (s : jsstring) (r : regex) : option (list jsstring) :=
  match fst (matchesFrom (S (length s)) r None s) with
  | [] => None
  | ms => Some (map snd ms)
  end.

(** [s.replace(r, '')] for a regular expression with the [g] flag. *)
Definition jsremoveAll (s : jsstring) (r : regex) : jsstring :=
  let '(ms, tl) := matchesFrom (S (length s)) r None s in
  concat (map fst ms) ++ tl.

(* ================================================================== *)
(** * Numbers and [parseInt] *)
(* ================================================================== *)

(** The numbers [parseInt] can return. Both zeros are [Num 0]: they are
    equal for [===] and equally falsy. *)
Inductive jsnum :=
| NaN
| Num (z : Z)
| Infinity (negative : bool).

(** [a === b] on numbers. *)
Definition jsnum_eqb (a b : jsnum) : bool :=
  match a, b with
  | Num x, Num y => x =? y
  | Infinity n1, Infinity n2 => Bool.eqb n1 n2
  | _, _ => false
  end.

(** Truthiness of a number. *)
Definition jsnum_truthy (a : jsnum) : bool :=
  match a with
  | NaN => false
  | Num z => negb (z =? 0)
  | Infinity _ => true
  end.

(** The double nearest to a natural number (ties to even), which is what
    [parseInt] returns for the integer it has read. *)
Definition roundToDouble (m : Z) : jsnum :=
  if m <? 2 ^ 53 then Num m
  else
    let e := Z.log2 m - 52 in
    let q := m / 2 ^ e in
    let r := m mod 2 ^ e in
    let half := 2 ^ (e - 1) in
    let q' := if (half <? r) || ((r =? half) && Z.odd q) then q + 1 else q in
    let v := q' * 2 ^ e in
    if 2 ^ 1024 <=? v then Infinity false else Num v.

Definition jsnum_neg (a : jsnum) : jsnum :=
  match a with
  | NaN => NaN
  | Num z => Num (- z)
  | Infinity n => Infinity (negb n)
  end.

(** The value of a code unit as a digit of the radix, if it is one. *)
Definition digitValue (radix : Z) (c : N) : option Z :=
  let v := if inRange 48 57 c then Some (Z.of_N c - 48)
           else if inRange 97 122 c then Some (Z.of_N c - 87)
           else if inRange 65 90 c then Some (Z.of_N c - 55)
           else None in
  match v with
  | Some d => if d <? radix then Some d else None
  | None => None
  end.

(** The value of the longest prefix of digits, [None] when it is empty. *)
Fixpoint digitsValue (radix acc : Z) (seen : bool) (s : jsstring)
  : option Z :=
  match s with
  | c :: s' =>
      match digitValue radix c with
      | Some d => digitsValue radix (acc * radix + d) true s'
      | None => if seen then Some acc else None
      end
  | [] => if seen then Some acc else None
  end.

Fixpoint skipSpaces (s : jsstring) : jsstring :=
  match s with
  | c :: s' => if isSpace c then skipSpaces s' else s
  | [] => []
  end.

(** [parseInt(s)] without a radix: leading white space, a sign, [0x] or
    [0X] for radix 16, then the longest run of digits. *)
Definition parseInt (s : jsstring) : jsnum :=
  let s1 := skipSpaces s in
  let '(negative, s2) :=
    match s1 with
    | 45%N :: t => (true, t)
    | 43%N :: t => (false, t)
    | _ => (false, s1)
    end in
  let '(radix, s3) :=
    match s2 with
    | 48%N :: x :: t =>
        if N.eqb x 120 || N.eqb x 88 then (16, t) else (10, s2)
    | _ => (10, s2)
    end in
  match digitsValue radix 0 false s3 with
  | None => NaN
  | Some m => if negative then jsnum_neg (roundToDouble m) else roundToDouble m
  end.

(* ================================================================== *)
(** * The signature of a cached tab bar *)
(* ================================================================== *)

Definition QUOTE : N := 34%N.

(** The pattern [name=Q([^Q]+)Q], where Q stands for the double quote. *)
Definition attributeMatcher (name : jsstring) : regex :=
  RSeq (RLit name)
    (RSeq (RLit (lit "="))
       (RSeq (RChar QUOTE)
          (RSeq (RGroup 1 (RPlus true (RClass (fun c => negb (N.eqb c QUOTE)))))
             (RChar QUOTE)))).

(** [(<li[^>]*>[\w\W]+?<\/li>)], the fragment of one tab. *)
Definition tabFragmentMatcher : regex :=
  RGroup 1
    (RSeq (RLit (lit "<li"))
       (RSeq (RStar true (RClass (fun c => negb (N.eqb c 62))))
          (RSeq (RChar 62)
             (RSeq (RPlus false (RClass (fun c => isWord c || negb (isWord c))))
                (RLit (lit "</li>")))))).

(** [/\bcontextual-identity-[^\s]+\b/]: it has no capturing parentheses. *)
Definition cookieStoreIdMatcher : regex :=
  RSeq RWordBoundary
    (RSeq (RLit (lit "contextual-identity-"))
       (RSeq (RPlus true (RClass (fun c => negb (isSpace c))))
          RWordBoundary)).

(** [/\bincognito\b/] *)
Definition incognitoMatcher : regex :=
  RSeq RWordBoundary (RSeq (RLit (lit "incognito")) RWordBoundary).

(** [/\bpinned\b/] *)
Definition pinnedMatcher : regex :=
  RSeq RWordBoundary (RSeq (RLit (lit "pinned")) RWordBoundary).

(** The pattern [class=Q([^Q]+)Q]. *)
Definition classesMatcher : regex := attributeMatcher (lit "class").

Definition defaultCookieStoreId : jsstring :=
  lit "contextual-identity-firefox-default".

(** The object the first [map] of [signatureFromTabsCache] builds for a
    fragment; [ct_parentId] is [None] for [null]. *)
Record CachedTab := mkCachedTab {
  ct_id : jsnum;
  ct_cookieStoreId : jsstring;
  ct_parentId : option jsnum;
  ct_incognito : bool;
  ct_pinned : bool
}.

(** [parseInt(x)] of a possibly undefined [x]: [undefined] reads as the
    string [undefined], which has no digit. *)
Definition parseIntOpt (x : option jsstring) : jsnum :=
  match x with
  | Some s => parseInt s
  | None => NaN
  end.

(** [tab.parentId ? tabIds.indexOf(tab.parentId) : -1] *)
Definition cachedParentIndex (tabIds : list jsnum) (tab : CachedTab) : Z :=
  match ct_parentId tab with
  | Some p => if jsnum_truthy p then arrayIndexOf jsnum_eqb tabIds p else -1
  | None => -1
  end.

Definition cachedSignatureLine (tabIds : list jsnum) (tab : CachedTab)
  : jsstring :=
  signatureLine (cachedParentIndex tabIds tab) (ct_cookieStoreId tab)
    (ct_incognito tab) (ct_pinned tab).

Section Cache.
(** [Constants.kAPI_TAB_ID] and [Constants.kPARENT], the names of the
    attributes that carry the id of a tab and of its parent. They are
    declared in [/common/constants.js]; being attribute names, they read
    in a pattern as the literal run of their characters. *)
Variables kAPI_TAB_ID kPARENT : jsstring.

Definition idMatcher : regex := attributeMatcher kAPI_TAB_ID.
Definition parentMatcher : regex := attributeMatcher kPARENT.

(** The callback of the first [map]: [null[1]] is a TypeError. *)
Definition parseCachedTab (matched : jsstring) : result CachedTab :=
  match jsmatch matched idMatcher with
  | None => Throw TypeError
  | Some idMatch =>
      let id := parseIntOpt (matchGroup idMatch 1) in
      match jsmatch matched classesMatcher with
      | None => Throw TypeError
      | Some classesMatch =>
          match matchGroup classesMatch 1 with
          | None => Throw TypeError
          | Some classes =>
              let cookieStoreId := jsmatch classes cookieStoreIdMatcher in
              let parentMatched := jsmatch matched parentMatcher in
              Ok {| ct_id := id;
                    ct_cookieStoreId :=
                      match cookieStoreId with
                      | None => defaultCookieStoreId
                      | Some m =>
                          match matchGroup m 1 with
                          | None => defaultCookieStoreId
                          | Some [] => defaultCookieStoreId
                          | Some (c :: g) => c :: g
                          end
                      end;
                    ct_parentId :=
                      match parentMatched with
                      | None => None
                      | Some m => Some (parseIntOpt (matchGroup m 1))
                      end;
                    ct_incognito := test incognitoMatcher classes;
                    ct_pinned := test pinnedMatcher classes |}
          end
      end
  end.

(** The fragments [cachedTabs.match(/(<li[^>]*>[\w\W]+?<\/li>)/g) || []]. *)
Definition tabFragments (cachedTabs : jsstring) : list jsstring :=
  match jsmatchAll cachedTabs tabFragmentMatcher with
  | Some ms => ms
  | None => []
  end.

Definition cachedTabsOf (cachedTabs : jsstring) : result (list CachedTab) :=
  rmap parseCachedTab (tabFragments cachedTabs).

Definition signatureFromTabsCache (cachedTabs : jsstring) : result jsstring :=
  rbind (cachedTabsOf cachedTabs) (fun tabs =>
    let tabIds := map ct_id tabs in
    Ok (join [LF] (map (cachedSignatureLine tabIds) tabs))).
End Cache.

(** [r{n}] *)
Fixpoint RRepeat (n : nat) (r : regex) : regex :=
  match n with
  | O => REmpty
  | S n' => RSeq r (RRepeat n' r)
  end.

(** [s.replace(r, '')] for a regular expression without the [g] flag. *)
Definition jsremoveFirst (s : jsstring) (r : regex) : jsstring :=
  match jsmatch s r with
  | Some m => take (m_index m) s ++ m_rest m
  | None => s
  end.

(** [trimTabsCache], for an integer (or absent) [ignoreCount]: the first
    run of [ignoreCount] fragments is removed. *)
Definition trimTabsCache (cache : jsstring) (ignoreCount : option Z)
  : jsstring :=
  match ignoreCount with
  | None => cache
  | Some n =>
      if (n =? 0) || (n <? 0) then cache
      else jsremoveFirst cache (RRepeat (Z.to_nat n) tabFragmentMatcher)
  end.

(* ================================================================== *)
(** * The document *)
(* ================================================================== *)

Definition node : Type := nat.

(** What the module reads and writes of a DOM node. [apiTab] is the
    property of that name the fixup pass sets on a tab element, [tst] the
    tab whose helper object its [$TST] property has been given. *)
Record NodeRec := mkNode {
  parentNode : option node;
  childNodes : list node;
  isElement : bool;
  attributes : list (jsstring * jsstring);
  apiTab : option Tab;
  tst : option Z
}.

(** The nodes of the document, by number. *)
Abbreviation DOM := (gmap node NodeRec).

Definition childrenOf (d : DOM) (n : node) : list node :=
  match d !! n with
  | Some r => childNodes r
  | None => []
  end.

Definition parentOf (d : DOM) (n : node) : option node :=
  match d !! n with
  | Some r => parentNode r
  | None => None
  end.

Definition setParent (p : option node) (r : NodeRec) : NodeRec :=
  mkNode p (childNodes r) (isElement r) (attributes r) (apiTab r) (tst r).

Definition setChildren (cs : list node) (r : NodeRec) : NodeRec :=
  mkNode (parentNode r) cs (isElement r) (attributes r) (apiTab r) (tst r).

Fixpoint setAssoc (name value : jsstring) (l : list (jsstring * jsstring))
  : list (jsstring * jsstring) :=
  match l with
  | [] => [(name, value)]
  | (k, v) :: l' =>
      if jsstring_eqb k name then (k, value) :: l'
      else (k, v) :: setAssoc name value l'
  end.

Definition setAttr (name value : jsstring) (r : NodeRec) : NodeRec :=
  mkNode (parentNode r) (childNodes r) (isElement r)
    (setAssoc name value (attributes r)) (apiTab r) (tst r).

Definition setApiTab (t : Tab) (r : NodeRec) : NodeRec :=
  mkNode (parentNode r) (childNodes r) (isElement r) (attributes r)
    (Some t) (tst r).

Definition setTst (i : Z) (r : NodeRec) : NodeRec :=
  mkNode (parentNode r) (childNodes r) (isElement r) (attributes r)
    (apiTab r) (Some i).

Definition updateNode (f : NodeRec -> NodeRec) (n : node) (d : DOM) : DOM :=
  match d !! n with
  | Some r => <[n := f r]> d
  | None => d
  end.

Fixpoint indexIn (n : node) (xs : list node) : option nat :=
  match xs with
  | [] => None
  | x :: xs' =>
      if Nat.eqb x n then Some O
      else match indexIn n xs' with
           | Some i => Some (S i)
           | None => None
           end
  end.

Definition without (n : node) (xs : list node) : list node :=
  List.filter (fun x => negb (Nat.eqb x n)) xs.

(** Detach [child] from its parent, if it has one. *)
Definition detach (child : node) (d : DOM) : DOM :=
  match parentOf d child with
  | Some p =>
      updateNode (setParent None) child
        (updateNode (fun r => setChildren (without child (childNodes r)) r) p d)
  | None => d
  end.

(** [parent.removeChild(child)]: a NotFoundError unless [child] is a child
    of [parent]. *)
Definition removeChild (parent child : node) (d : DOM) : result DOM :=
  match parentOf d child with
  | Some p => if Nat.eqb p parent then Ok (detach child d)
              else Throw DOMException
  | None => Throw DOMException
  end.

(** The chain of ancestors of a node, itself first. *)
Fixpoint ancestors (fuel : nat) (d : DOM) (n : node) : list node :=
  match fuel with
  | O => [n]
  | S fuel' =>
      match parentOf d n with
      | Some p => n :: ancestors fuel' d p
      | None => [n]
      end
  end.

Definition inclusiveAncestors (d : DOM) (n : node) : list node :=
  ancestors (size d) d n.

Definition rootOf (d : DOM) (n : node) : node :=
  match last (inclusiveAncestors d n) with
  | Some r => r
  | None => n
  end.

Definition isInclusiveAncestor (d : DOM) (a n : node) : bool :=
  existsb (Nat.eqb a) (inclusiveAncestors d n).

(** Insert the nodes [ns] (detached from where they are) among the children
    of [parent], before position [i]. *)
Definition insertAt (parent : node) (i : nat) (ns : list node) (d : DOM)
  : DOM :=
  let d1 := fold_left (fun d n => detach n d) ns d in
  let d2 := updateNode (fun r =>
              setChildren (take i (childNodes r) ++ ns ++ drop i (childNodes r))
                r) parent d1 in
  fold_left (fun d n => updateNode (setParent (Some parent)) n d) ns d2.

(** [parent.appendChild(child)]: a HierarchyRequestError when [child] is an
    inclusive ancestor of [parent]. *)
Definition appendChild (parent child : node) (d : DOM) : result DOM :=
  if isInclusiveAncestor d child parent then Throw DOMException
  else
    let d1 := detach child d in
    Ok (insertAt parent (length (childrenOf d1 parent)) [child] d1).

(** ** Ranges *)

(** A boundary point: a node and an offset among its children. *)
Definition boundary : Type := node * nat.

Record Range := mkRange {
  rangeStart : boundary;
  rangeEnd : boundary
}.

(** The path of child indices from the root to a node. *)
Fixpoint pathOf (fuel : nat) (d : DOM) (n : node) : list nat :=
  match fuel with
  | O => []
  | S fuel' =>
      match parentOf d n with
      | Some p =>
          match indexIn n (childrenOf d p) with
          | Some i => pathOf fuel' d p ++ [i]
          | None => []
          end
      | None => []
      end
  end.

Definition boundaryPath (d : DOM) (b : boundary) : list nat :=
  pathOf (size d) d (fst b) ++ [snd b].

(** Lexicographic order, a proper prefix coming first: tree order on
    boundary points of one tree. *)
Fixpoint pathBefore (a b : list nat) : bool :=
  match a, b with
  | [], [] => false
  | [], _ :: _ => true
  | _ :: _, [] => false
  | x :: a', y :: b' =>
      if (x <? y)%nat then true
      else if (y <? x)%nat then false
      else pathBefore a' b'
  end.

Definition sameRoot (d : DOM) (a b : node) : bool :=
  Nat.eqb (rootOf d a) (rootOf d b).

Definition boundaryBefore (d : DOM) (a b : boundary) : bool :=
  pathBefore (boundaryPath d a) (boundaryPath d b).

Definition boundaryEqb (a b : boundary) : bool :=
  Nat.eqb (fst a) (fst b) && Nat.eqb (snd a) (snd b).

(** [range.selectNodeContents(n)] *)
Definition selectNodeContents (n : node) (d : DOM) : Range :=
  mkRange (n, O) (n, length (childrenOf d n)).

(** [range.setStartBefore(n)]: an InvalidNodeTypeError when [n] has no
    parent. *)
Definition setStartBefore (r : Range) (n : node) (d : DOM) : result Range :=
  match parentOf d n with
  | None => Throw DOMException
  | Some p =>
      match indexIn n (childrenOf d p) with
      | None => Throw DOMException
      | Some i =>
          let b := (p, i) in
          if negb (sameRoot d p (fst (rangeStart r)))
             || boundaryBefore d (rangeEnd r) b
          then Ok (mkRange b b)
          else Ok (mkRange b (rangeEnd r))
      end
  end.

(** [range.setEndAfter(n)] *)
Definition setEndAfter (r : Range) (n : node) (d : DOM) : result Range :=
  match parentOf d n with
  | None => Throw DOMException
  | Some p =>
      match indexIn n (childrenOf d p) with
      | None => Throw DOMException
      | Some i =>
          let b := (p, S i) in
          if negb (sameRoot d p (fst (rangeStart r)))
             || boundaryBefore d b (rangeStart r)
          then Ok (mkRange b b)
          else Ok (mkRange (rangeStart r) b)
      end
  end.

(** [range.collapse(false)] *)
Definition collapseToEnd (r : Range) : Range :=
  mkRange (rangeEnd r) (rangeEnd r).

(** A node is contained in a range when it lies wholly between its boundary
    points. *)
Definition containedIn (d : DOM) (r : Range) (n : node) : bool :=
  sameRoot d n (fst (rangeStart r))
  && boundaryBefore d (rangeStart r) (n, O)
  && boundaryBefore d (n, length (childrenOf d n)) (rangeEnd r).

(** [range.deleteContents()], for boundary points that are not inside
    character data: the outermost contained nodes are removed, and the
    range collapses. *)
Definition deleteContents (r : Range) (d : DOM) : Range * DOM :=
  if boundaryEqb (rangeStart r) (rangeEnd r) then (r, d)
  else
    let toRemove :=
      List.filter (fun n => containedIn d r n
                       && match parentOf d n with
                          | Some p => negb (containedIn d r p)
                          | None => true
                          end)
        (map fst (map_to_list d)) in
    let startNode := fst (rangeStart r) in
    let endNode := fst (rangeEnd r) in
    let new :=
      if isInclusiveAncestor d startNode endNode then rangeStart r
      else
        let reference :=
          match List.filter (fun a => match parentOf d a with
                                 | Some p => isInclusiveAncestor d p endNode
                                 | None => true
                                 end)
                  (inclusiveAncestors d startNode) with
          | a :: _ => a
          | [] => startNode
          end in
        match parentOf d reference with
        | Some p =>
            match indexIn reference (childrenOf d p) with
            | Some i => (p, S i)
            | None => rangeStart r
            end
        | None => rangeStart r
        end in
    (mkRange new new, fold_left (fun d n => detach n d) toRemove d).

(** [range.insertNode(fragment)] for a document fragment and a range that
    starts in an element: the children of the fragment move before the
    child at the start offset. *)
Definition insertNode (r : Range) (fragment : node) (d : DOM)
  : result (Range * DOM) :=
  let '(parent, offset) := rangeStart r in
  match d !! parent with
  | None => Throw DOMException
  | Some _ =>
      let moved := childrenOf d fragment in
      let d' := insertAt parent offset moved d in
      let r' := if boundaryEqb (rangeStart r) (rangeEnd r)
                then mkRange (rangeStart r)
                       (parent, (offset + length moved)%nat)
                else r in
      Ok (r', d')
  end.

(** ** Parsed markup *)

(** What the HTML parser makes of a string: a forest of nodes. *)
#[warnings="-register-all"]
Inductive tree :=
| TNode (element : bool) (attrs : list (jsstring * jsstring))
    (kids : list tree).

(** Allocate the nodes of a tree under [parent]; returns the node of the
    root. *)
Fixpoint allocTree (t : tree) (parent : node) (st : DOM * node)
  : node * (DOM * node) :=
  match t with
  | TNode element attrs kids =>
      let '(d, next) := st in
      let me := next in
      let d1 := <[me := mkNode (Some parent) [] element attrs None None]> d in
      let '(ks, (d2, next2)) :=
        (fix allocForest (ts : list tree) (st : DOM * node)
           : list node * (DOM * node) :=
           match ts with
           | [] => ([], st)
           | t' :: ts' =>
               let '(k, st1) := allocTree t' me st in
               let '(ks, st2) := allocForest ts' st1 in
               (k :: ks, st2)
           end) kids (d1, S next) in
      (me, (updateNode (setChildren ks) me d2, next2))
  end.

Fixpoint allocForest (ts : list tree) (parent : node) (st : DOM * node)
  : list node * (DOM * node) :=
  match ts with
  | [] => ([], st)
  | t :: ts' =>
      let '(k, st1) := allocTree t parent st in
      let '(ks, st2) := allocForest ts' parent st1 in
      (k :: ks, st2)
  end.

(* ================================================================== *)
(** * The sidebar: state and effects *)
(* ================================================================== *)

(** The calls the module makes to the rest of the extension; a tab is named
    by its id. *)
Inductive Event :=
| EWindowInit (windowId : Z)                    (* Window.init *)
| EBindElement (tabId : Z) (element : node)     (* tab.$TST.bindElement *)
| ETabInit (tabId : Z)                          (* Tab.init, existing *)
| ETabSetAttribute (tabId : Z) (name value : jsstring)
                                                (* tab.$TST.setAttribute *)
| ESetProgress (percent : Z)                    (* UserOperationBlocker *)
| ENextFrame                                    (* await nextFrame() *)
| EApplyStates (tabId : Z)
| EApplyCollapseExpandState (tabId : Z)
| EUpdateTab (tabId : Z).                       (* TabsUpdate.updateTab *)

(** The state the module works on. [TabsStore.windows] and the tabs of
    [Tab.get] are the stores of the tab model, maps from ids. Logging and
    metrics are left out, but for the exceptions that evaluating their
    arguments can raise; a suspension ([await]) lets nothing else run. *)
Record World := mkWorld {
  w_dom : DOM;
  w_next : node;                    (* the next node the parser creates *)
  w_wholeContainer : node;          (* SidebarTabs.wholeContainer *)
  w_windows : gmap Z (option node); (* TabsStore.windows and their element *)
  w_tabs : gmap Z (option node);    (* the tabs of Tab.get, their element *)
  w_clock : nat -> Z;               (* the successive values of Date.now() *)
  w_ticks : nat;                    (* how many have been read *)
  w_trace : list Event              (* the calls made, latest first *)
}.

Definition withDom (d : DOM) (w : World) : World :=
  mkWorld d (w_next w) (w_wholeContainer w) (w_windows w) (w_tabs w)
    (w_clock w) (w_ticks w) (w_trace w).

(** A computation: it ends with a value or an exception, in a new state. *)
Definition M (A : Type) : Type := World -> result A * World.

Definition ret {A} (a : A) : M A := fun w => (Ok a, w).
Definition throw {A} (e : exn) : M A := fun w => (Throw e, w).

Definition bind {A B} (m : M A) (f : A -> M B) : M B :=
  fun w =>
    match m w with
    | (Ok a, w') => f a w'
    | (Throw e, w') => (Throw e, w')
    end.

Notation "'do' x <- m ; k" := (bind m (fun x => k))
  (at level 10, x pattern, m at level 100, k at level 200).

Definition getDom : M DOM := fun w => (Ok (w_dom w), w).
Definition putDom (d : DOM) : M unit := fun w => (Ok tt, withDom d w).

(** A DOM operation that may raise. *)
Definition liftDom (f : DOM -> result DOM) : M unit :=
  fun w =>
    match f (w_dom w) with
    | Ok d => (Ok tt, withDom d w)
    | Throw e => (Throw e, w)
    end.

Definition liftResult {A} (r : result A) : M A := fun w => (r, w).

(** The value of an expression that is null or undefined raises a TypeError
    when a property of it is read. *)
Definition deref {A} (o : option A) : M A :=
  match o with
  | Some a => ret a
  | None => throw TypeError
  end.

Definition emit (e : Event) : M unit :=
  fun w => (Ok tt,
            mkWorld (w_dom w) (w_next w) (w_wholeContainer w) (w_windows w)
              (w_tabs w) (w_clock w) (w_ticks w) (e :: w_trace w)).

(** [Date.now()] *)
Definition dateNow : M Z :=
  fun w => (Ok (w_clock w (w_ticks w)),
            mkWorld (w_dom w) (w_next w) (w_wholeContainer w) (w_windows w)
              (w_tabs w) (w_clock w) (S (w_ticks w)) (w_trace w)).

(** Modelled from the spec: [Tab.get] of [/common/Tab.js], the lookup of a
    tab by its id in the store of the tab model, which yields nothing for
    an id it does not know. Here [Tab.get(id).$TST.element] as an argument
    that must be a node: a TypeError when the tab is unknown, and when it
    has no element. *)
Definition tabElementOf (id : Z) : M node :=
  fun w =>
    match w_tabs w !! id with
    | None => (Throw TypeError, w)
    | Some None => (Throw TypeError, w)
    | Some (Some el) => (Ok el, w)
    end.

(** [xs.slice(start)] *)
Definition jsSlice {A} (xs : list A) (start : Z) : list A :=
  if start <? 0 then drop (Z.to_nat (Z.of_nat (length xs) + start)) xs
  else drop (Z.to_nat start) xs.

(** [xs.slice(-k)] for a positive [k]: the last [k] elements. *)
Definition jsSliceLast {A} (xs : list A) (k : nat) : list A :=
  drop (length xs - k) xs.

(** The argument of [restoreTabsFromCacheInternal]. *)
Record RestoreParams := mkParams {
  p_windowId : Z;
  p_tabs : list Tab;
  p_cache : jsstring;
  p_offset : option Z;
  p_insertionPoint : option Range;
  p_shouldUpdate : bool
}.

(** [/^<ul[^>]+>|<\/ul>$/g], the tags of the container. *)
Definition containerTagsMatcher : regex :=
  RAlt
    (RSeq RStart
       (RSeq (RLit (lit "<ul"))
          (RSeq (RPlus true (RClass (fun c => negb (N.eqb c 62))))
             (RChar 62))))
    (RSeq (RLit (lit "</ul>")) REnd).

(** [/<li/g] *)
Definition tabTagMatcher : regex := RLit (lit "<li").

Definition attrId : jsstring := lit "id".
Definition attrDataWindowId : jsstring := lit "data-window-id".

Definition withNext (d : DOM) (next : node) (w : World) : World :=
  mkWorld d next (w_wholeContainer w) (w_windows w) (w_tabs w)
    (w_clock w) (w_ticks w) (w_trace w).

(** [element.setAttribute(name, value)]; what is not an element has no
    such method. *)
Definition setElementAttribute (el : node) (name value : jsstring) : M unit :=
  fun w =>
    match w_dom w !! el with
    | Some r =>
        if isElement r
        then (Ok tt, withDom (<[el := setAttr name value r]> (w_dom w)) w)
        else (Throw TypeError, w)
    | None => (Throw TypeError, w)
    end.

(** Assignment to a property of a node. *)
Definition setProperty (f : NodeRec -> NodeRec) (el : node) : M unit :=
  fun w => (Ok tt, withDom (updateNode f el (w_dom w)) w).

(** [x || -1] on an integer. *)
Definition orMinusOne (z : Z) : Z := if z =? 0 then -1 else z.

Definition withTabs (tabs : gmap Z (option node)) (w : World) : World :=
  mkWorld (w_dom w) (w_next w) (w_wholeContainer w) (w_windows w) tabs
    (w_clock w) (w_ticks w) (w_trace w).

(** Modelled from the spec: [tab.$TST.bindElement(element)] of
    [/common/Tab.js], the method of a tab handle that binds the tab to its
    element: from then on [element] is the element [Tab.get(id).$TST.element]
    yields for the id of the tab. *)
Definition bindElement (tab : Tab) (element : node) : M unit :=
  do _ <- emit (EBindElement (tab_id tab) element);
  fun w => (Ok tt, withTabs (<[tab_id tab := Some element]> (w_tabs w)) w).

(** Modelled from the spec: [tab.$TST.setAttribute(name, value)] of
    [/common/Tab.js], the method of a tab handle that stamps an attribute
    used for lookups: it is written to the element of the tab, if the tab
    has one. *)
Definition tstSetAttribute (tab : Tab) (name value : jsstring) : M unit :=
  do _ <- emit (ETabSetAttribute (tab_id tab) name value);
  fun w =>
    match w_tabs w !! tab_id tab with
    | Some (Some element) => setElementAttribute element name value w
    | _ => (Ok tt, w)
    end.

Section Sidebar.
(** The HTML parser of the browser, as [createContextualFragment] uses
    it. *)
Variable parseHTML : jsstring -> list tree.

(** [Constants.kAPI_TAB_ID], [Constants.kAPI_WINDOW_ID] and
    [Constants.kPROGRESS_INTERVAL], declared in [/common/constants.js]. *)
Variables kAPI_TAB_ID kAPI_WINDOW_ID : jsstring.
Variable kPROGRESS_INTERVAL : Z.

(** The rounding of a real result to a double. *)
Variable fl : Q -> Q.

(** [range.createContextualFragment(source)]: a new fragment that holds
    the parsed nodes. *)
Definition createContextualFragment (source : jsstring) : M node :=
  fun w =>
    let f := w_next w in
    let d1 := <[f := mkNode None [] false [] None None]> (w_dom w) in
    let '(ks, (d2, next)) := allocForest (parseHTML source) f (d1, S f) in
    (Ok f, withNext (updateNode (setChildren ks) f d2) next w).

(** ** The fixup pass *)

(** [Math.round(count / maxCount * 33) + 33]; [Math.round] is the floor
    of its argument plus one half. *)
Definition progressOf (count maxCount : Z) : Z :=
  Qfloor (fl (fl (inject_Z count / inject_Z maxCount) * 33) + (1 # 2)) + 33.

(** The end of an iteration of either loop, on [(count, lastDraw)]. *)
Definition reportProgress (maxCount : Z) (st : Z * Z) : M (Z * Z) :=
  let '(count, lastDraw) := st in
  do now <- dateNow;
  if kPROGRESS_INTERVAL <? now - lastDraw then
    let count' := count + 1 in
    do _ <- emit (ESetProgress (progressOf count' maxCount));
    do _ <- emit ENextFrame;
    do now' <- dateNow;
    ret (count', now')
  else ret (count, lastDraw).

(** Step 1, from [index] on. The value [tabElement.id] that is handed to
    [tab.$TST.setAttribute] is the id attribute just written. *)
Fixpoint fixupStep1 (tabs : list Tab) (tabElements : list node)
    (index : nat) (maxCount : Z) (st : Z * Z) : M (Z * Z) :=
  match tabElements with
  | [] => ret st
  | tabElement :: rest =>
      do tab <- deref (tabs !! index);
      let elementId := lit "tab-" ++ showZ (tab_id tab) in
      do _ <- setElementAttribute tabElement attrId elementId;
      do _ <- bindElement tab tabElement;
      do _ <- setProperty (setApiTab tab) tabElement;
      do _ <- emit (ETabInit (tab_id tab));
      do _ <- tstSetAttribute tab attrId elementId;
      do _ <- setProperty (setTst (tab_id tab)) tabElement;
      do _ <- tstSetAttribute tab kAPI_TAB_ID
                (showZ (orMinusOne (tab_id tab)));
      do _ <- tstSetAttribute tab kAPI_WINDOW_ID
                (showZ (orMinusOne (tab_windowId tab)));
      do st' <- reportProgress maxCount st;
      fixupStep1 tabs rest (S index) maxCount st'
  end.

(** Step 2. *)
Fixpoint fixupStep2 (dirty : bool) (tabElements : list node)
    (maxCount : Z) (st : Z * Z) : M (Z * Z) :=
  match tabElements with
  | [] => ret st
  | tabElement :: rest =>
      do d <- getDom;
      do tab <- deref (match d !! tabElement with
                       | Some r => apiTab r
                       | None => None
                       end);
      do _ <- emit (EApplyStates (tab_id tab));
      do _ <- emit (EApplyCollapseExpandState (tab_id tab));
      do _ <- (if dirty then emit (EUpdateTab (tab_id tab)) else ret tt);
      do st' <- reportProgress maxCount st;
      fixupStep2 dirty rest maxCount st'
  end.

Definition mismatchMessage (elements tabs : nat) : jsstring :=
  lit "fixupTabsRestoredFromCache: Mismatched number of tabs restored from cache, elements="
    ++ showZ (Z.of_nat elements) ++ lit ", tabs.Tab="
    ++ showZ (Z.of_nat tabs).

Definition fixupTabsRestoredFromCache (tabElements : list node)
    (tabs : list Tab) (dirty : bool) : M unit :=
  if negb (Nat.eqb (length tabElements) (length tabs)) then
    throw (Error (mismatchMessage (length tabElements) (length tabs)))
  else
    do lastDraw <- dateNow;
    let count := 0 in
    let maxCount := Z.of_nat (length tabElements) * 2 in
    do st1 <- fixupStep1 tabs tabElements O maxCount (count, lastDraw);
    do _ <- fixupStep2 dirty tabElements maxCount st1;
    ret tt.

(** ** The restoration *)

(** [params.offset || 0] *)
Definition offsetOf (params : RestoreParams) : Z :=
  match p_offset params with
  | Some o => o
  | None => 0
  end.

(** The tabs to restore: [params.tabs.slice(offset)]. *)
Definition tabsOf (params : RestoreParams) : list Tab :=
  jsSlice (p_tabs params) (offsetOf params).

(** The first part of [restoreTabsFromCacheInternal], up to the end of
    the restoration of the DOM tree: the container and the restored
    elements, or [None] where the function returns [[]] at once. *)
Definition restoreTree (params : RestoreParams) : M (option (node * list node)) :=
  let offset := offsetOf params in
  let tabs := tabsOf params in
  do container <- (fun w => deref (w_windows w !! p_windowId params) w);
  if 0 <? offset then
    do d <- getDom;
    match container with
    | None => ret None
    | Some container =>
        if Z.of_nat (length (childrenOf d container)) <=? offset
        then ret None
        else
          do first <- deref (head tabs);
          let insertionPoint := selectNodeContents container d in
          do firstElement <- tabElementOf (tab_id first);
          do insertionPoint <-
               liftResult (setStartBefore insertionPoint firstElement d);
          do lastTab <- deref (last tabs);
          do lastElement <- tabElementOf (tab_id lastTab);
          do insertionPoint <-
               liftResult (setEndAfter insertionPoint lastElement d);
          do _ <- putDom (snd (deleteContents insertionPoint d));
          do _ <- (fun w =>
                     if forallb (fun tab =>
                                   match w_tabs w !! tab_id tab with
                                   | Some _ => true
                                   | None => false
                                   end) tabs
                     then (Ok tt, w) else (Throw TypeError, w));
          do matched <- deref (jsmatchAll (p_cache params) tabTagMatcher);
          do d <- getDom;
          let insertionPoint :=
            collapseToEnd (selectNodeContents container d) in
          let source := jsremoveAll (p_cache params) containerTagsMatcher in
          do fragment <- createContextualFragment source;
          do d <- getDom;
          do inserted <- liftResult (insertNode insertionPoint fragment d);
          do _ <- putDom (snd inserted);
          do d <- getDom;
          ret (Some (container,
                     jsSliceLast (childrenOf d container) (length matched)))
    end
  else
    do _ <- match container with
            | Some container =>
                do d <- getDom;
                do parent <- deref (parentOf d container);
                liftDom (removeChild parent container)
            | None => ret tt
            end;
    do insertionPoint <-
         match p_insertionPoint params with
         | Some range => ret range
         | None =>
             (fun w =>
                (Ok (collapseToEnd
                       (selectNodeContents (w_wholeContainer w) (w_dom w))),
                 w))
         end;
    do fragment <- createContextualFragment (p_cache params);
    do d <- getDom;
    let container := head (childrenOf d fragment) in
    do inserted <- liftResult (insertNode insertionPoint fragment d);
    do _ <- putDom (snd inserted);
    do container <- deref container;
    do d <- getDom;
    do isEl <- deref (isElement <$> d !! container);
    do _ <- (if isEl : bool then ret tt else throw TypeError);
    do _ <- setElementAttribute container attrId
              (lit "window-" ++ showZ (p_windowId params));
    do _ <- setElementAttribute container attrDataWindowId
              (showZ (p_windowId params));
    do _ <- emit (EWindowInit (p_windowId params));
    do d <- getDom;
    ret (Some (container, childrenOf d container)).

(** The end of [restoreTabsFromCacheInternal]: the check of the number
    of restored elements, and the fixup of the tree while it is out of
    the document. *)
Definition finishRestoration (params : RestoreParams) (container : node)
    (tabElements : list node) : M (list node) :=
  let tabs := tabsOf params in
  if negb (Nat.eqb (length tabElements) (length tabs)) then
    do d <- getDom;
    do parent <- deref (parentOf d container);
    do _ <- liftDom (removeChild parent container);
    ret []
  else
    do d <- getDom;
    do parent <- deref (parentOf d container);
    do _ <- liftDom (removeChild parent container);
    do _ <- fixupTabsRestoredFromCache tabElements tabs
              (p_shouldUpdate params);
    do _ <- liftDom (appendChild parent container);
    ret tabElements.

Definition restoreTabsFromCacheInternal (params : RestoreParams) : M (list node) :=
  do restored <- restoreTree params;
  match restored with
  | None => ret []
  | Some (container, tabElements) =>
      finishRestoration params container tabElements
  end.
End Sidebar.

(* ================================================================== *)
(** * Notions of the specification *)
(* ================================================================== *)

(** [s.endsWith(pat)] *)
Definition ends_with (pat s : jsstring) : bool :=
  starts_with (rev pat) (rev s).

(** [pat] does not occur in [s] at any index below [n]. *)
Definition noOccurrenceBefore (pat s : jsstring) (n : nat) : bool :=
  forallb (fun i => negb (starts_with pat (drop i s))) (seq 0 n).

(** No line feed in [s]. *)
Definition hasNoLF (s : jsstring) : bool :=
  forallb (fun c => negb (N.eqb c LF)) s.


(** The characters of the decimal form of an integer. *)
Definition isDigitOrMinus (c : N) : bool :=
  N.eqb c 45 || inRange 48 57 c.

(** The parentheses [i] occur in [r]. *)
Fixpoint hasGroup (i : nat) (r : regex) : bool :=
  match r with
  | RSeq r1 r2 | RAlt r1 r2 => hasGroup i r1 || hasGroup i r2
  | RStar _ r1 => hasGroup i r1
  | RGroup j r1 => Nat.eqb i j || hasGroup i r1
  | _ => false
  end.

(** Every match of [r] goes through the parentheses [i]. *)
Fixpoint setsGroup (i : nat) (r : regex) : bool :=
  match r with
  | RSeq r1 r2 => setsGroup i r1 || setsGroup i r2
  | RAlt r1 r2 => setsGroup i r1 && setsGroup i r2
  | RGroup j r1 => Nat.eqb i j || setsGroup i r1
  | _ => false
  end.

(** The parentheses [i] have captured. *)
Definition isSet (i : nat) (cs : captures) : bool :=
  match capture i cs with
  | Some _ => true
  | None => false
  end.

(** The tab store knows the tab, and the tab has an element. *)
Definition hasElement (w : World) (tab : option Tab) : bool :=
  match tab with
  | Some t =>
      match w_tabs w !! tab_id t with
      | Some (Some _) => true
      | _ => false
      end
  | None => false
  end.

(** The tab has an element, and this element is a child of its parent
    node. *)
Definition isChild (w : World) (tab : option Tab) : bool :=
  match tab with
  | Some t =>
      match w_tabs w !! tab_id t with
      | Some (Some el) =>
          match parentOf (w_dom w) el with
          | Some parent =>
              match indexIn el (childrenOf (w_dom w) parent) with
              | Some _ => true
              | None => false
              end
          | None => false
          end
      | _ => false
      end
  | None => false
  end.

(** A boundary tab is located when the tab store knows it, it has an
    element, and this element has a parent node: what the range needs to
    be set before or after the element. The parent need not be in the
    document itself. *)
Definition isLocated (w : World) (tab : option Tab) : bool :=
  match tab with
  | Some t =>
      match w_tabs w !! tab_id t with
      | Some (Some el) =>
          match parentOf (w_dom w) el with
          | Some _ => true
          | None => false
          end
      | _ => false
      end
  | None => false
  end.

Definition boundaryTabsLocated (params : RestoreParams) (w : World) : bool :=
  isLocated w (head (tabsOf params)) && isLocated w (last (tabsOf params)).

(** A node is in the store. *)
Definition present (d : DOM) (n : node) : Prop := is_Some (d !! n).

(** The nodes of [d] are nodes of [d']. *)
Definition allocKeeps (d d' : DOM) : Prop :=
  forall m, present d m -> present d' m.

(** Allocation from [next] on leaves the nodes below [next] as they
    are. *)
Definition allocFrom (next : node) (d d' : DOM) : Prop :=
  forall m, (m < next)%nat -> d' !! m = d !! m.

(** What tail restoration expects of the sidebar: the window has its
    container, which is in the document and older than the nodes to come,
    and the elements of the boundary tabs are children of it. *)
Definition tailReady (params : RestoreParams) (w : World) : Prop :=
  exists container : node,
    w_windows w !! p_windowId params = Some (Some container)
    /\ is_Some (parentOf (w_dom w) container)
    /\ (container < w_next w)%nat
    /\ forall (tab : Tab) (el : node),
        head (tabsOf params) = Some tab \/ last (tabsOf params) = Some tab ->
        w_tabs w !! tab_id tab = Some (Some el) ->
        parentOf (w_dom w) el = Some container.

(** The percentages reported to the progress indicator, latest first. *)
Fixpoint progressReports (trace : list Event) : list Z :=
  match trace with
  | [] => []
  | ESetProgress v :: trace' => v :: progressReports trace'
  | _ :: trace' => progressReports trace'
  end.

(** [w'] comes after [w], and every percentage reported in between
    satisfies [P]. *)
Definition reportsOnly (P : Z -> Prop) (w w' : World) : Prop :=
  exists new, w_trace w' = new ++ w_trace w
              /\ Forall P (progressReports new).

(** A computation reports only percentages of [P], and returns a value of
    [V] when it returns. *)
Definition reporting {A} (P : Z -> Prop) (m : M A) (V : A -> Prop) : Prop :=
  forall w r w', m w = (r, w') ->
    reportsOnly P w w' /\ forall a, r = Ok a -> V a.

Definition inProgressRange (v : Z) : Prop := 33 <= v <= 66.

(* ================================================================== *)
(** * Inputs for the examples *)
(* ================================================================== *)

(** A tab of the default container, neither private nor pinned. *)
Definition plainTab (id : Z) (opener : option Z) : Tab :=
  mkTab id opener (lit "firefox-default") false false 1.

(** The same, pinned. *)
Definition pinnedTab (id : Z) : Tab :=
  mkTab id None (lit "firefox-default") false true 1.

(** The signatures of a window of one such tab, of two, and of one
    pinned tab. *)
Definition signatureOfOne : jsstring :=
  getWindowSignature [plainTab 1 None].

Definition signatureOfTwo : jsstring :=
  getWindowSignature [plainTab 1 None; plainTab 2 None].

Definition signatureOfPinned : jsstring :=
  getWindowSignature [pinnedTab 1].

(** A further line of a signature. *)
Definition extraLine : jsstring := lit "0,firefox-default,false,false".

(** A tab and its two children. *)
Definition familyOfThree : list Tab :=
  [plainTab 1 None; plainTab 2 (Some 1); plainTab 3 (Some 1)].

(** The names of the attributes, for the examples. *)
Definition dataTabId : jsstring := lit "data-tab-id".

Definition dataParentId : jsstring := lit "data-parent-id".

(** Modelled from the spec: the serializer of the tab bar, which is not
    part of the module. One item per tab record, in a container; an item
    carries the id of its tab, a class list with the contextual identity
    (the cookie store id behind the conventional prefix) and the
    [incognito] and [pinned] flags, and the raw id of its parent if it has
    one. *)
Definition serializeTab (kAPI_TAB_ID kPARENT : jsstring) (tab : Tab)
  : jsstring :=
  lit "<li " ++ kAPI_TAB_ID ++ lit "=" ++ [QUOTE] ++ showZ (tab_id tab)
    ++ [QUOTE] ++ lit " class=" ++ [QUOTE]
    ++ lit "tab contextual-identity-" ++ tab_cookieStoreId tab
    ++ (if tab_incognito tab then lit " incognito" else [])
    ++ (if tab_pinned tab then lit " pinned" else [])
    ++ [QUOTE]
    ++ match tab_openerTabId tab with
       | Some o => lit " " ++ kPARENT ++ lit "=" ++ [QUOTE] ++ showZ o
                     ++ [QUOTE]
       | None => []
       end
    ++ lit "><span>label</span></li>".

Definition serialize (kAPI_TAB_ID kPARENT : jsstring) (tabs : list Tab)
  : jsstring :=
  lit "<ul id=" ++ [QUOTE] ++ lit "window-1" ++ [QUOTE] ++ lit ">"
    ++ concat (map (serializeTab kAPI_TAB_ID kPARENT) tabs) ++ lit "</ul>".

(** A pinned tab of the container [firefox-container-1]. *)
Definition containerTab : Tab :=
  mkTab 7 None (lit "firefox-container-1") false true 1.

(** An item whose class attribute is empty. *)
Definition emptyClassBlob : jsstring :=
  lit "<ul><li data-tab-id=" ++ [QUOTE] ++ lit "1" ++ [QUOTE]
    ++ lit " class=" ++ [QUOTE] ++ [QUOTE] ++ lit ">label</li></ul>".

(** A tab whose id is 0, and a tab whose opener it is. *)
Definition zeroFamily : list Tab := [plainTab 0 None; plainTab 5 (Some 0)].

(** An item whose parent reference is not a number. *)
Definition oddParentBlob : jsstring :=
  lit "<ul><li data-tab-id=" ++ [QUOTE] ++ lit "1" ++ [QUOTE]
    ++ lit " class=" ++ [QUOTE] ++ lit "tab" ++ [QUOTE]
    ++ lit " data-parent-id=" ++ [QUOTE] ++ lit "none" ++ [QUOTE]
    ++ lit ">label</li></ul>".

(** ** A sidebar for the examples *)

(** A parser for the flat markup of the examples: one element for each
    item, with its label as a text node, inside a container element when
    the markup starts with the tag of one. *)
Definition flatParser (source : jsstring) : list tree :=
  let items := map (fun _ => TNode true [] [TNode false [] []])
                 (tabFragments source) in
  if starts_with (lit "<ul") source then [TNode true [] items] else items.

Definition dataWindowId : jsstring := lit "data-window-id".

(** Where the results of the operations are doubles themselves, rounding
    leaves them as they are. *)
Definition flExact (x : Q) : Q := x.

(** A clock that advances by 100 ms between two readings. *)
Definition steadyClock (n : nat) : Z := Z.of_nat n * 100.

Definition elementNode (parent : option node) (children : list node)
  : NodeRec :=
  mkNode parent children true [] None None.

(** The sidebar before any window is shown: node 0 is the whole
    container; window 1 is known and has no element yet. *)
Definition emptySidebar : World :=
  mkWorld {[ 0%nat := elementNode None [] ]} 1%nat 0%nat
    {[ 1 := None ]} ∅ steadyClock 0%nat [].

(** A window of three tabs of which the second has lost its element: the
    container, node 1, holds the elements of tabs 1 and 3. *)
Definition sidebarMissingTab : World :=
  mkWorld {[ 0%nat := elementNode None [1%nat];
             1%nat := elementNode (Some 0%nat) [2%nat; 3%nat];
             2%nat := elementNode (Some 1%nat) [];
             3%nat := elementNode (Some 1%nat) [] ]} 4%nat 0%nat
    {[ 1 := Some 1%nat ]} {[ 1 := Some 2%nat; 3 := Some 3%nat ]}
    steadyClock 0%nat [].

(** A window whose three tabs have their elements. *)
Definition sidebarOfThree : World :=
  mkWorld {[ 0%nat := elementNode None [1%nat];
             1%nat := elementNode (Some 0%nat) [2%nat; 3%nat; 4%nat];
             2%nat := elementNode (Some 1%nat) [];
             3%nat := elementNode (Some 1%nat) [];
             4%nat := elementNode (Some 1%nat) [] ]} 5%nat 0%nat
    {[ 1 := Some 1%nat ]}
    {[ 1 := Some 2%nat; 2 := Some 3%nat; 3 := Some 4%nat ]}
    steadyClock 0%nat [].

Definition threeTabs : list Tab :=
  [plainTab 1 None; plainTab 2 None; plainTab 3 None].

Definition twoItems : jsstring := lit "<li>two</li><li>three</li>".

Definition threeItemsInContainer : jsstring :=
  lit "<ul class=tabs><li>one</li><li>two</li><li>three</li></ul>".

(** Tail restoration with offset 1 of the window of three tabs. *)
Definition tailRestoration : RestoreParams :=
  mkParams 1 threeTabs twoItems (Some 1) None false.

(** Tail restoration with offset 1 of one item for two tab records. *)
Definition tailRestorationOfOne : RestoreParams :=
  mkParams 1 threeTabs (lit "<li>two</li>") (Some 1) None false.

(** Full restoration of three items for two tab records. *)
Definition fullRestorationOfTwo : RestoreParams :=
  mkParams 1 [plainTab 1 None; plainTab 2 None] threeItemsInContainer
    None None false.

(** Full restoration of three items for three tab records. *)
Definition fullRestorationOfThree : RestoreParams :=
  mkParams 1 threeTabs threeItemsInContainer None None true.

(** Tail restoration with offset 1 of markup without any item. *)
Definition tailRestorationOfNone : RestoreParams :=
  mkParams 1 threeTabs (lit "<p>none</p>") (Some 1) None false.

(** The window of three tabs where the element of the second tab is not
    the child of the container, node 3, but node 6, the child of an
    element that is in no document. *)
Definition sidebarStrayTab : World :=
  mkWorld {[ 0%nat := elementNode None [1%nat];
             1%nat := elementNode (Some 0%nat) [2%nat; 3%nat; 4%nat];
             2%nat := elementNode (Some 1%nat) [];
             3%nat := elementNode (Some 1%nat) [];
             4%nat := elementNode (Some 1%nat) [];
             5%nat := elementNode None [6%nat];
             6%nat := elementNode (Some 5%nat) [] ]} 7%nat 0%nat
    {[ 1 := Some 1%nat ]}
    {[ 1 := Some 2%nat; 2 := Some 6%nat; 3 := Some 4%nat ]}
    steadyClock 0%nat [].

(** The same window where the element of the second tab, node 5, has no
    parent node; and where the store does not know the third tab. *)
Definition sidebarLooseTab : World :=
  mkWorld {[ 0%nat := elementNode None [1%nat];
             1%nat := elementNode (Some 0%nat) [2%nat; 3%nat; 4%nat];
             2%nat := elementNode (Some 1%nat) [];
             3%nat := elementNode (Some 1%nat) [];
             4%nat := elementNode (Some 1%nat) [];
             5%nat := elementNode None [] ]} 6%nat 0%nat
    {[ 1 := Some 1%nat ]}
    {[ 1 := Some 2%nat; 2 := Some 5%nat; 3 := Some 4%nat ]}
    steadyClock 0%nat [].

Definition sidebarNoLastTab : World :=
  mkWorld {[ 0%nat := elementNode None [1%nat];
             1%nat := elementNode (Some 0%nat) [2%nat; 3%nat; 4%nat];
             2%nat := elementNode (Some 1%nat) [];
             3%nat := elementNode (Some 1%nat) [];
             4%nat := elementNode (Some 1%nat) [] ]} 5%nat 0%nat
    {[ 1 := Some 1%nat ]}
    {[ 1 := Some 2%nat; 2 := Some 3%nat ]}
    steadyClock 0%nat [].

(** The sidebar of three tabs, its container taken out of the document. *)
Definition sidebarDetached : World :=
  withDom (detach 1%nat (w_dom sidebarOfThree)) sidebarOfThree.

(** An item that has no class attribute, around an element that has
    one. *)
Definition childClassBlob : jsstring :=
  lit "<ul><li data-tab-id=" ++ [QUOTE] ++ lit "1" ++ [QUOTE]
    ++ lit "><span class=" ++ [QUOTE] ++ lit "label" ++ [QUOTE]
    ++ lit ">x</span></li></ul>".

(** The module run on the examples. *)
Definition restoreExample (params : RestoreParams) : M (list node) :=
  restoreTabsFromCacheInternal flatParser dataTabId dataWindowId 16 flExact
    params.

(** One detached element to fix up, for one tab record. *)
Definition sidebarOneElement : World :=
  mkWorld {[ 0%nat := elementNode None [] ]} 1%nat 0%nat ∅ ∅ steadyClock
    0%nat [].

Definition fixupExample : M unit :=
  fixupTabsRestoredFromCache dataTabId dataWindowId 16 flExact [0%nat]
    [plainTab 1 None] false.

(* ================================================================== *)
(** * Notions for the further properties *)
(* ================================================================== *)

(** A tab record with its ids renamed. *)
Definition renameTab (f : Z -> Z) (tab : Tab) : Tab :=
  mkTab (f (tab_id tab)) (option_map f (tab_openerTabId tab))
    (tab_cookieStoreId tab) (tab_incognito tab) (tab_pinned tab)
    (tab_windowId tab).

(** ** The language of a pattern *)

(** The code unit before the position that follows [t], when [prev] is the
    one before [t]. *)
Definition lastOr (prev : option N) (t : jsstring) : option N :=
  match last t with
  | Some c => Some c
  | None => prev
  end.

(** [lang r prev t rest]: the pattern [r] accepts the text [t], found
    after the code unit [prev] and before [rest]. *)
Inductive lang : regex -> option N -> jsstring -> jsstring -> Prop :=
| LClass (p : N -> bool) (c : N) (prev : option N) (rest : jsstring) :
    p c = true -> lang (RClass p) prev [c] rest
| LEmpty (prev : option N) (rest : jsstring) : lang REmpty prev [] rest
| LSeq (r1 r2 : regex) (prev : option N) (t1 t2 rest : jsstring) :
    lang r1 prev t1 (t2 ++ rest) -> lang r2 (lastOr prev t1) t2 rest ->
    lang (RSeq r1 r2) prev (t1 ++ t2) rest
| LAltL (r1 r2 : regex) (prev : option N) (t rest : jsstring) :
    lang r1 prev t rest -> lang (RAlt r1 r2) prev t rest
| LAltR (r1 r2 : regex) (prev : option N) (t rest : jsstring) :
    lang r2 prev t rest -> lang (RAlt r1 r2) prev t rest
| LStarNil (g : bool) (r : regex) (prev : option N) (rest : jsstring) :
    lang (RStar g r) prev [] rest
| LStarCons (g : bool) (r : regex) (prev : option N)
    (t1 t2 rest : jsstring) :
    lang r prev t1 (t2 ++ rest) -> lang (RStar g r) (lastOr prev t1) t2 rest ->
    lang (RStar g r) prev (t1 ++ t2) rest
| LGroup (i : nat) (r : regex) (prev : option N) (t rest : jsstring) :
    lang r prev t rest -> lang (RGroup i r) prev t rest
| LWordBoundary (prev : option N) (rest : jsstring) :
    xorb (isWordAt prev) (isWordAt (head rest)) = true ->
    lang RWordBoundary prev [] rest
| LStart (rest : jsstring) : lang RStart None [] rest
| LEnd (prev : option N) : lang REnd prev [] [].

(** The text of one item: the opening tag with its attributes, a content
    that is not empty, and the closing tag. *)
Definition isTabFragment (f : jsstring) : Prop :=
  exists attrs content,
    f = lit "<li" ++ attrs ++ [62%N] ++ content ++ lit "</li>"
    /\ Forall (fun c => c <> 62%N) attrs
    /\ content <> [].

(** ** Notions for the fixup pass *)

(** The calls to the tab model, without those to the progress indicator. *)
Definition isProgressEvent (e : Event) : bool :=
  match e with
  | ESetProgress _ | ENextFrame => true
  | _ => false
  end.

Definition callsOf (trace : list Event) : list Event :=
  List.filter (fun e => negb (isProgressEvent e)) trace.

(** The value of an attribute. *)
Fixpoint getAssoc (name : jsstring) (l : list (jsstring * jsstring))
  : option jsstring :=
  match l with
  | [] => None
  | (k, v) :: l' => if jsstring_eqb k name then Some v else getAssoc name l'
  end.

Definition getAttribute (name : jsstring) (r : NodeRec) : option jsstring :=
  getAssoc name (attributes r).

(** A node of the store that is an element. *)
Definition isElementIn (d : DOM) (n : node) : bool :=
  match d !! n with
  | Some r => isElement r
  | None => false
  end.

(** The id of the element of a tab. *)
Definition elementIdOf (tab : Tab) : jsstring :=
  lit "tab-" ++ showZ (tab_id tab).

(** What step 1 makes of the record of an element: the id attribute,
    the tab record, the id attribute again, through the tab, the helper
    of the tab, and the attributes of the tab id and of the window id.
    Then the calls it makes for the element, in their order. *)
Definition boundRecord (kAPI_TAB_ID kAPI_WINDOW_ID : jsstring) (tab : Tab)
    (r : NodeRec) : NodeRec :=
  setAttr kAPI_WINDOW_ID (showZ (orMinusOne (tab_windowId tab)))
    (setAttr kAPI_TAB_ID (showZ (orMinusOne (tab_id tab)))
       (setTst (tab_id tab)
          (setAttr attrId (elementIdOf tab)
             (setApiTab tab (setAttr attrId (elementIdOf tab) r))))).

Definition bindingCalls (kAPI_TAB_ID kAPI_WINDOW_ID : jsstring) (tab : Tab)
    (el : node) : list Event :=
  [EBindElement (tab_id tab) el;
   ETabInit (tab_id tab);
   ETabSetAttribute (tab_id tab) attrId (elementIdOf tab);
   ETabSetAttribute (tab_id tab) kAPI_TAB_ID (showZ (orMinusOne (tab_id tab)));
   ETabSetAttribute (tab_id tab) kAPI_WINDOW_ID
     (showZ (orMinusOne (tab_windowId tab)))].

(** The calls of step 2 for a tab, in their order. *)
Definition stateCalls (dirty : bool) (tab : Tab) : list Event :=
  EApplyStates (tab_id tab) :: EApplyCollapseExpandState (tab_id tab)
    :: (if dirty then [EUpdateTab (tab_id tab)] else []).

Definition withTrace (t : list Event) (w : World) : World :=
  mkWorld (w_dom w) (w_next w) (w_wholeContainer w) (w_windows w) (w_tabs w)
    (w_clock w) (w_ticks w) t.

Definition withTicks (n : nat) (w : World) : World :=
  mkWorld (w_dom w) (w_next w) (w_wholeContainer w) (w_windows w) (w_tabs w)
    (w_clock w) n (w_trace w).

(** The sidebar after the calls [calls], made in this order. *)
Definition afterCalls (calls : list Event) (w : World) : World :=
  withTrace (rev calls ++ w_trace w) w.

(** The sidebar after an iteration of step 1 that binds [tab] and the
    element [el], whose record was [r]. *)
Definition afterBinding (kAPI_TAB_ID kAPI_WINDOW_ID : jsstring) (tab : Tab)
    (el : node) (r : NodeRec) (w : World) : World :=
  afterCalls (bindingCalls kAPI_TAB_ID kAPI_WINDOW_ID tab el)
    (withTabs (<[tab_id tab := Some el]> (w_tabs w))
       (withDom (<[el := boundRecord kAPI_TAB_ID kAPI_WINDOW_ID tab r]>
                   (w_dom w)) w)).

(** The store of windows, the parser and the clock are those of [w]. *)
Definition sameStores (w w' : World) : Prop :=
  w_next w' = w_next w /\ w_wholeContainer w' = w_wholeContainer w
  /\ w_windows w' = w_windows w /\ w_clock w' = w_clock w.

(** The store of tabs of [w'] is the one of [w] but for the entries of
    the tabs [tabs], and what is new in it is a binding to one of the
    elements [els]. *)
Definition tabsRebound (tabs : list Tab) (els : list node) (w w' : World)
  : Prop :=
  (forall id, ~ In id (map tab_id tabs) -> w_tabs w' !! id = w_tabs w !! id)
  /\ (forall id el, w_tabs w' !! id = Some (Some el) ->
                    w_tabs w !! id = Some (Some el) \/ In el els).

(** The same nodes, of the same kind, in the same tree. *)
Definition sameTree (d d' : DOM) : Prop :=
  forall n, (parentNode <$> d' !! n) = (parentNode <$> d !! n)
            /\ (childNodes <$> d' !! n) = (childNodes <$> d !! n)
            /\ (isElement <$> d' !! n) = (isElement <$> d !! n).

(** The percentages for the counts from [count + 1] to [count + k], the
    latest first. *)
Definition reportsBetween (fl : Q -> Q) (maxCount count : Z) (k : nat)
  : list Z :=
  rev (map (fun i => progressOf fl (count + Z.of_nat i) maxCount) (seq 1 k)).

(** The part of the trace an execution adds holds calls to the tab model
    only. *)
Definition quietly (w w' : World) : Prop :=
  exists new, w_trace w' = new ++ w_trace w
              /\ Forall (fun e => isProgressEvent e = false) new.

(** From the reading of the clock to come, the clock does not pass
    [interval] after [lastDraw]. *)
Definition withinInterval (interval lastDraw : Z) (w : World) : Prop :=
  forall j, (w_ticks w <= j)%nat -> w_clock w j - lastDraw <= interval.

(** A computation raises exceptions of [P] only. *)
Definition raisesOnly {A} (P : exn -> Prop) (m : M A) : Prop :=
  forall w e w', m w = (Throw e, w') -> P e.

(** The exceptions of the language and of the DOM, as opposed to those the
    module creates itself. *)
Definition isBuiltinError (e : exn) : Prop :=
  e = TypeError \/ e = DOMException.

(** A node is an element that carries one of the tab records [tabs]. *)
Definition hasTabOf (tabs : list Tab) (d : DOM) (n : node) : Prop :=
  exists r tab, d !! n = Some r /\ isElement r = true
                /\ apiTab r = Some tab /\ In tab tabs.

(** What a record carries besides its place in the tree. *)
Definition payload (r : NodeRec)
  : bool * list (jsstring * jsstring) * option Tab * option Z :=
  (isElement r, attributes r, apiTab r, tst r).

Definition samePayload (d d' : DOM) : Prop :=
  forall n, (payload <$> d' !! n) = (payload <$> d !! n).

(** A parser for markup that is a container around a run of text: the
    container element with one text node. *)
Definition textParser (source : jsstring) : list tree :=
  [TNode true [] [TNode false [] []]].

(** Full restoration of such markup for one tab record. *)
Definition fullRestorationOfText : RestoreParams :=
  mkParams 1 [plainTab 1 None] (lit "<ul>text</ul>") None None false.





(** ** Further inputs for the examples *)

(** A clock that stands still, and the detached element under it. *)
Definition stillClock (n : nat) : Z := 0.

Definition sidebarStill : World :=
  mkWorld {[ 0%nat := elementNode None [] ]} 1%nat 0%nat ∅ ∅ stillClock
    0%nat [].

(** The fixup of the element of the second tab alone, in the window of
    three tabs. *)
Definition fixupSecond : M unit :=
  fixupTabsRestoredFromCache dataTabId dataWindowId 16 flExact [3%nat]
    [plainTab 2 None] false.

(* ================================================================== *)
(** * Properties of strings *)
(* ================================================================== *)

Lemma jsstring_eqb_nil (s : jsstring) :
  jsstring_eqb s [] = true <-> s = [].
Proof. destruct s; simpl; split; congruence. Qed.

Lemma jsstring_eqb_nil_false (s : jsstring) :
  s <> [] -> jsstring_eqb s [] = false.
Proof. destruct s; simpl; congruence. Qed.

Lemma starts_with_app (pat rest : jsstring) :
  starts_with pat (pat ++ rest) = true.
Proof.
  induction pat as [|c pat IH]; simpl.
  - reflexivity.
  - rewrite N.eqb_refl. exact IH.
Qed.

Lemma starts_with_inv (pat s : jsstring) :
  starts_with pat s = true -> exists rest, s = pat ++ rest.
Proof.
  revert s. induction pat as [|c pat IH]; intros s H.
  - exists s. reflexivity.
  - destruct s as [|x s]; simpl in H; [discriminate|].
    apply andb_true_iff in H as [Hc Hs].
    apply N.eqb_eq in Hc. subst x.
    destruct (IH s Hs) as [rest ->]. exists rest. reflexivity.
Qed.

Lemma ends_with_app (pre pat : jsstring) :
  ends_with pat (pre ++ pat) = true.
Proof.
  unfold ends_with. rewrite rev_app_distr. apply starts_with_app.
Qed.

Lemma ends_with_inv (pat s : jsstring) :
  ends_with pat s = true -> exists pre, s = pre ++ pat.
Proof.
  unfold ends_with. intros H.
  apply starts_with_inv in H as [rest H].
  exists (rev rest).
  rewrite <- (rev_involutive s), H, rev_app_distr, rev_involutive.
  reflexivity.
Qed.

Lemma indexOf_at_start (s pat : jsstring) :
  starts_with pat s = true -> indexOf s pat = 0.
Proof. intros H. destruct s; simpl in *; rewrite H; reflexivity. Qed.

Lemma indexOf_lower (s pat : jsstring) : -1 <= indexOf s pat.
Proof.
  induction s as [|c s IH]; simpl.
  - destruct (starts_with pat []); lia.
  - destruct (starts_with pat (c :: s)); [lia|].
    destruct (indexOf s pat <? 0) eqn:E; [lia|].
    apply Z.ltb_ge in E. lia.
Qed.

(** Where [indexOf] finds the pattern, the pattern is. *)
Lemma indexOf_found (s pat : jsstring) :
  0 <= indexOf s pat ->
  starts_with pat (drop (Z.to_nat (indexOf s pat)) s) = true.
Proof.
  induction s as [|c s IH]; simpl indexOf.
  - destruct (starts_with pat []) eqn:E; [intros _; exact E | lia].
  - destruct (starts_with pat (c :: s)) eqn:E; [intros _; exact E|].
    destruct (indexOf s pat <? 0) eqn:Er; [lia|].
    apply Z.ltb_ge in Er. intros _.
    replace (Z.to_nat (indexOf s pat + 1)) with (S (Z.to_nat (indexOf s pat)))
      by lia.
    simpl. apply IH. exact Er.
Qed.

Lemma forallb_seq_shift (f : nat -> bool) (n : nat) :
  forallb f (seq 1 n) = forallb (fun i => f (S i)) (seq 0 n).
Proof.
  rewrite <- seq_shift.
  induction (seq 0 n) as [|x l IH]; simpl; [reflexivity|].
  rewrite IH. reflexivity.
Qed.

(** [indexOf] returns the first position at which the pattern occurs. *)
Lemma indexOf_first (pat s : jsstring) (n : nat) :
  noOccurrenceBefore pat s n = true ->
  starts_with pat (drop n s) = true ->
  (n <= length s)%nat ->
  indexOf s pat = Z.of_nat n.
Proof.
  revert s. induction n as [|n IH]; intros s Hno Hat Hlen.
  - rewrite drop_0 in Hat. apply indexOf_at_start. exact Hat.
  - destruct s as [|c s]; [simpl in Hlen; lia|].
    unfold noOccurrenceBefore in Hno.
    simpl seq in Hno. simpl forallb in Hno.
    apply andb_true_iff in Hno as [H0 Hrest].
    apply negb_true_iff in H0. simpl in H0.
    simpl indexOf. rewrite H0.
    assert (Hs : indexOf s pat = Z.of_nat n).
    { apply IH.
      - unfold noOccurrenceBefore.
        rewrite forallb_seq_shift in Hrest. exact Hrest.
      - exact Hat.
      - simpl in Hlen. lia. }
    rewrite Hs.
    destruct (Z.of_nat n <? 0) eqn:E; [apply Z.ltb_lt in E; lia|].
    lia.
Qed.

(* ================================================================== *)
(** * Compatibility of signatures *)
(* ================================================================== *)

(** C1. [matcheSignatures] is meant to hold exactly when both signatures
    are non-empty and the actual one ends with the cached one. It looks
    for the first occurrence only, and does not tell a missing occurrence
    (-1) apart: the signature of one tab is a trailing slice of the
    signature of two such tabs and is yet reported not to match, and the
    signature of an unpinned tab is reported to match that of a pinned
    one, which does not end with it. *)
Theorem matcheSignatures_not_ends_with :
  (ends_with signatureOfOne signatureOfTwo = true
   /\ truthy (matcheSignatures
                (mkSignatures (Some signatureOfTwo) (Some signatureOfOne)))
      = false)
  /\ (ends_with signatureOfOne signatureOfPinned = false
      /\ truthy (matcheSignatures
                   (mkSignatures (Some signatureOfPinned)
                      (Some signatureOfOne)))
         = true).
Proof. repeat split; vm_compute; reflexivity. Qed.

(** Where the occurrence found is a real one, a match is a suffix match. *)
Lemma matcheSignatures_sound (a c : jsstring) :
  truthy (matcheSignatures (mkSignatures (Some a) (Some c))) = true ->
  0 <= indexOf a c ->
  a <> [] /\ c <> [] /\ ends_with c a = true.
Proof.
  unfold matcheSignatures. cbn [actual cached].
  destruct (jsstring_eqb a []) eqn:Ea.
  - simpl. rewrite Ea. discriminate.
  - destruct (jsstring_eqb c []) eqn:Ec.
    + simpl. rewrite Ec. discriminate.
    + cbn [truthy]. intros H Hi. apply Z.eqb_eq in H.
      split; [intros ->; discriminate|].
      split; [intros ->; discriminate|].
      pose proof (indexOf_found a c Hi) as Hat.
      apply starts_with_inv in Hat as [rest Hrest].
      assert (Hlen : length (drop (Z.to_nat (indexOf a c)) a)
                     = (length a - Z.to_nat (indexOf a c))%nat)
        by apply length_drop.
      rewrite Hrest, length_app in Hlen. unfold jslength in H.
      assert (rest = []) as -> by (apply length_zero_iff_nil; lia).
      rewrite app_nil_r in Hrest.
      rewrite <- (take_drop (Z.to_nat (indexOf a c)) a), Hrest.
      apply ends_with_app.
Qed.

(** A missing or empty signature never matches. *)
Lemma matcheSignatures_missing (a c : option jsstring) :
  a = None \/ a = Some [] \/ c = None \/ c = Some [] ->
  truthy (matcheSignatures (mkSignatures a c)) = false.
Proof.
  unfold matcheSignatures. simpl.
  intros [-> | [-> | [-> | ->]]]; try reflexivity.
  - destruct a as [a|]; [|reflexivity].
    destruct (jsstring_eqb a []) eqn:E; simpl; [rewrite E|]; reflexivity.
  - destruct a as [a|]; [|reflexivity].
    destruct (jsstring_eqb a []) eqn:E; simpl; [rewrite E|]; reflexivity.
Qed.

(** On two non-empty signatures the result is the comparison. *)
Lemma matcheSignatures_nonempty (a c : jsstring) :
  a <> [] -> c <> [] ->
  matcheSignatures (mkSignatures (Some a) (Some c))
  = VBool (indexOf a c + jslength c =? jslength a).
Proof.
  intros Ha Hc. unfold matcheSignatures. cbn [actual cached].
  rewrite (jsstring_eqb_nil_false a Ha), (jsstring_eqb_nil_false c Hc).
  reflexivity.
Qed.

(** C7, as stated, fails: the signature of one tab, cached, against the
    same signature followed by a further line. *)
Lemma matcheSignatures_trailing_extension_fails :
  signatureOfOne <> []
  /\ truthy (matcheSignatures
               (mkSignatures (Some (signatureOfOne ++ [LF] ++ extraLine))
                  (Some signatureOfOne)))
     = false.
Proof. split; [discriminate | vm_compute; reflexivity]. Qed.

(** C7, amended. For a non-empty signature S and any further line: with
    cached = S and actual = extra + LF + S, where S does not occur in the
    actual signature before that last position, [matcheSignatures] returns
    true, so an actual signature that extends the cached one with leading
    lines is compatible; with actual = S + LF + extra, which does not end
    with S, it returns false. *)
Theorem matcheSignatures_leading_extension (S extra : jsstring) :
  S <> [] ->
  (noOccurrenceBefore S (extra ++ [LF] ++ S) (length extra + 1) = true ->
   matcheSignatures (mkSignatures (Some (extra ++ [LF] ++ S)) (Some S))
   = VBool true)
  /\ (ends_with S (S ++ [LF] ++ extra) = false ->
      matcheSignatures (mkSignatures (Some (S ++ [LF] ++ extra)) (Some S))
      = VBool false).
Proof.
  intros HS. split.
  - intros Hno.
    rewrite matcheSignatures_nonempty
      by (first [assumption | destruct extra; discriminate]).
    rewrite (indexOf_first S (extra ++ [LF] ++ S) (length extra + 1) Hno).
    + f_equal. apply Z.eqb_eq. unfold jslength.
      rewrite !length_app. simpl. lia.
    + replace (extra ++ [LF] ++ S) with ((extra ++ [LF]) ++ S)
        by (rewrite <- app_assoc; reflexivity).
      rewrite drop_app_length'
        by (rewrite length_app; simpl; lia).
      rewrite <- (app_nil_r S) at 2. apply starts_with_app.
    + rewrite !length_app. simpl. lia.
  - intros _.
    rewrite matcheSignatures_nonempty
      by (first [assumption | destruct S; discriminate]).
    rewrite indexOf_at_start by apply starts_with_app.
    f_equal. apply Z.eqb_neq. unfold jslength.
    rewrite !length_app. simpl. lia.
Qed.

Lemma matcheSignatures_leading_extension_witness :
  matcheSignatures
    (mkSignatures (Some (extraLine ++ [LF] ++ signatureOfOne))
       (Some signatureOfOne)) = VBool true
  /\ matcheSignatures
       (mkSignatures (Some (signatureOfOne ++ [LF] ++ extraLine))
          (Some signatureOfOne)) = VBool false.
Proof.
  destruct (matcheSignatures_leading_extension signatureOfOne extraLine)
    as [H1 H2].
  - discriminate.
  - split; [apply H1 | apply H2]; vm_compute; reflexivity.
Defined.

(* ================================================================== *)
(** * The signature of a window *)
(* ================================================================== *)

Lemma string_of_uint_chars (d : Decimal.uint) :
  forallb isDigitOrMinus (lit (NilEmpty.string_of_uint d)) = true.
Proof. induction d; simpl; try reflexivity; exact IHd. Qed.

(** The decimal form of an integer holds digits and a sign only. *)
Lemma showZ_chars (z : Z) : forallb isDigitOrMinus (showZ z) = true.
Proof.
  unfold showZ. destruct (Z.to_int z) as [d|d]; simpl.
  - apply string_of_uint_chars.
  - apply string_of_uint_chars.
Qed.

Lemma forallb_weaken {A} (p q : A -> bool) (l : list A) :
  (forall x, p x = true -> q x = true) ->
  forallb p l = true -> forallb q l = true.
Proof.
  intros Hpq. induction l as [|x l IH]; simpl; [reflexivity|].
  intros H. apply andb_true_iff in H as [Hx Hl].
  rewrite (Hpq x Hx), (IH Hl). reflexivity.
Qed.

Lemma showZ_noLF (z : Z) : hasNoLF (showZ z) = true.
Proof.
  unfold hasNoLF. apply (forallb_weaken isDigitOrMinus); [|apply showZ_chars].
  intros x Hx. unfold isDigitOrMinus, inRange in Hx.
  apply negb_true_iff. apply N.eqb_neq. unfold LF.
  apply orb_true_iff in Hx as [Hx | Hx].
  - apply N.eqb_eq in Hx. lia.
  - apply andb_true_iff in Hx as [Hx _]. apply N.leb_le in Hx. lia.
Qed.

Lemma showBool_noLF (b : bool) : hasNoLF (showBool b) = true.
Proof. destruct b; reflexivity. Qed.

Lemma hasNoLF_app (a b : jsstring) :
  hasNoLF (a ++ b) = hasNoLF a && hasNoLF b.
Proof. unfold hasNoLF. apply forallb_app. Qed.

Lemma signatureLine_noLF (p : Z) (cookie : jsstring) (inc pin : bool) :
  hasNoLF cookie = true -> hasNoLF (signatureLine p cookie inc pin) = true.
Proof.
  intros H. unfold signatureLine.
  rewrite !hasNoLF_app, showZ_noLF, H, !showBool_noLF. reflexivity.
Qed.


Lemma splitOn_single (s : jsstring) :
  hasNoLF s = true -> splitOn LF s = [s].
Proof.
  induction s as [|c s IH]; simpl; [reflexivity|].
  intros H. apply andb_true_iff in H as [Hc Hs].
  apply negb_true_iff in Hc. rewrite Hc, (IH Hs). reflexivity.
Qed.

Lemma splitOn_cons (s rest : jsstring) :
  hasNoLF s = true -> splitOn LF (s ++ [LF] ++ rest) = s :: splitOn LF rest.
Proof.
  induction s as [|c s IH]; simpl.
  - reflexivity.
  - intros H. apply andb_true_iff in H as [Hc Hs].
    apply negb_true_iff in Hc. rewrite Hc.
    change (s ++ LF :: rest) with (s ++ [LF] ++ rest).
    rewrite (IH Hs). reflexivity.
Qed.

(** Splitting at line feeds undoes the joining of lines that hold none. *)
Lemma splitOn_join (lines : list jsstring) :
  lines <> [] ->
  Forall (fun l => hasNoLF l = true) lines ->
  splitOn LF (join [LF] lines) = lines.
Proof.
  induction lines as [|l lines IH]; [congruence|].
  intros _ Hall. inversion Hall as [|? ? Hl Hrest]; subst.
  destruct lines as [|l' lines].
  - simpl. apply splitOn_single. exact Hl.
  - change (join [LF] (l :: l' :: lines))
      with (l ++ [LF] ++ join [LF] (l' :: lines)).
    rewrite (splitOn_cons _ _ Hl). f_equal.
    apply IH; [discriminate | exact Hrest].
Qed.






(** The scenario of the specification, with the cookie store id of the
    browser's default container. *)
Example getWindowSignature_family :
  getWindowSignature familyOfThree
  = lit "-1,firefox-default,false,false" ++ [LF]
    ++ lit "0,firefox-default,false,false" ++ [LF]
    ++ lit "0,firefox-default,false,false".
Proof. vm_compute. reflexivity. Qed.

Example getWindowSignature_empty : getWindowSignature [] = [].
Proof. reflexivity. Qed.

(* ================================================================== *)
(** * Captures of the matcher *)
(* ================================================================== *)

(** A match binds no parentheses that its pattern does not have. *)
Lemma rmatch_keeps_capture {R} (r : regex) (i : nat) :
  hasGroup i r = false ->
  forall prev s cs (k : option N -> jsstring -> captures -> option R) res,
    rmatch r prev s cs k = Some res ->
    exists prev' s' cs',
      capture i cs' = capture i cs /\ k prev' s' cs' = Some res.
Proof.
  induction r as [p| |r1 IH1 r2 IH2|r1 IH1 r2 IH2|g r1 IH1|j r1 IH1| | |];
    intros Hg prev s cs k res H; simpl in H.
  - destruct s as [|c s']; [discriminate|].
    destruct (p c); [|discriminate]. eauto.
  - eauto.
  - simpl in Hg. apply orb_false_iff in Hg as [Hg1 Hg2].
    apply (IH1 Hg1) in H as (prev1 & s1 & cs1 & Hc1 & H).
    apply (IH2 Hg2) in H as (prev2 & s2 & cs2 & Hc2 & H).
    exists prev2, s2, cs2. split; [congruence | exact H].
  - simpl in Hg. apply orb_false_iff in Hg as [Hg1 Hg2].
    destruct (rmatch r1 prev s cs k) as [x|] eqn:E.
    + inversion H; subst. apply (IH1 Hg1) in E. exact E.
    + apply (IH2 Hg2) in H. exact H.
  - simpl in Hg. revert H. generalize (length s). intros n.
    revert prev s cs.
    induction n as [|n IHn]; intros prev s cs H.
    + destruct g.
      * eauto.
      * destruct (k prev s cs) eqn:E; [|discriminate]. inversion H; subst. eauto.
    + destruct g.
      * match type of H with
        | match ?m with _ => _ end = _ => destruct m as [x|] eqn:E
        end.
        -- inversion H; subst.
           apply (IH1 Hg) in E as (prev1 & s1 & cs1 & Hc1 & E).
           destruct (length s1 <? length s)%nat; [|discriminate].
           apply IHn in E as (prev2 & s2 & cs2 & Hc2 & E).
           exists prev2, s2, cs2. split; [congruence | exact E].
        -- eauto.
      * destruct (k prev s cs) eqn:Ek.
        -- inversion H; subst. eauto.
        -- apply (IH1 Hg) in H as (prev1 & s1 & cs1 & Hc1 & E).
           destruct (length s1 <? length s)%nat; [|discriminate].
           apply IHn in E as (prev2 & s2 & cs2 & Hc2 & E).
           exists prev2, s2, cs2. split; [congruence | exact E].
  - simpl in Hg. apply orb_false_iff in Hg as [Hj Hg1].
    apply (IH1 Hg1) in H as (prev1 & s1 & cs1 & Hc1 & H).
    eexists _, _, _. split; [|exact H].
    simpl. rewrite Hj. exact Hc1.
  - destruct (xorb _ _); [|discriminate]. eauto.
  - destruct prev; [discriminate|]. eauto.
  - destruct s; [|discriminate]. eauto.
Qed.

(** A match binds the parentheses that every path of its pattern goes
    through. *)
Lemma rmatch_sets_capture {R} (r : regex) (i : nat) :
  forall prev s cs (k : option N -> jsstring -> captures -> option R) res,
    rmatch r prev s cs k = Some res ->
    exists prev' s' cs',
      (isSet i cs || setsGroup i r = true -> isSet i cs' = true)
      /\ k prev' s' cs' = Some res.
Proof.
  induction r as [p| |r1 IH1 r2 IH2|r1 IH1 r2 IH2|g r1 IH1|j r1 IH1| | |];
    intros prev s cs k res H; simpl in H; simpl setsGroup;
    rewrite ?orb_false_r.
  - destruct s as [|c s']; [discriminate|].
    destruct (p c); [|discriminate]. eauto.
  - eauto.
  - apply IH1 in H as (prev1 & s1 & cs1 & Hc1 & H).
    apply IH2 in H as (prev2 & s2 & cs2 & Hc2 & H).
    exists prev2, s2, cs2. split; [|exact H].
    intros Hs. apply Hc2. apply orb_true_iff.
    apply orb_true_iff in Hs as [Hs|Hs].
    + left. apply Hc1. rewrite Hs. reflexivity.
    + apply orb_true_iff in Hs as [Hs|Hs].
      * left. apply Hc1. rewrite Hs. apply orb_true_r.
      * right. exact Hs.
  - destruct (rmatch r1 prev s cs k) as [x|] eqn:E.
    + inversion H; subst. apply IH1 in E as (prev1 & s1 & cs1 & Hc1 & E).
      exists prev1, s1, cs1. split; [|exact E].
      intros Hs. apply Hc1. apply orb_true_iff.
      apply orb_true_iff in Hs as [Hs|Hs]; [left; exact Hs|].
      apply andb_true_iff in Hs as [Hs _]. right. exact Hs.
    + apply IH2 in H as (prev1 & s1 & cs1 & Hc1 & E').
      exists prev1, s1, cs1. split; [|exact E'].
      intros Hs. apply Hc1. apply orb_true_iff.
      apply orb_true_iff in Hs as [Hs|Hs]; [left; exact Hs|].
      apply andb_true_iff in Hs as [_ Hs]. right. exact Hs.
  - revert H. generalize (length s). intros n.
    revert prev s cs.
    induction n as [|n IHn]; intros prev s cs H.
    + destruct g.
      * eauto.
      * destruct (k prev s cs) eqn:E; [|discriminate]. inversion H; subst. eauto.
    + destruct g.
      * match type of H with
        | match ?m with _ => _ end = _ => destruct m as [x|] eqn:E
        end.
        -- inversion H; subst.
           apply IH1 in E as (prev1 & s1 & cs1 & Hc1 & E).
           destruct (length s1 <? length s)%nat; [|discriminate].
           apply IHn in E as (prev2 & s2 & cs2 & Hc2 & E).
           exists prev2, s2, cs2. split; [|exact E].
           intros Hs. apply Hc2. apply Hc1. rewrite Hs. reflexivity.
        -- eauto.
      * destruct (k prev s cs) eqn:Ek.
        -- inversion H; subst. eauto.
        -- apply IH1 in H as (prev1 & s1 & cs1 & Hc1 & E).
           destruct (length s1 <? length s)%nat; [|discriminate].
           apply IHn in E as (prev2 & s2 & cs2 & Hc2 & E).
           exists prev2, s2, cs2. split; [|exact E].
           intros Hs. apply Hc2. apply Hc1. rewrite Hs. reflexivity.
  - apply IH1 in H as (prev1 & s1 & cs1 & Hc1 & H).
    eexists _, _, _. split; [|exact H].
    intros Hs. unfold isSet. simpl.
    destruct (Nat.eqb i j) eqn:Ej; [reflexivity|].
    fold (isSet i cs1). apply Hc1. simpl in Hs. exact Hs.
  - destruct (xorb _ _); [|discriminate]. eauto.
  - destruct prev; [discriminate|]. eauto.
  - destruct s; [|discriminate]. eauto.
Qed.

Lemma search_captures (r : regex) (s : jsstring) (prev : option N)
    (pos : nat) (m : MatchResult) (i : nat) :
  search r prev s pos = Some m ->
  (hasGroup i r = false -> capture i (m_captures m) = None)
  /\ (setsGroup i r = true -> isSet i (m_captures m) = true).
Proof.
  revert prev pos. induction s as [|c s IH]; intros prev pos H; simpl in H.
  - destruct (matchHere r prev []) as [[s' cs]|] eqn:E; [|discriminate].
    inversion H; subst; simpl. unfold matchHere in E. split; intros Hg.
    + apply (rmatch_keeps_capture r i Hg) in E as (? & ? & ? & Hc & E).
      inversion E; subst. exact Hc.
    + apply (rmatch_sets_capture r i) in E as (? & ? & ? & Hc & E).
      inversion E; subst. apply Hc. rewrite Hg. apply orb_true_r.
  - destruct (matchHere r prev (c :: s)) as [[s' cs]|] eqn:E.
    + inversion H; subst; simpl. unfold matchHere in E. split; intros Hg.
      * apply (rmatch_keeps_capture r i Hg) in E as (? & ? & ? & Hc & E).
        inversion E; subst. exact Hc.
      * apply (rmatch_sets_capture r i) in E as (? & ? & ? & Hc & E).
        inversion E; subst. apply Hc. rewrite Hg. apply orb_true_r.
    + apply IH in H. exact H.
Qed.

(** The pattern of the contextual identity has no parentheses: [m[1]] is
    undefined on each of its matches. *)
Lemma cookieStoreIdMatcher_no_capture (classes : jsstring) (m : MatchResult) :
  jsmatch classes cookieStoreIdMatcher = Some m -> matchGroup m 1 = None.
Proof.
  intros H. apply (search_captures _ _ _ _ _ 1%nat) in H as [H _].
  apply H. reflexivity.
Qed.

(** A match of an attribute carries its value. *)
Lemma attributeMatcher_capture (name s : jsstring) (m : MatchResult) :
  jsmatch s (attributeMatcher name) = Some m ->
  exists value, matchGroup m 1 = Some value.
Proof.
  intros H. apply (search_captures _ _ _ _ _ 1%nat) in H as [_ H].
  assert (Hs : setsGroup 1 (attributeMatcher name) = true).
  { unfold attributeMatcher. simpl. rewrite !orb_true_r. reflexivity. }
  specialize (H Hs). unfold isSet in H. simpl.
  destruct (capture 1 (m_captures m)) as [v|]; [eauto | discriminate].
Qed.

(* ================================================================== *)
(** * The signature of a cached tab bar *)
(* ================================================================== *)

Lemma rmap_Forall2 {A B} (f : A -> result B) (xs : list A) (ys : list B) :
  rmap f xs = Ok ys -> Forall2 (fun x y => f x = Ok y) xs ys.
Proof.
  revert ys. induction xs as [|x xs IH]; intros ys H; simpl in H.
  - inversion H. constructor.
  - destruct (f x) as [y|e] eqn:Ex; simpl in H; [|discriminate].
    destruct (rmap f xs) as [ys'|e] eqn:Exs; simpl in H; [|discriminate].
    inversion H; subst. constructor; [exact Ex | apply IH; reflexivity].
Qed.

Lemma rmap_total {A B} (f : A -> result B) (xs : list A) :
  Forall (fun x => exists y, f x = Ok y) xs -> exists ys, rmap f xs = Ok ys.
Proof.
  induction 1 as [|x xs [y Hy] _ [ys Hys]]; simpl.
  - eauto.
  - rewrite Hy. simpl. rewrite Hys. simpl. eauto.
Qed.

Section CacheProperties.
Variables kAPI_TAB_ID kPARENT : jsstring.

Lemma parseCachedTab_cookieStoreId (matched : jsstring) (tab : CachedTab) :
  parseCachedTab kAPI_TAB_ID kPARENT matched = Ok tab ->
  ct_cookieStoreId tab = defaultCookieStoreId.
Proof.
  unfold parseCachedTab.
  destruct (jsmatch matched (idMatcher kAPI_TAB_ID)); [|discriminate].
  destruct (jsmatch matched classesMatcher) as [cm|]; [|discriminate].
  destruct (matchGroup cm 1) as [classes|]; [|discriminate].
  intros H. inversion H; subst; clear H. cbn [ct_cookieStoreId].
  destruct (jsmatch classes cookieStoreIdMatcher) as [im|] eqn:E;
    [|reflexivity].
  pose proof (cookieStoreIdMatcher_no_capture _ _ E) as Hn.
  simpl in Hn. simpl. rewrite Hn. reflexivity.
Qed.

(** A fragment that has both attributes is parsed. *)
Lemma parseCachedTab_total (matched : jsstring) :
  test (idMatcher kAPI_TAB_ID) matched = true ->
  test classesMatcher matched = true ->
  exists tab, parseCachedTab kAPI_TAB_ID kPARENT matched = Ok tab.
Proof.
  unfold test, parseCachedTab. intros Hid Hclass.
  destruct (jsmatch matched (idMatcher kAPI_TAB_ID)); [|discriminate].
  destruct (jsmatch matched classesMatcher) as [cm|] eqn:E; [|discriminate].
  destruct (attributeMatcher_capture _ _ _ E) as [classes ->].
  eauto.
Qed.

(** A fragment that lacks one of them raises a TypeError. *)
Lemma parseCachedTab_throws (matched : jsstring) :
  test (idMatcher kAPI_TAB_ID) matched = false
  \/ test classesMatcher matched = false ->
  parseCachedTab kAPI_TAB_ID kPARENT matched = Throw TypeError.
Proof.
  unfold test, parseCachedTab. intros [H | H].
  - destruct (jsmatch matched (idMatcher kAPI_TAB_ID));
      [discriminate | reflexivity].
  - destruct (jsmatch matched (idMatcher kAPI_TAB_ID)); [|reflexivity].
    destruct (jsmatch matched classesMatcher);
      [discriminate | reflexivity].
Qed.

Lemma parseCachedTab_parentId (matched : jsstring) (tab : CachedTab) :
  parseCachedTab kAPI_TAB_ID kPARENT matched = Ok tab ->
  ct_parentId tab
  = match jsmatch matched (parentMatcher kPARENT) with
    | Some m => Some (parseIntOpt (matchGroup m 1))
    | None => None
    end.
Proof.
  unfold parseCachedTab.
  destruct (jsmatch matched (idMatcher kAPI_TAB_ID)); [|discriminate].
  destruct (jsmatch matched classesMatcher) as [cm|]; [|discriminate].
  destruct (matchGroup cm 1) as [classes|]; [|discriminate].
  intros H. inversion H; subst; clear H. reflexivity.
Qed.

(** What [signatureFromTabsCache] returns, when it returns: one line for
    each fragment, in their order. *)
Lemma signatureFromTabsCache_Ok (cachedTabs sig : jsstring) :
  signatureFromTabsCache kAPI_TAB_ID kPARENT cachedTabs = Ok sig ->
  exists tabs,
    cachedTabsOf kAPI_TAB_ID kPARENT cachedTabs = Ok tabs
    /\ Forall2 (fun fragment tab =>
                  parseCachedTab kAPI_TAB_ID kPARENT fragment = Ok tab)
         (tabFragments cachedTabs) tabs
    /\ sig = join [LF] (map (cachedSignatureLine (map ct_id tabs)) tabs).
Proof.
  unfold signatureFromTabsCache.
  destruct (cachedTabsOf kAPI_TAB_ID kPARENT cachedTabs) as [tabs|e] eqn:E;
    simpl; [|discriminate].
  intros H. inversion H; subst. exists tabs. repeat split.
  apply rmap_Forall2. exact E.
Qed.
End CacheProperties.

Section CacheTheorems.
Variables kAPI_TAB_ID kPARENT : jsstring.

Lemma cachedSignatureLine_noLF (tabIds : list jsnum) (tab : CachedTab) :
  ct_cookieStoreId tab = defaultCookieStoreId ->
  hasNoLF (cachedSignatureLine tabIds tab) = true.
Proof.
  intros H. unfold cachedSignatureLine. apply signatureLine_noLF.
  rewrite H. reflexivity.
Qed.

(** The lines of the signature read from a cache all carry the default
    contextual identity. *)
Lemma signatureFromTabsCache_lines (cachedTabs sig : jsstring) :
  signatureFromTabsCache kAPI_TAB_ID kPARENT cachedTabs = Ok sig ->
  exists tabs : list CachedTab,
    sig = join [LF] (map (cachedSignatureLine (map ct_id tabs)) tabs)
    /\ length tabs = length (tabFragments cachedTabs)
    /\ Forall (fun tab => ct_cookieStoreId tab = defaultCookieStoreId) tabs.
Proof.
  intros H.
  destruct (signatureFromTabsCache_Ok _ _ _ _ H) as (tabs & _ & Hall & ->).
  exists tabs. split; [reflexivity|]. split.
  - symmetry. eapply Forall2_length. exact Hall.
  - clear H. induction Hall as [|f t fs ts Hf _ IH]; constructor.
    + eapply parseCachedTab_cookieStoreId. exact Hf.
    + exact IH.
Qed.

(** C10. For every markup blob, each line of the signature that
    [signatureFromTabsCache] returns has the default contextual identity
    as its cookie store id, whatever the class attribute of the item
    holds: there is one such line for each item. *)
Theorem signatureFromTabsCache_default_cookieStoreId
    (cachedTabs sig : jsstring) :
  signatureFromTabsCache kAPI_TAB_ID kPARENT cachedTabs = Ok sig ->
  exists lines : list jsstring,
    sig = join [LF] lines
    /\ length lines = length (tabFragments cachedTabs)
    /\ (lines <> [] -> splitOn LF sig = lines)
    /\ Forall (fun line => exists p inc pin,
                 line = signatureLine p defaultCookieStoreId inc pin)
         lines.
Proof.
  intros H.
  destruct (signatureFromTabsCache_lines _ _ H) as (tabs & -> & Hlen & Hcookie).
  exists (map (cachedSignatureLine (map ct_id tabs)) tabs).
  split; [reflexivity|]. split; [|split].
  - rewrite length_map. exact Hlen.
  - intros Hne. apply splitOn_join; [exact Hne|].
    apply Forall_map. eapply Forall_impl; [exact Hcookie|].
    intros t Ht. apply cachedSignatureLine_noLF. exact Ht.
  - apply Forall_map. eapply Forall_impl; [exact Hcookie|].
    intros t Ht. simpl. unfold cachedSignatureLine. rewrite Ht. eauto.
Qed.

Lemma parseCachedTab_result (matched : jsstring) :
  (exists tab, parseCachedTab kAPI_TAB_ID kPARENT matched = Ok tab)
  \/ parseCachedTab kAPI_TAB_ID kPARENT matched = Throw TypeError.
Proof.
  destruct (test (idMatcher kAPI_TAB_ID) matched) eqn:Hid.
  - destruct (test classesMatcher matched) eqn:Hc.
    + left. apply parseCachedTab_total; assumption.
    + right. apply parseCachedTab_throws. right. exact Hc.
  - right. apply parseCachedTab_throws. left. exact Hid.
Qed.

Lemma cachedTabsOf_throws (fragments : list jsstring) :
  Exists (fun fragment =>
            test (idMatcher kAPI_TAB_ID) fragment = false
            \/ test classesMatcher fragment = false) fragments ->
  rmap (parseCachedTab kAPI_TAB_ID kPARENT) fragments = Throw TypeError.
Proof.
  induction fragments as [|f fs IH]; intros H.
  - inversion H.
  - simpl. destruct (parseCachedTab_result f) as [[tab Hf] | Hf].
    + rewrite Hf. simpl.
      inversion H as [? ? Hbad | ? ? Hbad]; subst.
      * rewrite (parseCachedTab_throws _ _ _ Hbad) in Hf. discriminate.
      * rewrite (IH Hbad). reflexivity.
    + rewrite Hf. reflexivity.
Qed.

Lemma cachedParentIndex_falsy (tabIds : list jsnum) (tab : CachedTab) :
  ct_parentId tab = None \/ ct_parentId tab = Some NaN
  \/ ct_parentId tab = Some (Num 0) ->
  cachedParentIndex tabIds tab = -1.
Proof.
  unfold cachedParentIndex. intros [-> | [-> | ->]]; reflexivity.
Qed.

(** C6, amended. [signatureFromTabsCache] returns a signature for every
    markup blob in which the text of each fragment holds, anywhere in it,
    a match of the pattern of the tab id and a match of the pattern of the
    class, that is the name, the equals sign and a value between double
    quotes that is not empty. Every line then has the default contextual
    identity, and the line of a fragment in whose text the pattern of the
    parent has no match, or a match whose value does not read as a number,
    has the parent index -1. A blob with a fragment in whose text one of
    the first two patterns has no match raises a TypeError. The patterns
    are not tied to the opening tag of the item. *)
Theorem signatureFromTabsCache_soft_failure (cachedTabs : jsstring) :
  (Forall (fun fragment =>
             test (idMatcher kAPI_TAB_ID) fragment = true
             /\ test classesMatcher fragment = true)
     (tabFragments cachedTabs) ->
   exists tabs sig,
     signatureFromTabsCache kAPI_TAB_ID kPARENT cachedTabs = Ok sig
     /\ sig = join [LF] (map (cachedSignatureLine (map ct_id tabs)) tabs)
     /\ Forall2 (fun fragment tab =>
                   ct_cookieStoreId tab = defaultCookieStoreId
                   /\ (match jsmatch fragment (parentMatcher kPARENT) with
                       | Some m => parseIntOpt (matchGroup m 1) = NaN
                       | None => True
                       end ->
                       cachedParentIndex (map ct_id tabs) tab = -1))
          (tabFragments cachedTabs) tabs)
  /\ (Exists (fun fragment =>
                test (idMatcher kAPI_TAB_ID) fragment = false
                \/ test classesMatcher fragment = false)
        (tabFragments cachedTabs) ->
      signatureFromTabsCache kAPI_TAB_ID kPARENT cachedTabs
      = Throw TypeError).
Proof.
  split.
  - intros Hall.
    destruct (rmap_total (parseCachedTab kAPI_TAB_ID kPARENT)
                (tabFragments cachedTabs)) as [tabs Htabs].
    { eapply Forall_impl; [exact Hall|].
      intros f [Hid Hc]. apply parseCachedTab_total; assumption. }
    exists tabs, (join [LF] (map (cachedSignatureLine (map ct_id tabs)) tabs)).
    split; [|split; [reflexivity|]].
    + unfold signatureFromTabsCache, cachedTabsOf. rewrite Htabs.
      reflexivity.
    + apply rmap_Forall2 in Htabs.
      generalize (map ct_id tabs). intros ids.
      clear Hall.
      induction Htabs as [|f t fs ts Hf _ IH]; [constructor|].
      constructor; [|exact IH].
      split; [eapply parseCachedTab_cookieStoreId; exact Hf|].
      intros Hp. apply cachedParentIndex_falsy.
      rewrite (parseCachedTab_parentId _ _ _ _ Hf).
      destruct (jsmatch f (parentMatcher kPARENT)) as [m|].
      * right. left. rewrite Hp. reflexivity.
      * left. reflexivity.
  - intros Hbad. unfold signatureFromTabsCache, cachedTabsOf.
    rewrite (cachedTabsOf_throws _ Hbad). reflexivity.
Qed.

(** The signature of one tab of the default container is shorter than
    any line of a signature read from a cache. *)
Lemma signatureLine_default_length (p : Z) (inc pin : bool) :
  (46 <= length (signatureLine p defaultCookieStoreId inc pin))%nat.
Proof.
  unfold signatureLine. rewrite !length_app.
  assert (4 <= length (showBool inc))%nat by (destruct inc; simpl; lia).
  assert (4 <= length (showBool pin))%nat by (destruct pin; simpl; lia).
  change (length defaultCookieStoreId) with 35%nat. simpl. lia.
Qed.

Lemma join_length_first (sep l : jsstring) (ls : list jsstring) :
  (length l <= length (join sep (l :: ls)))%nat.
Proof.
  destruct ls; simpl; [lia|]. rewrite length_app. lia.
Qed.

(** C2. The signature read from a serialized tab bar is meant to be the
    signature of the tab records. For the one tab of the default
    container, no markup at all gives the signature of the record:
    every line read from markup has the constant contextual identity,
    which the cookie store id of a tab record is not. *)
Theorem signatureFromTabsCache_never_round_trips (cachedTabs : jsstring) :
  signatureFromTabsCache kAPI_TAB_ID kPARENT cachedTabs
  <> Ok (getWindowSignature [plainTab 1 None]).
Proof.
  intros H.
  destruct (signatureFromTabsCache_lines _ _ H) as (tabs & Hsig & _ & Hall).
  assert (Hlen : length (getWindowSignature [plainTab 1 None]) = 30%nat)
    by reflexivity.
  destruct tabs as [|t ts].
  - rewrite Hsig in Hlen. discriminate.
  - inversion Hall as [|? ? Ht _]; subst.
    simpl map in Hsig.
    pose proof (join_length_first [LF]
                  (cachedSignatureLine (ct_id t :: map ct_id ts) t)
                  (map (cachedSignatureLine (ct_id t :: map ct_id ts)) ts))
      as Hj.
    unfold cachedSignatureLine at 1 in Hj. rewrite Ht in Hj.
    pose proof (signatureLine_default_length
                  (cachedParentIndex (ct_id t :: map ct_id ts) t)
                  (ct_incognito t) (ct_pinned t)) as Hp.
    rewrite <- Hsig in Hj. lia.
Qed.
End CacheTheorems.

Lemma signatureFromTabsCache_default_cookieStoreId_witness :
  exists lines : list jsstring,
    lit "-1,contextual-identity-firefox-default,false,true" = join [LF] lines
    /\ length lines
       = length (tabFragments (serialize dataTabId dataParentId [containerTab]))
    /\ (lines <> [] ->
        splitOn LF (lit "-1,contextual-identity-firefox-default,false,true")
        = lines)
    /\ Forall (fun line => exists p inc pin,
                 line = signatureLine p defaultCookieStoreId inc pin) lines.
Proof.
  apply (signatureFromTabsCache_default_cookieStoreId dataTabId dataParentId
           (serialize dataTabId dataParentId [containerTab])).
  vm_compute. reflexivity.
Defined.

(** C6, as stated, fails: an item whose class attribute is empty. *)
Lemma signatureFromTabsCache_raises :
  signatureFromTabsCache dataTabId dataParentId emptyClassBlob
  = Throw TypeError.
Proof. vm_compute. reflexivity. Qed.

(** The patterns are searched in the whole text of a fragment: the class
    of an element inside an item that has none is taken for its own. *)
Example signatureFromTabsCache_child_class :
  signatureFromTabsCache dataTabId dataParentId childClassBlob
  = Ok (lit "-1,contextual-identity-firefox-default,false,false").
Proof. vm_compute. reflexivity. Qed.

Lemma signatureFromTabsCache_soft_failure_witness :
  signatureFromTabsCache dataTabId dataParentId oddParentBlob
  = Ok (lit "-1,contextual-identity-firefox-default,false,false")
  /\ signatureFromTabsCache dataTabId dataParentId emptyClassBlob
     = Throw TypeError.
Proof.
  split.
  - destruct (signatureFromTabsCache_soft_failure dataTabId dataParentId
                oddParentBlob) as [H _].
    destruct H as (tabs & sig & Hsig & _ & _).
    + vm_compute. repeat constructor.
    + rewrite Hsig. vm_compute in Hsig. injection Hsig as <-.
      vm_compute. reflexivity.
  - destruct (signatureFromTabsCache_soft_failure dataTabId dataParentId
                emptyClassBlob) as [_ H].
    apply H. vm_compute. apply Exists_cons_hd. right. reflexivity.
Defined.

(** The tab records of the failing round trip, serialized. *)
Example signatureFromTabsCache_serialized :
  signatureFromTabsCache dataTabId dataParentId
    (serialize dataTabId dataParentId [plainTab 1 None])
  = Ok (lit "-1,contextual-identity-firefox-default,false,false")
  /\ getWindowSignature [plainTab 1 None]
     = lit "-1,firefox-default,false,false".
Proof. split; vm_compute; reflexivity. Qed.

Example signatureFromTabsCache_serialized_family :
  signatureFromTabsCache dataTabId dataParentId
    (serialize dataTabId dataParentId familyOfThree)
  = Ok (lit "-1,contextual-identity-firefox-default,false,false" ++ [LF]
        ++ lit "0,contextual-identity-firefox-default,false,false" ++ [LF]
        ++ lit "0,contextual-identity-firefox-default,false,false").
Proof. vm_compute. reflexivity. Qed.



(** The tab with id 0 is in the list, and is yet not the parent. *)
Example getWindowSignature_zero_opener :
  getWindowSignature zeroFamily
  = lit "-1,firefox-default,false,false" ++ [LF]
    ++ lit "-1,firefox-default,false,false"
  /\ arrayIndexOf Z.eqb (map tab_id zeroFamily) 0 = 0.
Proof. split; vm_compute; reflexivity. Qed.

Example parseInt_parent_references :
  parseInt (lit "0") = Num 0 /\ parseInt (lit "none") = NaN
  /\ parseInt (lit "12") = Num 12 /\ parseInt (lit " 0x1F") = Num 31
  /\ parseInt (lit "-0") = Num 0.
Proof. repeat split; vm_compute; reflexivity. Qed.

(* ================================================================== *)
(** * The restoration *)
(* ================================================================== *)

Lemma updateNode_lookup (f : NodeRec -> NodeRec) (n m : node) (d : DOM) :
  updateNode f n d !! m
  = if decide (n = m) then f <$> d !! m else d !! m.
Proof.
  unfold updateNode. destruct (d !! n) as [r|] eqn:E.
  - destruct (decide (n = m)) as [->|Hne].
    + rewrite lookup_insert_eq, E. reflexivity.
    + rewrite lookup_insert_ne by exact Hne. reflexivity.
  - destruct (decide (n = m)) as [->|Hne]; [rewrite E|]; reflexivity.
Qed.

Lemma without_not_In (n : node) (xs : list node) : ~ In n (without n xs).
Proof.
  unfold without. intros H. apply filter_In in H as [_ H].
  rewrite Nat.eqb_refl in H. discriminate.
Qed.

(** A detached node has no parent and is no child of its former parent. *)
Lemma detach_spec (child parent : node) (d : DOM) :
  parentOf d child = Some parent ->
  parentOf (detach child d) child = None
  /\ ~ In child (childrenOf (detach child d) parent).
Proof.
  intros Hp. unfold detach. rewrite Hp.
  unfold parentOf in Hp. destruct (d !! child) as [r|] eqn:Er; [|discriminate].
  split.
  - unfold parentOf. rewrite updateNode_lookup.
    destruct (decide (child = child)) as [_|?]; [|congruence].
    rewrite updateNode_lookup.
    destruct (decide (parent = child)); rewrite Er; reflexivity.
  - unfold childrenOf. rewrite updateNode_lookup.
    destruct (decide (child = parent)) as [->|Hne].
    + rewrite updateNode_lookup.
      destruct (decide (parent = parent)) as [_|?]; [|congruence].
      rewrite Er. simpl. apply without_not_In.
    + rewrite updateNode_lookup.
      destruct (decide (parent = parent)) as [_|?]; [|congruence].
      destruct (d !! parent) as [rp|]; simpl; [apply without_not_In|].
      intros [].
Qed.

Lemma updateNode_present (f : NodeRec -> NodeRec) (n m : node) (d : DOM) :
  present d m -> present (updateNode f n d) m.
Proof.
  unfold present. rewrite updateNode_lookup.
  destruct (decide (n = m)); [|trivial].
  intros [r ->]. simpl. eauto.
Qed.

Lemma detach_present (child m : node) (d : DOM) :
  present d m -> present (detach child d) m.
Proof.
  intros H. unfold detach. destruct (parentOf d child); [|exact H].
  apply updateNode_present, updateNode_present, H.
Qed.

Lemma fold_detach_present (ns : list node) (m : node) (d : DOM) :
  present d m -> present (fold_left (fun d n => detach n d) ns d) m.
Proof.
  revert d. induction ns as [|n ns IH]; intros d H; simpl; [exact H|].
  apply IH, detach_present, H.
Qed.

Lemma fold_setParent (p : node) (ns : list node) (c : node) (d : DOM) :
  present d c ->
  In c ns \/ parentOf d c = Some p ->
  parentOf (fold_left (fun d n => updateNode (setParent (Some p)) n d) ns d) c
  = Some p.
Proof.
  revert d. induction ns as [|n ns IH]; intros d Hc Hin; simpl.
  - destruct Hin as [[]|H]. exact H.
  - apply IH; [apply updateNode_present, Hc|].
    destruct (decide (n = c)) as [->|Hne].
    + right. unfold parentOf. rewrite updateNode_lookup.
      destruct (decide (c = c)); [|congruence].
      destruct Hc as [r ->]. reflexivity.
    + destruct Hin as [[H|H]|H]; [congruence | left; exact H |].
      right. unfold parentOf. rewrite updateNode_lookup.
      destruct (decide (n = c)); [congruence|]. exact H.
Qed.

(** The nodes inserted among the children of a node have it as parent. *)
Lemma insertAt_parent (parent : node) (i : nat) (ns : list node) (c : node)
    (d : DOM) :
  present d c -> In c ns ->
  parentOf (insertAt parent i ns d) c = Some parent.
Proof.
  intros Hc Hin. unfold insertAt. apply fold_setParent.
  - apply updateNode_present, fold_detach_present, Hc.
  - left. exact Hin.
Qed.

Lemma tree_induction (P : tree -> Prop) :
  (forall element attrs kids, Forall P kids -> P (TNode element attrs kids)) ->
  forall t, P t.
Proof.
  intros H. fix IH 1. intros [element attrs kids]. apply H.
  induction kids as [|k kids IHk]; constructor; [apply IH | exact IHk].
Qed.

Lemma insert_present (n m : node) (r : NodeRec) (d : DOM) :
  present d m -> present (<[n := r]> d) m.
Proof.
  unfold present. intros H. destruct (decide (n = m)) as [->|Hne].
  - rewrite lookup_insert_eq. eauto.
  - rewrite lookup_insert_ne by exact Hne. exact H.
Qed.

Lemma allocTree_unfold (element : bool) (attrs : list (jsstring * jsstring))
    (kids : list tree) (parent : node) (d : DOM) (next : node) :
  allocTree (TNode element attrs kids) parent (d, next)
  = let '(ks, (d2, next2)) :=
      allocForest kids next
        (<[next := mkNode (Some parent) [] element attrs None None]> d,
         S next) in
    (next, (updateNode (setChildren ks) next d2, next2)).
Proof.
  simpl.
  match goal with
  | |- context [?F kids ?st] =>
      assert (H : forall ts st0, F ts st0 = allocForest ts next st0)
  end.
  { induction ts as [|t ts IH]; intros st0; simpl; [reflexivity|].
    destruct (allocTree t next st0) as [k st1]. rewrite IH. reflexivity. }
  rewrite H. reflexivity.
Qed.

Lemma allocForest_present_of (ts : list tree) :
  Forall (fun t => forall (parent : node) (st : DOM * node),
            allocKeeps (fst st) (fst (snd (allocTree t parent st)))
            /\ present (fst (snd (allocTree t parent st)))
                 (fst (allocTree t parent st))) ts ->
  forall (parent : node) (st : DOM * node),
    allocKeeps (fst st) (fst (snd (allocForest ts parent st)))
    /\ Forall (present (fst (snd (allocForest ts parent st))))
         (fst (allocForest ts parent st)).
Proof.
  induction 1 as [|t ts Ht _ IH]; intros parent st; simpl.
  - split; [intros m Hm; exact Hm | constructor].
  - destruct (Ht parent st) as [Hkeep Hroot].
    destruct (allocTree t parent st) as [k st1]. simpl in *.
    destruct (IH parent st1) as [Hkeep' Hall].
    destruct (allocForest ts parent st1) as [ks st2]. simpl in *.
    split.
    + intros m Hm. apply Hkeep', Hkeep, Hm.
    + constructor; [apply Hkeep', Hroot | exact Hall].
Qed.

(** Allocation keeps the nodes there are, and the node it returns is
    there. *)
Lemma allocTree_present (t : tree) :
  forall (parent : node) (st : DOM * node),
    allocKeeps (fst st) (fst (snd (allocTree t parent st)))
    /\ present (fst (snd (allocTree t parent st)))
         (fst (allocTree t parent st)).
Proof.
  induction t as [element attrs kids IH] using tree_induction.
  intros parent [d next]. rewrite allocTree_unfold.
  destruct (allocForest_present_of kids IH next
              (<[next := mkNode (Some parent) [] element attrs None None]> d,
               S next)) as [Hkeep _].
  destruct (allocForest kids next _) as [ks [d2 next2]]. simpl in *.
  split.
  - intros m Hm. apply updateNode_present, Hkeep, insert_present, Hm.
  - apply updateNode_present, Hkeep. unfold present.
    rewrite lookup_insert_eq. eauto.
Qed.

Lemma allocForest_present (ts : list tree) (parent : node)
    (st : DOM * node) :
  allocKeeps (fst st) (fst (snd (allocForest ts parent st)))
  /\ Forall (present (fst (snd (allocForest ts parent st))))
       (fst (allocForest ts parent st)).
Proof.
  apply allocForest_present_of. apply Forall_forall.
  intros t _. apply allocTree_present.
Qed.

Lemma bind_Ok_inv {A B} (m : M A) (f : A -> M B) (w w'' : World) (b : B) :
  bind m f w = (Ok b, w'') ->
  exists a w', m w = (Ok a, w') /\ f a w' = (Ok b, w'').
Proof.
  unfold bind. destruct (m w) as [[a|e] w'] eqn:E; [eauto | discriminate].
Qed.

Lemma setElementAttribute_parentOf (el : node) (name value : jsstring)
    (w w' : World) (x : node) :
  setElementAttribute el name value w = (Ok tt, w') ->
  parentOf (w_dom w') x = parentOf (w_dom w) x.
Proof.
  unfold setElementAttribute.
  destruct (w_dom w !! el) as [r|] eqn:E; [|discriminate].
  destruct (isElement r); [|discriminate].
  intros H. inversion H; subst; clear H. simpl. unfold parentOf.
  destruct (decide (el = x)) as [->|Hne].
  - rewrite lookup_insert_eq, E. reflexivity.
  - rewrite lookup_insert_ne by exact Hne. reflexivity.
Qed.

Lemma updateNode_parentOf (f : NodeRec -> NodeRec) (n c : node) (d : DOM) :
  (forall r, parentNode (f r) = parentNode r) \/ n <> c ->
  parentOf (updateNode f n d) c = parentOf d c.
Proof.
  intros H. unfold parentOf. rewrite updateNode_lookup.
  destruct (decide (n = c)) as [->|Hne]; [|reflexivity].
  destruct H as [H|H]; [|congruence].
  destruct (d !! c) as [r|]; simpl; [apply H | reflexivity].
Qed.

Lemma detach_parentOf_other (n c : node) (d : DOM) :
  n <> c -> parentOf (detach n d) c = parentOf d c.
Proof.
  intros Hne. unfold detach. destruct (parentOf d n) as [p|]; [|reflexivity].
  rewrite updateNode_parentOf by (right; exact Hne).
  apply updateNode_parentOf. left. reflexivity.
Qed.

Lemma fold_detach_parentOf (ns : list node) (c : node) (d : DOM) :
  ~ In c ns ->
  parentOf (fold_left (fun d n => detach n d) ns d) c = parentOf d c.
Proof.
  revert d. induction ns as [|n ns IH]; intros d Hc; simpl; [reflexivity|].
  rewrite IH by (intros H; apply Hc; right; exact H).
  apply detach_parentOf_other. intros ->. apply Hc. left. reflexivity.
Qed.

Lemma fold_setParent_other (p : node) (ns : list node) (c : node) (d : DOM) :
  ~ In c ns ->
  parentOf (fold_left (fun d n => updateNode (setParent (Some p)) n d) ns d) c
  = parentOf d c.
Proof.
  revert d. induction ns as [|n ns IH]; intros d Hc; simpl; [reflexivity|].
  rewrite IH by (intros H; apply Hc; right; exact H).
  apply updateNode_parentOf. right. intros ->. apply Hc. left. reflexivity.
Qed.

(** Insertion leaves the parent of the other nodes as it is. *)
Lemma insertAt_parentOf_other (parent : node) (i : nat) (ns : list node)
    (c : node) (d : DOM) :
  ~ In c ns -> parentOf (insertAt parent i ns d) c = parentOf d c.
Proof.
  intros Hc. unfold insertAt.
  rewrite fold_setParent_other by exact Hc.
  rewrite updateNode_parentOf by (left; reflexivity).
  apply fold_detach_parentOf. exact Hc.
Qed.

Lemma pathBefore_app (p a b : list nat) :
  pathBefore (p ++ a) (p ++ b) = pathBefore a b.
Proof.
  induction p as [|x p IH]; simpl; [reflexivity|].
  rewrite Nat.ltb_irrefl. exact IH.
Qed.

(** A range that starts in a node does not contain it. *)
Lemma containedIn_start (d : DOM) (r : Range) :
  containedIn d r (fst (rangeStart r)) = false.
Proof.
  unfold containedIn, boundaryBefore, boundaryPath.
  destruct (rangeStart r) as [n i]. simpl.
  rewrite pathBefore_app. simpl.
  destruct (i <? 0)%nat eqn:E; [apply Nat.ltb_lt in E; lia|].
  destruct (0 <? i)%nat; rewrite andb_false_r; reflexivity.
Qed.

Lemma deleteContents_parentOf_start (r : Range) (d : DOM) :
  parentOf (snd (deleteContents r d)) (fst (rangeStart r))
  = parentOf d (fst (rangeStart r)).
Proof.
  unfold deleteContents.
  destruct (boundaryEqb (rangeStart r) (rangeEnd r)); [reflexivity|].
  simpl. apply fold_detach_parentOf.
  intros H. apply filter_In in H as [_ H].
  rewrite containedIn_start in H. discriminate.
Qed.

Lemma setStartBefore_start (r r' : Range) (n : node) (d : DOM) :
  setStartBefore r n d = Ok r' ->
  parentOf d n = Some (fst (rangeStart r')).
Proof.
  unfold setStartBefore. destruct (parentOf d n) as [p|]; [|discriminate].
  destruct (indexIn n (childrenOf d p)) as [i|]; [|discriminate].
  destruct (_ || _); intros H; inversion H; reflexivity.
Qed.

Lemma setEndAfter_start (r r' : Range) (n : node) (d : DOM) :
  setEndAfter r n d = Ok r' ->
  fst (rangeStart r') = fst (rangeStart r)
  \/ parentOf d n = Some (fst (rangeStart r')).
Proof.
  unfold setEndAfter. destruct (parentOf d n) as [p|]; [|discriminate].
  destruct (indexIn n (childrenOf d p)) as [i|]; [|discriminate].
  destruct (_ || _); intros H; inversion H; simpl; eauto.
Qed.

Lemma allocForest_fresh_of (ts : list tree) :
  Forall (fun t => forall (parent : node) (st : DOM * node),
            allocFrom (snd st) (fst st) (fst (snd (allocTree t parent st)))
            /\ (snd st <= fst (allocTree t parent st))%nat
            /\ (snd st <= snd (snd (allocTree t parent st)))%nat) ts ->
  forall (parent : node) (st : DOM * node),
    allocFrom (snd st) (fst st) (fst (snd (allocForest ts parent st)))
    /\ Forall (fun k => (snd st <= k)%nat) (fst (allocForest ts parent st))
    /\ (snd st <= snd (snd (allocForest ts parent st)))%nat.
Proof.
  induction 1 as [|t ts Ht _ IH]; intros parent st; simpl.
  - split; [intros m _; reflexivity|]. split; [constructor | lia].
  - destruct (Ht parent st) as (Hkeep & Hroot & Hnext).
    destruct (allocTree t parent st) as [k st1]. simpl in *.
    destruct (IH parent st1) as (Hkeep' & Hall & Hnext').
    destruct (allocForest ts parent st1) as [ks st2].
    simpl in *. split; [|split].
    + intros m Hm. rewrite Hkeep' by lia. apply Hkeep, Hm.
    + constructor; [exact Hroot|].
      eapply Forall_impl; [exact Hall|]. simpl. intros; lia.
    + lia.
Qed.

Lemma updateNode_lookup_ne (f : NodeRec -> NodeRec) (n m : node) (d : DOM) :
  n <> m -> updateNode f n d !! m = d !! m.
Proof.
  intros H. rewrite updateNode_lookup.
  destruct (decide (n = m)); [congruence | reflexivity].
Qed.

Lemma allocTree_fresh (t : tree) :
  forall (parent : node) (st : DOM * node),
    allocFrom (snd st) (fst st) (fst (snd (allocTree t parent st)))
    /\ (snd st <= fst (allocTree t parent st))%nat
    /\ (snd st <= snd (snd (allocTree t parent st)))%nat.
Proof.
  induction t as [element attrs kids IH] using tree_induction.
  intros parent [d next]. rewrite allocTree_unfold.
  destruct (allocForest_fresh_of kids IH next
              (<[next := mkNode (Some parent) [] element attrs None None]> d,
               S next)) as (Hkeep & _ & Hnext).
  destruct (allocForest kids next _) as [ks [d2 next2]]. simpl in *.
  split; [|split; lia].
  intros m Hm. rewrite updateNode_lookup_ne by lia.
  rewrite Hkeep by lia. apply lookup_insert_ne. lia.
Qed.

Lemma allocForest_fresh (ts : list tree) (parent : node) (st : DOM * node) :
  allocFrom (snd st) (fst st) (fst (snd (allocForest ts parent st)))
  /\ Forall (fun k => (snd st <= k)%nat) (fst (allocForest ts parent st))
  /\ (snd st <= snd (snd (allocForest ts parent st)))%nat.
Proof.
  apply allocForest_fresh_of. apply Forall_forall.
  intros t _. apply allocTree_fresh.
Qed.

Lemma tabElementOf_Ok (id : Z) (w w' : World) (el : node) :
  tabElementOf id w = (Ok el, w') ->
  w' = w /\ w_tabs w !! id = Some (Some el).
Proof.
  unfold tabElementOf.
  destruct (w_tabs w !! id) as [[e|]|]; intros H; inversion H; auto.
Qed.

Lemma deref_Ok {A} (o : option A) (w w' : World) (a : A) :
  deref o w = (Ok a, w') -> w' = w /\ o = Some a.
Proof. destruct o; intros H; inversion H; auto. Qed.

Lemma liftResult_Ok {A} (r : result A) (w w' : World) (a : A) :
  liftResult r w = (Ok a, w') -> w' = w /\ r = Ok a.
Proof. unfold liftResult. intros H. inversion H. auto. Qed.

Section RestorationTheorems.
Variable parseHTML : jsstring -> list tree.
Variables kAPI_TAB_ID kAPI_WINDOW_ID : jsstring.
Variable kPROGRESS_INTERVAL : Z.
Variable fl : Q -> Q.

Abbreviation restore :=
  (restoreTabsFromCacheInternal parseHTML kAPI_TAB_ID kAPI_WINDOW_ID
     kPROGRESS_INTERVAL fl).

Lemma tabElementOf_result (w : World) (id : Z) :
  (exists el, tabElementOf id w = (Ok el, w))
  \/ tabElementOf id w = (Throw TypeError, w).
Proof.
  unfold tabElementOf.
  destruct (w_tabs w !! id) as [[el|]|]; eauto.
Qed.

Lemma setEndAfter_parent (r r' : Range) (n : node) (d : DOM) :
  setEndAfter r n d = Ok r' -> is_Some (parentOf d n).
Proof.
  unfold setEndAfter. destruct (parentOf d n) as [p|]; [eauto | discriminate].
Qed.

Lemma setStartBefore_raises (r : Range) (n : node) (d : DOM) (e : exn) :
  setStartBefore r n d = Throw e -> e = DOMException.
Proof.
  unfold setStartBefore. destruct (parentOf d n) as [p|]; [|congruence].
  destruct (indexIn n (childrenOf d p)); [|congruence].
  destruct (_ || _); discriminate.
Qed.

Lemma setEndAfter_raises (r : Range) (n : node) (d : DOM) (e : exn) :
  setEndAfter r n d = Throw e -> e = DOMException.
Proof.
  unfold setEndAfter. destruct (parentOf d n) as [p|]; [|congruence].
  destruct (indexIn n (childrenOf d p)); [|congruence].
  destruct (_ || _); discriminate.
Qed.

Lemma tabElementOf_cases (w : World) (id : Z) :
  match w_tabs w !! id with
  | Some (Some el) => tabElementOf id w = (Ok el, w)
  | _ => tabElementOf id w = (Throw TypeError, w)
  end.
Proof.
  unfold tabElementOf. destruct (w_tabs w !! id) as [[el|]|]; reflexivity.
Qed.

(** C3, amended. In tail restoration, when a boundary tab (the tab at the
    offset, or the last tab) cannot be located, that is when the tab store
    does not know it, or it has no element, or its element has no parent
    node, the sidebar is left as it is. The result is empty only where
    the window has no container or its container has no more than
    [offset] children. For a window that is unknown the call raises a
    TypeError. Otherwise it raises a TypeError or a DOM exception: a
    TypeError when the tab at the offset is unknown or has no element; a
    DOM exception when that tab has an element without a parent node, and
    whenever both boundary tabs have an element; a TypeError when the
    element of the tab at the offset is a child of its parent node and
    the last tab is unknown or has no element. *)
Theorem restore_missing_boundary_tab (params : RestoreParams) (w : World) :
  0 < offsetOf params ->
  boundaryTabsLocated params w = false ->
  match w_windows w !! p_windowId params with
  | None => restore params w = (Throw TypeError, w)
  | Some None => restore params w = (Ok [], w)
  | Some (Some container) =>
      if Z.of_nat (length (childrenOf (w_dom w) container))
         <=? offsetOf params
      then restore params w = (Ok [], w)
      else exists e,
          restore params w = (Throw e, w)
          /\ (e = TypeError \/ e = DOMException)
          /\ (hasElement w (head (tabsOf params)) = false -> e = TypeError)
          /\ (hasElement w (head (tabsOf params)) = true ->
              isLocated w (head (tabsOf params)) = false ->
              e = DOMException)
          /\ (hasElement w (head (tabsOf params)) = true ->
              hasElement w (last (tabsOf params)) = true ->
              e = DOMException)
          /\ (isChild w (head (tabsOf params)) = true ->
              hasElement w (last (tabsOf params)) = false ->
              e = TypeError)
  end.
Proof.
  intros Hoff Hloc.
  apply Z.ltb_lt in Hoff.
  unfold restoreTabsFromCacheInternal, restoreTree, bind,
    getDom, liftResult.
  destruct (w_windows w !! p_windowId params) as [[container|]|]; simpl;
    rewrite ?Hoff; try reflexivity.
  destruct (Z.of_nat (length (childrenOf (w_dom w) container))
            <=? offsetOf params); [reflexivity|].
  unfold boundaryTabsLocated in Hloc.
  destruct (head (tabsOf params)) as [first|] eqn:Hhead; simpl.
  2:{ exists TypeError. split; [reflexivity|]. split; [left; reflexivity|].
      repeat split; intros; first [reflexivity | discriminate | congruence]. }
  pose proof (tabElementOf_cases w (tab_id first)) as Hc.
  destruct (w_tabs w !! tab_id first) as [[el|]|] eqn:Hel; rewrite Hc.
  2,3: exists TypeError; split; [reflexivity|]; split; [left; reflexivity|];
       repeat split; intros; first [reflexivity | discriminate | congruence].
  clear Hc.
  destruct (setStartBefore _ el (w_dom w)) as [range|e] eqn:Hr1.
  2:{ pose proof (setStartBefore_raises _ _ _ _ Hr1) as He. subst e.
      exists DOMException. split; [reflexivity|].
      split; [right; reflexivity|].
      split; [intros; discriminate|]. split; [reflexivity|].
      split; [reflexivity|]. intros Hchild _. exfalso.
      unfold setStartBefore in Hr1.
      destruct (parentOf (w_dom w) el); [|discriminate].
      destruct (indexIn el _); [|discriminate].
      destruct (_ || _); discriminate. }
  apply setStartBefore_start in Hr1.
  assert (Hfirst : isLocated w (Some first) = true).
  { unfold isLocated. rewrite Hel, Hr1. reflexivity. }
  rewrite Hfirst in Hloc. simpl in Hloc.
  destruct (last (tabsOf params)) as [lastTab|] eqn:Hlast; simpl.
  2:{ exists TypeError. split; [reflexivity|]. split; [left; reflexivity|].
      repeat split; intros; first [reflexivity | discriminate | congruence
             | rewrite Hr1 in *; discriminate ]. }
  pose proof (tabElementOf_cases w (tab_id lastTab)) as Hc.
  destruct (w_tabs w !! tab_id lastTab) as [[el'|]|] eqn:Hel'; rewrite Hc.
  2,3: exists TypeError; split; [reflexivity|]; split; [left; reflexivity|];
       repeat split; intros; first [reflexivity | discriminate | congruence
             | rewrite Hr1 in *; discriminate ].
  clear Hc.
  destruct (setEndAfter range el' (w_dom w)) as [range'|e] eqn:Hr2.
  2:{ apply setEndAfter_raises in Hr2. subst e.
      exists DOMException. split; [reflexivity|].
      split; [right; reflexivity|].
      repeat split; intros;
        first [reflexivity | discriminate | congruence
              | rewrite Hr1 in *; discriminate ]. }
  exfalso.
  apply setEndAfter_parent in Hr2 as [p Hp].
  unfold isLocated in Hloc. rewrite Hel', Hp in Hloc.
  discriminate.
Qed.

Lemma createContextualFragment_children (source : jsstring)
    (w w' : World) (f : node) :
  createContextualFragment parseHTML source w = (Ok f, w') ->
  Forall (present (w_dom w')) (childrenOf (w_dom w') f).
Proof.
  unfold createContextualFragment.
  set (d1 := <[w_next w := mkNode None [] false [] None None]> (w_dom w)).
  destruct (allocForest_present (parseHTML source) (w_next w)
              (d1, S (w_next w))) as [Hkeep Hall].
  destruct (allocForest (parseHTML source) (w_next w) (d1, S (w_next w)))
    as [ks [d2 next]]. simpl in *.
  intros H. inversion H; subst; clear H. simpl.
  assert (Hf : present d2 (w_next w)).
  { apply Hkeep. unfold d1, present. rewrite lookup_insert_eq. eauto. }
  unfold childrenOf. rewrite updateNode_lookup.
  destruct (decide (w_next w = w_next w)); [|congruence].
  destruct Hf as [r Hr]. rewrite Hr. simpl.
  eapply Forall_impl; [exact Hall|].
  intros k Hk. apply updateNode_present, Hk.
Qed.

(** In full restoration, the container the markup gives is in the
    document when the tree has been restored. *)
Lemma restoreTree_full_attached (params : RestoreParams) (w w1 : World)
    (container : node) (tabElements : list node) :
  offsetOf params <= 0 ->
  restoreTree parseHTML params w
  = (Ok (Some (container, tabElements)), w1) ->
  exists parent, parentOf (w_dom w1) container = Some parent.
Proof.
  intros Hoff H. unfold restoreTree in H.
  apply bind_Ok_inv in H as (old & w0 & _ & H).
  assert (Hb : (0 <? offsetOf params) = false) by (apply Z.ltb_ge; lia).
  rewrite Hb in H.
  apply bind_Ok_inv in H as (? & wA & _ & H).
  apply bind_Ok_inv in H as (range & wA' & _ & H).
  apply bind_Ok_inv in H as (f & wB & Hf & H).
  apply createContextualFragment_children in Hf.
  apply bind_Ok_inv in H as (dB & wB' & HdB & H).
  inversion HdB; subst; clear HdB.
  apply bind_Ok_inv in H as ([range' d'] & wC & Hins & H).
  apply bind_Ok_inv in H as (? & wD & Hput & H).
  inversion Hput; subst; clear Hput.
  apply bind_Ok_inv in H as (c & wE & Hc & H).
  destruct (head (childrenOf (w_dom wB') f)) as [c'|] eqn:Hhead;
    [|discriminate].
  inversion Hc; subst; clear Hc.
  apply bind_Ok_inv in H as (dF & wF & HdF & H).
  inversion HdF; subst; clear HdF.
  apply bind_Ok_inv in H as (isEl & wG & HisEl & H).
  apply bind_Ok_inv in H as (? & wH & Hif & H).
  apply bind_Ok_inv in H as (? & wI & Hset1 & H).
  apply bind_Ok_inv in H as (? & wJ & Hset2 & H).
  apply bind_Ok_inv in H as (? & wK & Hemit & H).
  apply bind_Ok_inv in H as (dL & wL & HdL & H).
  inversion HdL; subst; clear HdL.
  inversion H; subst; clear H.
  inversion Hemit; subst; clear Hemit. simpl.
  destruct x1, x2.
  rewrite (setElementAttribute_parentOf _ _ _ _ _ _ Hset2).
  rewrite (setElementAttribute_parentOf _ _ _ _ _ _ Hset1).
  assert (wH = wG) as ->.
  { destruct isEl; inversion Hif; reflexivity. }
  assert (wG = withDom dF wC) as ->.
  { unfold deref in HisEl.
    destruct (isElement <$> dF !! container); inversion HisEl; reflexivity. }
  simpl. unfold liftResult, insertNode in Hins.
  destruct (rangeStart range) as [parent offset].
  destruct (w_dom wB' !! parent); [|discriminate].
  inversion Hins; subst; clear Hins.
  exists parent. apply insertAt_parent.
  - rewrite Forall_forall in Hf. apply Hf.
    apply head_Some_elem_of. exact Hhead.
  - apply list_elem_of_In, head_Some_elem_of. exact Hhead.
Qed.
Lemma createContextualFragment_fresh (source : jsstring)
    (w w' : World) (f : node) :
  createContextualFragment parseHTML source w = (Ok f, w') ->
  allocFrom (w_next w) (w_dom w) (w_dom w')
  /\ Forall (fun k => (w_next w < k)%nat) (childrenOf (w_dom w') f).
Proof.
  unfold createContextualFragment.
  set (d1 := <[w_next w := mkNode None [] false [] None None]> (w_dom w)).
  destruct (allocForest_fresh (parseHTML source) (w_next w)
              (d1, S (w_next w))) as (Hkeep & Hall & _).
  destruct (allocForest_present (parseHTML source) (w_next w)
              (d1, S (w_next w))) as [Hpres _].
  destruct (allocForest (parseHTML source) (w_next w) (d1, S (w_next w)))
    as [ks [d2 next]]. simpl in *.
  intros H. inversion H; subst; clear H. simpl. split.
  - intros m Hm. rewrite updateNode_lookup_ne by lia.
    rewrite Hkeep by lia. unfold d1. apply lookup_insert_ne. lia.
  - assert (Hf : present d2 (w_next w)).
    { apply Hpres. unfold d1, present. rewrite lookup_insert_eq. eauto. }
    unfold childrenOf. rewrite updateNode_lookup.
    destruct (decide (w_next w = w_next w)); [|congruence].
    destruct Hf as [r Hr]. rewrite Hr. simpl.
    eapply Forall_impl; [exact Hall|]. simpl. intros; lia.
Qed.

(** In tail restoration of a sidebar that is ready for it, the container
    is still in the document when the tree has been restored. *)
Lemma restoreTree_tail_attached (params : RestoreParams) (w w1 : World)
    (container : node) (tabElements : list node) :
  0 < offsetOf params ->
  tailReady params w ->
  restoreTree parseHTML params w
  = (Ok (Some (container, tabElements)), w1) ->
  is_Some (parentOf (w_dom w1) container).
Proof.
  intros Hoff (c0 & Hwin & Hattached & Hold & Hkids) H.
  unfold restoreTree in H.
  apply bind_Ok_inv in H as (old & w0 & Hold0 & H).
  rewrite Hwin in Hold0. inversion Hold0; subst; clear Hold0.
  apply Z.ltb_lt in Hoff. rewrite Hoff in H.
  apply bind_Ok_inv in H as (d & w0' & Hd & H).
  inversion Hd; subst; clear Hd.
  destruct (Z.of_nat (length (childrenOf (w_dom w0') c0))
            <=? offsetOf params); [discriminate|].
  apply bind_Ok_inv in H as (first & wa & Hfirst & H).
  apply deref_Ok in Hfirst as [-> Hfirst].
  apply bind_Ok_inv in H as (firstElement & wb & Hfe & H).
  apply tabElementOf_Ok in Hfe as [-> Hfe].
  apply bind_Ok_inv in H as (range1 & wc & Hr1 & H).
  apply liftResult_Ok in Hr1 as [-> Hr1].
  apply bind_Ok_inv in H as (lastTab & wd & Hlast & H).
  apply deref_Ok in Hlast as [-> Hlast].
  apply bind_Ok_inv in H as (lastElement & we & Hle & H).
  apply tabElementOf_Ok in Hle as [-> Hle].
  apply bind_Ok_inv in H as (range2 & wf & Hr2 & H).
  apply liftResult_Ok in Hr2 as [-> Hr2].
  apply bind_Ok_inv in H as (? & wg & Hput & H).
  inversion Hput; subst; clear Hput.
  apply bind_Ok_inv in H as (? & wh & Hall & H).
  assert (wh = withDom (snd (deleteContents range2 (w_dom w0'))) w0') as ->.
  { destruct (forallb _ _) in Hall; inversion Hall; reflexivity. }
  clear Hall.
  apply bind_Ok_inv in H as (matched & wi & Hm & H).
  apply deref_Ok in Hm as [-> _].
  apply bind_Ok_inv in H as (dA & wj & HdA & H).
  inversion HdA; subst; clear HdA.
  apply bind_Ok_inv in H as (f & wB & Hf & H).
  apply createContextualFragment_fresh in Hf as [Hkeep Hfresh].
  apply bind_Ok_inv in H as (dB & wB' & HdB & H).
  inversion HdB; subst; clear HdB.
  apply bind_Ok_inv in H as ([range3 dC] & wC & Hins & H).
  apply liftResult_Ok in Hins as [-> Hins].
  apply bind_Ok_inv in H as (? & wD & Hput & H).
  inversion Hput; subst; clear Hput.
  apply bind_Ok_inv in H as (dD & wE & HdD & H).
  inversion HdD; subst; clear HdD.
  inversion H; subst; clear H. simpl in *.
  (* the start of the range is in the container *)
  assert (Hstart : fst (rangeStart range2) = container).
  { pose proof (setStartBefore_start _ _ _ _ Hr1) as H1.
    rewrite (Hkids first firstElement (or_introl Hfirst) Hfe) in H1.
    inversion H1 as [H1'].
    destruct (setEndAfter_start _ _ _ _ Hr2) as [H2 | H2].
    - congruence.
    - rewrite (Hkids lastTab lastElement (or_intror Hlast) Hle) in H2.
      congruence. }
  unfold insertNode in Hins. simpl in Hins.
  destruct (w_dom wB' !! container); [|discriminate].
  injection Hins as _ <-.
  rewrite insertAt_parentOf_other.
  - assert (Hdel : parentOf (snd (deleteContents range2 (w_dom w0')))
                     container
                   = parentOf (w_dom w0') container).
    { rewrite <- Hstart. apply deleteContents_parentOf_start. }
    assert (Hsame : parentOf (w_dom wB') container
                    = parentOf (snd (deleteContents range2 (w_dom w0')))
                        container).
    { unfold parentOf. rewrite Hkeep by exact Hold. reflexivity. }
    rewrite Hsame, Hdel. exact Hattached.
  - intros Hin. rewrite Forall_forall in Hfresh.
    apply list_elem_of_In, Hfresh in Hin. lia.
Qed.
(** C4, amended. In both modes, when the tree has been restored and the
    number of restored elements differs from the number of tab records of
    the range: where the container has a parent node, the container is
    removed from it and the result is empty, and no exception is raised;
    where it has none, the removal itself raises a TypeError. The
    container has a parent node in full restoration, where it is the one
    just inserted, and in tail restoration of a sidebar that is ready for
    it, where it is the container of the window. *)
Theorem restore_count_mismatch (params : RestoreParams) (w w1 : World)
    (container : node) (tabElements : list node) :
  restoreTree parseHTML params w = (Ok (Some (container, tabElements)), w1) ->
  length tabElements <> length (tabsOf params) ->
  (forall parent,
      parentOf (w_dom w1) container = Some parent ->
      restore params w = (Ok [], withDom (detach container (w_dom w1)) w1)
      /\ parentOf (detach container (w_dom w1)) container = None
      /\ ~ In container (childrenOf (detach container (w_dom w1)) parent))
  /\ (parentOf (w_dom w1) container = None ->
      restore params w = (Throw TypeError, w1))
  /\ (offsetOf params <= 0 \/ tailReady params w ->
      is_Some (parentOf (w_dom w1) container)).
Proof.
  intros Htree Hlen.
  assert (Hrun : restore params w
                 = finishRestoration kAPI_TAB_ID kAPI_WINDOW_ID
                     kPROGRESS_INTERVAL fl params container tabElements w1).
  { unfold restoreTabsFromCacheInternal. unfold bind at 1.
    rewrite Htree. reflexivity. }
  rewrite Hrun. unfold finishRestoration.
  apply Nat.eqb_neq in Hlen. rewrite Hlen. cbn [negb].
  split; [|split].
  - intros parent Hparent.
    split; [|apply detach_spec; exact Hparent].
    unfold bind, getDom, liftDom, removeChild. simpl.
    rewrite Hparent. simpl. rewrite Hparent, Nat.eqb_refl. reflexivity.
  - intros Hnone. unfold bind, getDom. simpl. rewrite Hnone. reflexivity.
  - intros Hmode.
    destruct (Z_lt_le_dec 0 (offsetOf params)) as [Hpos | Hnonpos].
    + destruct Hmode as [Hfull | Htail]; [lia|].
      eapply restoreTree_tail_attached; eassumption.
    + destruct (restoreTree_full_attached _ _ _ _ _ Hnonpos Htree)
        as [parent Hp].
      rewrite Hp. eauto.
Qed.
End RestorationTheorems.

(* ================================================================== *)
(** * The progress of the fixup pass *)
(* ================================================================== *)

Lemma progressReports_app (a b : list Event) :
  progressReports (a ++ b) = progressReports a ++ progressReports b.
Proof.
  induction a as [|e a IH]; simpl; [reflexivity|].
  destruct e; simpl; rewrite ?IH; reflexivity.
Qed.

Lemma reportsOnly_refl (P : Z -> Prop) (w : World) : reportsOnly P w w.
Proof. exists []. split; [reflexivity | constructor]. Qed.

Lemma reportsOnly_trans (P : Z -> Prop) (w1 w2 w3 : World) :
  reportsOnly P w1 w2 -> reportsOnly P w2 w3 -> reportsOnly P w1 w3.
Proof.
  intros (n1 & H1 & F1) (n2 & H2 & F2). exists (n2 ++ n1). split.
  - rewrite H2, H1, app_assoc. reflexivity.
  - rewrite progressReports_app. apply Forall_app. split; assumption.
Qed.

Lemma reporting_bind {A B} (P : Z -> Prop) (m : M A) (f : A -> M B)
    (V : A -> Prop) (U : B -> Prop) :
  reporting P m V ->
  (forall a, V a -> reporting P (f a) U) ->
  reporting P (bind m f) U.
Proof.
  intros Hm Hf w r w' H. unfold bind in H.
  destruct (m w) as [[a|e] w1] eqn:E.
  - destruct (Hm _ _ _ E) as [H1 Ha].
    destruct (Hf a (Ha a eq_refl) _ _ _ H) as [H2 Hb].
    split; [eapply reportsOnly_trans; eassumption | exact Hb].
  - inversion H; subst. destruct (Hm _ _ _ E) as [H1 _].
    split; [exact H1 | discriminate].
Qed.

Lemma reporting_weaken {A} (P : Z -> Prop) (m : M A) (V V' : A -> Prop) :
  reporting P m V -> (forall a, V a -> V' a) -> reporting P m V'.
Proof.
  intros Hm HV w r w' H. destruct (Hm _ _ _ H) as [H1 H2].
  split; [exact H1 | intros a Ha; apply HV, H2, Ha].
Qed.

(** A computation that leaves the trace as it is. *)
Lemma reporting_silent {A} (P : Z -> Prop) (m : M A) :
  (forall w, w_trace (snd (m w)) = w_trace w) ->
  reporting P m (fun _ => True).
Proof.
  intros Hm w r w' H. split; [|trivial].
  exists []. split; [|constructor].
  specialize (Hm w). rewrite H in Hm. exact Hm.
Qed.

Lemma reporting_ret {A} (P : Z -> Prop) (a : A) (V : A -> Prop) :
  V a -> reporting P (ret a) V.
Proof.
  intros Ha w r w' H. inversion H; subst.
  split; [apply reportsOnly_refl | intros b Hb; inversion Hb; subst; exact Ha].
Qed.

Lemma reporting_emit (P : Z -> Prop) (e : Event) :
  match e with ESetProgress v => P v | _ => True end ->
  reporting P (emit e) (fun _ => True).
Proof.
  intros He w r w' H. inversion H; subst. split; [|trivial].
  exists [e]. split; [reflexivity|].
  destruct e; simpl; constructor; try constructor. exact He.
Qed.

Lemma reporting_dateNow (P : Z -> Prop) : reporting P dateNow (fun _ => True).
Proof. apply reporting_silent. reflexivity. Qed.

Lemma reporting_deref {A} (P : Z -> Prop) (o : option A) :
  reporting P (deref o) (fun _ => True).
Proof. apply reporting_silent. intros w. destruct o; reflexivity. Qed.

Lemma reporting_setElementAttribute (P : Z -> Prop) (el : node)
    (name value : jsstring) :
  reporting P (setElementAttribute el name value) (fun _ => True).
Proof.
  apply reporting_silent. intros w. unfold setElementAttribute.
  destruct (w_dom w !! el) as [r|]; [destruct (isElement r)|]; reflexivity.
Qed.

Lemma reporting_setProperty (P : Z -> Prop) (f : NodeRec -> NodeRec)
    (el : node) :
  reporting P (setProperty f el) (fun _ => True).
Proof. apply reporting_silent. reflexivity. Qed.

Lemma reporting_getDom (P : Z -> Prop) : reporting P getDom (fun _ => True).
Proof. apply reporting_silent. reflexivity. Qed.

Lemma reporting_bindElement (P : Z -> Prop) (tab : Tab) (el : node) :
  reporting P (bindElement tab el) (fun _ => True).
Proof.
  unfold bindElement.
  eapply reporting_bind; [apply reporting_emit; exact I|]. intros _ _.
  apply reporting_silent. reflexivity.
Qed.

Lemma reporting_tstSetAttribute (P : Z -> Prop) (tab : Tab)
    (name value : jsstring) :
  reporting P (tstSetAttribute tab name value) (fun _ => True).
Proof.
  unfold tstSetAttribute.
  eapply reporting_bind; [apply reporting_emit; exact I|]. intros _ _.
  apply reporting_silent. intros w.
  destruct (w_tabs w !! tab_id tab) as [[el|]|]; try reflexivity.
  unfold setElementAttribute.
  destruct (w_dom w !! el) as [r|]; [destruct (isElement r)|]; reflexivity.
Qed.

Section Progress.
Variables kAPI_TAB_ID kAPI_WINDOW_ID : jsstring.
Variable kPROGRESS_INTERVAL : Z.
Variable fl : Q -> Q.

(** Rounding to a double is monotone, and exact on small integers. *)
Hypothesis fl_monotone : forall x y : Q, (x <= y)%Q -> (fl x <= fl y)%Q.
Hypothesis fl_integer :
  forall n : Z, Z.abs n <= 2 ^ 53 -> (fl (inject_Z n) == inject_Z n)%Q.

Lemma progressOf_range (count maxCount : Z) :
  0 < count <= maxCount ->
  inProgressRange (progressOf fl count maxCount).
Proof.
  intros [Hc Hm]. unfold inProgressRange, progressOf.
  set (q := (inject_Z count / inject_Z maxCount)%Q).
  assert (Hq : (0 <= q <= 1)%Q).
  { unfold q. split.
    - apply Qle_shift_div_l.
      + change 0%Q with (inject_Z 0). rewrite <- Zlt_Qlt. lia.
      + rewrite Qmult_0_l. change 0%Q with (inject_Z 0).
        rewrite <- Zle_Qle. lia.
    - apply Qle_shift_div_r.
      + change 0%Q with (inject_Z 0). rewrite <- Zlt_Qlt. lia.
      + rewrite Qmult_1_l. rewrite <- Zle_Qle. lia. }
  assert (H0 : (fl 0 == 0)%Q) by (apply (fl_integer 0); simpl; lia).
  assert (H1 : (fl 1 == 1)%Q) by (apply (fl_integer 1); simpl; lia).
  assert (H33 : (fl 33 == 33)%Q) by (apply (fl_integer 33); simpl; lia).
  assert (Hfq : (0 <= fl q <= 1)%Q).
  { split.
    - apply (Qle_trans _ (fl 0)); [|apply fl_monotone; apply Hq].
      apply Qle_lteq. right. symmetry. exact H0.
    - apply (Qle_trans _ (fl 1)); [apply fl_monotone; apply Hq|].
      apply Qle_lteq. right. exact H1. }
  assert (Hx : (0 <= fl q * 33 <= 33)%Q).
  { split.
    - apply Qmult_le_0_compat; [apply Hfq | discriminate].
    - apply (Qle_trans _ (1 * 33)%Q); [|discriminate].
      apply Qmult_le_compat_r; [apply Hfq | discriminate]. }
  assert (Hfx : (0 <= fl (fl q * 33) <= 33)%Q).
  { split.
    - apply (Qle_trans _ (fl 0)); [|apply fl_monotone; apply Hx].
      apply Qle_lteq. right. symmetry. exact H0.
    - apply (Qle_trans _ (fl 33)); [apply fl_monotone; apply Hx|].
      apply Qle_lteq. right. exact H33. }
  assert (Hlo : 0 <= Qfloor (fl (fl q * 33) + (1 # 2))).
  { change 0 with (Qfloor (0 + (1 # 2))). apply Qfloor_resp_le.
    apply Qplus_le_compat; [apply Hfx | apply Qle_refl]. }
  assert (Hhi : Qfloor (fl (fl q * 33) + (1 # 2)) <= 33).
  { change 33 with (Qfloor (33 + (1 # 2))) at 2. apply Qfloor_resp_le.
    apply Qplus_le_compat; [apply Hfx | apply Qle_refl]. }
  lia.
Qed.

Lemma reporting_reportProgress (maxCount count lastDraw : Z) :
  0 <= count < maxCount ->
  reporting inProgressRange
    (reportProgress kPROGRESS_INTERVAL fl maxCount (count, lastDraw))
    (fun st => count <= fst st <= count + 1).
Proof.
  intros Hc. unfold reportProgress.
  eapply reporting_bind; [apply reporting_dateNow|]. intros now _.
  destruct (kPROGRESS_INTERVAL <? now - lastDraw).
  - eapply reporting_bind.
    { apply reporting_emit. apply progressOf_range. lia. }
    intros _ _.
    eapply reporting_bind; [apply reporting_emit; exact I|]. intros _ _.
    eapply reporting_bind; [apply reporting_dateNow|]. intros now' _.
    apply reporting_ret. simpl. lia.
  - apply reporting_ret. simpl. lia.
Qed.

Lemma reporting_fixupStep1 (tabs : list Tab) (maxCount : Z)
    (tabElements : list node) :
  forall (index : nat) (count lastDraw : Z),
    0 <= count ->
    count + Z.of_nat (length tabElements) <= maxCount ->
    reporting inProgressRange
      (fixupStep1 kAPI_TAB_ID kAPI_WINDOW_ID kPROGRESS_INTERVAL fl tabs
         tabElements index maxCount (count, lastDraw))
      (fun st => 0 <= fst st <= count + Z.of_nat (length tabElements)).
Proof.
  induction tabElements as [|el rest IH]; intros index count lastDraw H0 Hm.
  - apply reporting_ret. simpl. lia.
  - simpl fixupStep1. simpl length in *.
    eapply reporting_bind; [apply reporting_deref|]. intros tab _.
    eapply reporting_bind; [apply reporting_setElementAttribute|].
    intros _ _.
    eapply reporting_bind; [apply reporting_bindElement|]. intros _ _.
    eapply reporting_bind; [apply reporting_setProperty|]. intros _ _.
    eapply reporting_bind; [apply reporting_emit; exact I|]. intros _ _.
    eapply reporting_bind; [apply reporting_tstSetAttribute|]. intros _ _.
    eapply reporting_bind; [apply reporting_setProperty|]. intros _ _.
    eapply reporting_bind; [apply reporting_tstSetAttribute|]. intros _ _.
    eapply reporting_bind; [apply reporting_tstSetAttribute|]. intros _ _.
    eapply reporting_bind.
    { apply reporting_reportProgress. lia. }
    intros [count' lastDraw'] Hc. simpl in Hc.
    eapply reporting_weaken; [apply IH; lia|].
    intros st Hst. simpl in Hst. lia.
Qed.

Lemma reporting_fixupStep2 (dirty : bool) (maxCount : Z)
    (tabElements : list node) :
  forall (count lastDraw : Z),
    0 <= count ->
    count + Z.of_nat (length tabElements) <= maxCount ->
    reporting inProgressRange
      (fixupStep2 kPROGRESS_INTERVAL fl dirty tabElements maxCount
         (count, lastDraw))
      (fun st => 0 <= fst st <= count + Z.of_nat (length tabElements)).
Proof.
  induction tabElements as [|el rest IH]; intros count lastDraw H0 Hm.
  - apply reporting_ret. simpl. lia.
  - simpl fixupStep2. simpl length in *.
    eapply reporting_bind; [apply reporting_getDom|]. intros d _.
    eapply reporting_bind; [apply reporting_deref|]. intros tab _.
    eapply reporting_bind; [apply reporting_emit; exact I|]. intros _ _.
    eapply reporting_bind; [apply reporting_emit; exact I|]. intros _ _.
    eapply reporting_bind.
    { destruct dirty; [apply reporting_emit; exact I|].
      apply reporting_ret. exact I. }
    intros _ _.
    eapply reporting_bind.
    { apply reporting_reportProgress. lia. }
    intros [count' lastDraw'] Hc. simpl in Hc.
    eapply reporting_weaken; [apply IH; lia|].
    intros st Hst. simpl in Hst. lia.
Qed.

Lemma reporting_fixup (tabElements : list node) (tabs : list Tab)
    (dirty : bool) :
  reporting inProgressRange
    (fixupTabsRestoredFromCache kAPI_TAB_ID kAPI_WINDOW_ID
       kPROGRESS_INTERVAL fl tabElements tabs dirty)
    (fun _ => True).
Proof.
  unfold fixupTabsRestoredFromCache.
  destruct (negb (length tabElements =? length tabs)%nat).
  - apply reporting_silent. reflexivity.
  - eapply reporting_bind; [apply reporting_dateNow|]. intros lastDraw _.
    eapply reporting_bind.
    { apply reporting_fixupStep1; lia. }
    intros [count1 lastDraw1] Hc. simpl in Hc.
    eapply reporting_bind.
    { apply reporting_fixupStep2; lia. }
    intros _ _. apply reporting_ret. exact I.
Qed.

(** C5. Every percentage the fixup pass reports lies between 33 and 66:
    the shared counter over twice the number of elements is mapped onto
    one third of the range, from 33 on, and the last third, from 66 to
    100, is never reached. *)
Theorem fixup_progress_at_most_66 (tabElements : list node)
    (tabs : list Tab) (dirty : bool) (w w' : World) (r : result unit)
    (v : Z) :
  fixupTabsRestoredFromCache kAPI_TAB_ID kAPI_WINDOW_ID kPROGRESS_INTERVAL
    fl tabElements tabs dirty w = (r, w') ->
  In v (progressReports (w_trace w')) ->
  In v (progressReports (w_trace w)) \/ 33 <= v <= 66.
Proof.
  intros H Hv.
  destruct (reporting_fixup tabElements tabs dirty _ _ _ H)
    as [(new & Htrace & Hnew) _].
  rewrite Htrace, progressReports_app in Hv.
  apply in_app_or in Hv as [Hv | Hv]; [right | left; exact Hv].
  rewrite Forall_forall in Hnew. apply Hnew.
  apply list_elem_of_In. exact Hv.
Qed.
End Progress.


(* ================================================================== *)
(** * The scenarios of the specification *)
(* ================================================================== *)

(** C3, as stated, fails: tail restoration with offset 1 of a window of
    three tabs, where the second tab has no element. The call raises a
    TypeError; the sidebar is left as it is. *)
Lemma restore_missing_boundary_tab_raises :
  restoreExample tailRestoration sidebarMissingTab
  = (Throw TypeError, sidebarMissingTab).
Proof. vm_compute. reflexivity. Qed.

Lemma restore_missing_boundary_tab_witness :
  exists e,
    restoreExample tailRestoration sidebarMissingTab
    = (Throw e, sidebarMissingTab)
    /\ (e = TypeError \/ e = DOMException)
    /\ (hasElement sidebarMissingTab (head (tabsOf tailRestoration)) = false ->
        e = TypeError)
    /\ (hasElement sidebarMissingTab (head (tabsOf tailRestoration)) = true ->
        isLocated sidebarMissingTab (head (tabsOf tailRestoration)) = false ->
        e = DOMException)
    /\ (hasElement sidebarMissingTab (head (tabsOf tailRestoration)) = true ->
        hasElement sidebarMissingTab (last (tabsOf tailRestoration)) = true ->
        e = DOMException)
    /\ (isChild sidebarMissingTab (head (tabsOf tailRestoration)) = true ->
        hasElement sidebarMissingTab (last (tabsOf tailRestoration)) = false ->
        e = TypeError).
Proof.
  apply (restore_missing_boundary_tab flatParser dataTabId dataWindowId 16
           flExact tailRestoration sidebarMissingTab).
  - reflexivity.
  - reflexivity.
Defined.

(** An element that has a parent node counts as located, be the parent
    itself in no document: the second tab has such an element, and the
    restoration goes on. The range, set in another tree, deletes nothing
    of the container; the two items of the cache are added to its three
    children and returned. *)
Example restore_stray_boundary_tab :
  boundaryTabsLocated tailRestoration sidebarStrayTab = true
  /\ fst (restoreExample tailRestoration sidebarStrayTab)
     = Ok [8; 10]%nat
  /\ childrenOf (w_dom (snd (restoreExample tailRestoration sidebarStrayTab)))
       1%nat
     = [2; 3; 4; 8; 10]%nat.
Proof. repeat split; vm_compute; reflexivity. Qed.

(** The element of the second tab has no parent node: a DOM exception.
    The store does not know the last tab: a TypeError. The sidebar is
    left as it is. *)
Example restore_boundary_tab_exceptions :
  restoreExample tailRestoration sidebarLooseTab
  = (Throw DOMException, sidebarLooseTab)
  /\ restoreExample tailRestoration sidebarNoLastTab
     = (Throw TypeError, sidebarNoLastTab).
Proof. split; vm_compute; reflexivity. Qed.

(** C4, as stated, fails: a mismatch can raise. Tail restoration with
    offset 1 of a cache that holds no item, for two tab records: the
    elements of the two tabs are deleted, then the count of the items of
    the cache is read off the result of a match that is null, a
    TypeError. And tail restoration of one item for two tab records,
    where the container of the window is in no document: its removal
    raises a TypeError. *)
Lemma restore_count_mismatch_raises :
  (fst (restoreExample tailRestorationOfNone sidebarOfThree) = Throw TypeError
   /\ childrenOf (w_dom (snd (restoreExample tailRestorationOfNone
                                sidebarOfThree))) 1%nat = [2%nat])
  /\ fst (restoreExample tailRestorationOfOne sidebarDetached)
     = Throw TypeError.
Proof. repeat split; vm_compute; reflexivity. Qed.

(** Full restoration of three items for two tab records: the container is
    inserted, then removed; the result is empty. Tail restoration of one
    item for the two tabs after the offset: the container of the window
    is removed; the result is empty. *)
Lemma restore_count_mismatch_witness :
  (fst (restoreExample fullRestorationOfTwo emptySidebar) = Ok []
   /\ childrenOf (w_dom (snd (restoreExample fullRestorationOfTwo
                                emptySidebar))) 0%nat = [])
  /\ (fst (restoreExample tailRestorationOfOne sidebarOfThree) = Ok []
      /\ childrenOf (w_dom (snd (restoreExample tailRestorationOfOne
                                   sidebarOfThree))) 0%nat = []).
Proof.
  split.
  - destruct (restore_count_mismatch flatParser dataTabId dataWindowId 16
                flExact fullRestorationOfTwo emptySidebar
                (snd (restoreTree flatParser fullRestorationOfTwo
                        emptySidebar))
                2%nat [3; 5; 7]%nat) as (Hremoved & _ & _).
    + vm_compute. reflexivity.
    + vm_compute. discriminate.
    + destruct (Hremoved 0%nat) as (H & _ & _); [vm_compute; reflexivity|].
      unfold restoreExample. rewrite H. split; vm_compute; reflexivity.
  - destruct (restore_count_mismatch flatParser dataTabId dataWindowId 16
                flExact tailRestorationOfOne sidebarOfThree
                (snd (restoreTree flatParser tailRestorationOfOne
                        sidebarOfThree))
                1%nat [6%nat]) as (Hremoved & _ & _).
    + vm_compute. reflexivity.
    + vm_compute. discriminate.
    + destruct (Hremoved 0%nat) as (H & _ & _); [vm_compute; reflexivity|].
      unfold restoreExample. rewrite H. split; vm_compute; reflexivity.
Defined.

(** A full restoration that succeeds: the three items become the elements
    of the three tabs, and the percentages reported end at 66. *)
Example restore_full :
  fst (restoreExample fullRestorationOfThree emptySidebar) = Ok [3; 5; 7]%nat
  /\ progressReports
       (w_trace (snd (restoreExample fullRestorationOfThree emptySidebar)))
     = [66; 61; 55; 50; 44; 39].
Proof. split; vm_compute; reflexivity. Qed.

(** One element, one tab record, and a clock that passes the interval at
    each reading: the pass reports 50 after step 1 and 66 after step 2. *)
Example fixup_progress_one_element :
  fst (fixupExample sidebarOneElement) = Ok tt
  /\ progressReports (w_trace (snd (fixupExample sidebarOneElement)))
     = [66; 50].
Proof. split; vm_compute; reflexivity. Qed.

Lemma fixup_progress_at_most_66_witness :
  In 66 (progressReports (w_trace sidebarOneElement)) \/ 33 <= 66 <= 66.
Proof.
  apply (fixup_progress_at_most_66 dataTabId dataWindowId 16 flExact
           (fun x y H => H) (fun n _ => Qeq_refl (inject_Z n))
           [0%nat] [plainTab 1 None] false sidebarOneElement
           (snd (fixupExample sidebarOneElement))
           (fst (fixupExample sidebarOneElement))).
  - vm_compute. reflexivity.
  - vm_compute. left. reflexivity.
Defined.

(* ================================================================== *)
(** * The patterns at work *)
(* ================================================================== *)

Example tabFragments_of_serialized :
  tabFragments (serialize dataTabId dataParentId [plainTab 1 None])
  = [serializeTab dataTabId dataParentId (plainTab 1 None)].
Proof. vm_compute. reflexivity. Qed.

Example pinned_is_a_word :
  test pinnedMatcher (lit "tab pinned") = true
  /\ test pinnedMatcher (lit "tab unpinned") = false.
Proof. split; vm_compute; reflexivity. Qed.

Example container_tags_removed :
  jsremoveAll threeItemsInContainer containerTagsMatcher
  = lit "<li>one</li><li>two</li><li>three</li>".
Proof. vm_compute. reflexivity. Qed.

Example trimTabsCache_one :
  trimTabsCache threeItemsInContainer (Some 1)
  = lit "<ul class=tabs><li>two</li><li>three</li></ul>"
  /\ trimSignature (getWindowSignature familyOfThree) (Some 1)
     = lit "0,firefox-default,false,false" ++ [LF]
       ++ lit "0,firefox-default,false,false".
Proof. split; vm_compute; reflexivity. Qed.

(* ================================================================== *)
(** * Further properties of the signature codec *)
(* ================================================================== *)

Lemma starts_with_refl (s : jsstring) : starts_with s s = true.
Proof. rewrite <- (app_nil_r s) at 2. apply starts_with_app. Qed.

(** X1. A non-empty signature matches itself. *)
Theorem matcheSignatures_self (signature : jsstring) :
  signature <> [] ->
  matcheSignatures (mkSignatures (Some signature) (Some signature))
  = VBool true.
Proof.
  intros HS. rewrite matcheSignatures_nonempty by exact HS.
  rewrite indexOf_at_start by apply starts_with_refl.
  f_equal. apply Z.eqb_eq. lia.
Qed.

Lemma matcheSignatures_self_witness :
  matcheSignatures (mkSignatures (Some signatureOfTwo) (Some signatureOfTwo))
  = VBool true.
Proof. apply matcheSignatures_self. discriminate. Defined.

(** Before the index [indexOf] returns, the pattern does not occur. *)
Lemma indexOf_minimal (s pat : jsstring) :
  0 <= indexOf s pat ->
  noOccurrenceBefore pat s (Z.to_nat (indexOf s pat)) = true.
Proof.
  induction s as [|c s IH]; simpl indexOf.
  - destruct (starts_with pat []); [reflexivity | lia].
  - destruct (starts_with pat (c :: s)) eqn:E; [reflexivity|].
    destruct (indexOf s pat <? 0) eqn:Er; [lia|].
    apply Z.ltb_ge in Er. intros _.
    replace (Z.to_nat (indexOf s pat + 1)) with (S (Z.to_nat (indexOf s pat)))
      by lia.
    unfold noOccurrenceBefore. simpl seq. simpl forallb.
    rewrite forallb_seq_shift. simpl. rewrite E. simpl.
    apply IH. exact Er.
Qed.

(** X2. [matcheSignatures] holds exactly when both signatures are non-empty
    and either the first occurrence of the cached one in the actual one is
    a trailing slice of it, or the cached one does not occur in the actual
    one and is one code unit longer. *)
Theorem matcheSignatures_true_iff (a c : jsstring) :
  truthy (matcheSignatures (mkSignatures (Some a) (Some c))) = true
  <-> a <> [] /\ c <> []
      /\ ((ends_with c a = true
           /\ noOccurrenceBefore c a (length a - length c) = true)
          \/ (indexOf a c = -1 /\ length c = S (length a))).
Proof.
  split.
  - intros H.
    assert (Hne : a <> [] /\ c <> []).
    { unfold matcheSignatures in H. cbn [actual cached] in H.
      destruct (jsstring_eqb a []) eqn:Ea; [simpl in H; rewrite Ea in H;
                                            discriminate|].
      destruct (jsstring_eqb c []) eqn:Ec; [simpl in H; rewrite Ec in H;
                                            discriminate|].
      split; intros ->; discriminate. }
    destruct Hne as [Ha Hc]. split; [exact Ha|]. split; [exact Hc|].
    destruct (Z_le_gt_dec 0 (indexOf a c)) as [Hfound | Hnot].
    + left. destruct (matcheSignatures_sound a c H Hfound) as (_ & _ & He).
      split; [exact He|].
      rewrite (matcheSignatures_nonempty a c Ha Hc) in H. cbn [truthy] in H.
      apply Z.eqb_eq in H. unfold jslength in H.
      replace (length a - length c)%nat with (Z.to_nat (indexOf a c)) by lia.
      apply indexOf_minimal. exact Hfound.
    + right. pose proof (indexOf_lower a c) as Hl.
      rewrite (matcheSignatures_nonempty a c Ha Hc) in H. cbn [truthy] in H.
      apply Z.eqb_eq in H. unfold jslength in H. split; lia.
  - intros (Ha & Hc & [[He Hno] | [Hi Hl]]);
      rewrite (matcheSignatures_nonempty a c Ha Hc); cbn [truthy];
      apply Z.eqb_eq; unfold jslength.
    + apply ends_with_inv in He as [pre ->].
      rewrite length_app in *.
      replace (length pre + length c - length c)%nat with (length pre)
        in Hno by lia.
      rewrite (indexOf_first c (pre ++ c) (length pre) Hno).
      * lia.
      * rewrite drop_app_length. apply starts_with_refl.
      * rewrite length_app. lia.
    + rewrite Hi. lia.
Qed.

Lemma join_drop_suffix (sep : jsstring) (n : nat) (l : list jsstring) :
  ends_with (join sep (drop n l)) (join sep l) = true.
Proof.
  revert l. induction n as [|n IH]; intros l.
  - rewrite drop_0. apply (ends_with_app []).
  - destruct l as [|x l]; [reflexivity|]. simpl drop.
    specialize (IH l). apply ends_with_inv in IH as [pre Hpre].
    destruct l as [|y l].
    + rewrite drop_nil. simpl. rewrite <- (app_nil_r x) at 1.
      apply ends_with_app.
    + change (join sep (x :: y :: l)) with (x ++ sep ++ join sep (y :: l)).
      rewrite Hpre, !app_assoc. apply ends_with_app.
Qed.

Lemma splitOn_nonempty (s : jsstring) : splitOn LF s <> [].
Proof.
  destruct s as [|c s]; simpl; [discriminate|].
  destruct (N.eqb c LF); [discriminate|].
  destruct (splitOn LF s); discriminate.
Qed.

Lemma join_splitOn (s : jsstring) : join [LF] (splitOn LF s) = s.
Proof.
  induction s as [|c s IH]; [reflexivity|]. simpl splitOn.
  pose proof (splitOn_nonempty s) as Hne.
  destruct (splitOn LF s) as [|w ws] eqn:Es; [congruence|].
  destruct (N.eqb c LF) eqn:E.
  - apply N.eqb_eq in E. subst c.
    change (join [LF] ([] :: w :: ws)) with ([LF] ++ join [LF] (w :: ws)).
    rewrite IH. reflexivity.
  - rewrite <- IH. destruct ws; reflexivity.
Qed.

Lemma splitOn_noLF (s : jsstring) :
  Forall (fun l => hasNoLF l = true) (splitOn LF s).
Proof.
  induction s as [|c s IH]; simpl.
  - repeat constructor.
  - destruct (N.eqb c LF) eqn:E.
    + constructor; [reflexivity | exact IH].
    + destruct (splitOn LF s) as [|w ws].
      * repeat constructor. simpl. rewrite E. reflexivity.
      * inversion IH; subst. constructor; [|assumption].
        simpl. rewrite E. simpl. assumption.
Qed.

Lemma trimSignature_positive (s : jsstring) (n : Z) :
  0 < n ->
  trimSignature s (Some n) = join [LF] (drop (Z.to_nat n) (splitOn LF s)).
Proof.
  intros Hn. unfold trimSignature.
  destruct (n =? 0) eqn:E0; [apply Z.eqb_eq in E0; lia|].
  destruct (n <? 0) eqn:E1; [apply Z.ltb_lt in E1; lia|]. reflexivity.
Qed.

(** X3. The trimmed signature is a trailing slice of the signature,
    whatever the count. *)
Theorem trimSignature_suffix (s : jsstring) (n : option Z) :
  ends_with (trimSignature s n) s = true.
Proof.
  destruct n as [n|]; [|apply (ends_with_app [])].
  destruct (Z_lt_le_dec 0 n) as [Hn | Hn].
  - rewrite trimSignature_positive by exact Hn.
    rewrite <- (join_splitOn s) at 2. apply join_drop_suffix.
  - unfold trimSignature.
    destruct (n =? 0) eqn:E0; [apply (ends_with_app [])|].
    destruct (n <? 0) eqn:E1; [apply (ends_with_app [])|].
    apply Z.eqb_neq in E0. apply Z.ltb_ge in E1. lia.
Qed.

(** X4. Trimming twice is trimming once by the sum. *)
Theorem trimSignature_twice (s : jsstring) (a b : Z) :
  0 < a -> 0 < b ->
  trimSignature (trimSignature s (Some a)) (Some b)
  = trimSignature s (Some (a + b)).
Proof.
  intros Ha Hb.
  rewrite (trimSignature_positive s a Ha).
  rewrite (trimSignature_positive _ b Hb).
  rewrite (trimSignature_positive s (a + b)) by lia.
  replace (Z.to_nat (a + b)) with (Z.to_nat a + Z.to_nat b)%nat by lia.
  rewrite <- drop_drop.
  destruct (drop (Z.to_nat a) (splitOn LF s)) as [|l ls] eqn:E.
  - simpl. destruct (Z.to_nat b) eqn:Eb; [lia|]. simpl.
    rewrite drop_nil. reflexivity.
  - rewrite splitOn_join; [reflexivity | discriminate |].
    rewrite <- E. apply Forall_drop. apply splitOn_noLF.
Qed.

Lemma trimSignature_twice_witness :
  trimSignature (trimSignature (getWindowSignature familyOfThree) (Some 1))
    (Some 1)
  = trimSignature (getWindowSignature familyOfThree) (Some 2).
Proof. apply trimSignature_twice; lia. Defined.

Lemma matcheSignatures_true_iff_witness :
  truthy (matcheSignatures
            (mkSignatures (Some signatureOfPinned) (Some signatureOfOne)))
  = true.
Proof.
  apply (proj2 (matcheSignatures_true_iff signatureOfPinned signatureOfOne)).
  split; [discriminate|]. split; [discriminate|].
  right. split; vm_compute; reflexivity.
Defined.

(** X5. Trimming the signature of a window drops the lines of its first
    tabs and keeps the others as they are: their parent indices still
    count from the first tab of the window. *)
Theorem trimSignature_window (tabs : list Tab) (n : Z) :
  0 < n ->
  Forall (fun t => hasNoLF (tab_cookieStoreId t) = true) tabs ->
  trimSignature (getWindowSignature tabs) (Some n)
  = join [LF] (drop (Z.to_nat n) (windowSignatureLines tabs)).
Proof.
  intros Hn Hall. rewrite trimSignature_positive by exact Hn.
  destruct tabs as [|t tabs].
  - destruct (Z.to_nat n) eqn:E; [lia|].
    cbn. rewrite drop_nil. reflexivity.
  - unfold getWindowSignature. rewrite splitOn_join; [reflexivity| |].
    + discriminate.
    + unfold windowSignatureLines. apply Forall_map.
      eapply Forall_impl; [exact Hall|].
      intros x Hx. apply signatureLine_noLF. exact Hx.
Qed.

Lemma trimSignature_window_witness :
  trimSignature (getWindowSignature familyOfThree) (Some 1)
  = join [LF] (drop 1 (windowSignatureLines familyOfThree)).
Proof.
  apply (trimSignature_window familyOfThree 1); [lia | repeat constructor].
Defined.

(** The trimmed signature is not the signature of the remaining tabs. *)
Example trimSignature_keeps_indices :
  trimSignature (getWindowSignature familyOfThree) (Some 1)
  <> getWindowSignature (drop 1 familyOfThree).
Proof. vm_compute. discriminate. Qed.





Lemma arrayIndexOf_map_injective (f : Z -> Z) (xs : list Z) (x : Z) :
  (forall a b, f a = f b -> a = b) ->
  arrayIndexOf Z.eqb (map f xs) (f x) = arrayIndexOf Z.eqb xs x.
Proof.
  intros Hinj. induction xs as [|y xs IH]; simpl; [reflexivity|].
  rewrite IH. destruct (y =? x) eqn:E.
  - apply Z.eqb_eq in E. subst y. rewrite Z.eqb_refl. reflexivity.
  - apply Z.eqb_neq in E.
    destruct (f y =? f x) eqn:E'; [|reflexivity].
    apply Z.eqb_eq, Hinj in E'. congruence.
Qed.

(** X7. The signature does not depend on the ids themselves: renaming
    them one to one, 0 staying 0, leaves it as it is. *)
Theorem getWindowSignature_renaming (f : Z -> Z) (tabs : list Tab) :
  (forall a b, f a = f b -> a = b) ->
  f 0 = 0 ->
  getWindowSignature (map (renameTab f) tabs) = getWindowSignature tabs.
Proof.
  intros Hinj H0. unfold getWindowSignature, windowSignatureLines.
  f_equal. cbv zeta. rewrite !List.map_map.
  apply map_ext. intros tab. simpl. f_equal.
  unfold parentIndex. simpl.
  destruct (tab_openerTabId tab) as [o|]; simpl; [|reflexivity].
  destruct (o =? 0) eqn:E.
  - apply Z.eqb_eq in E. subst o. rewrite H0. reflexivity.
  - destruct (f o =? 0) eqn:E'.
    + apply Z.eqb_eq in E'. rewrite <- H0 in E'. apply Hinj in E'.
      apply Z.eqb_neq in E. congruence.
    + rewrite <- (map_map tab_id f).
      apply arrayIndexOf_map_injective. exact Hinj.
Qed.

Lemma getWindowSignature_renaming_witness :
  getWindowSignature (map (renameTab (fun x => 3 * x)) familyOfThree)
  = getWindowSignature familyOfThree.
Proof.
  apply getWindowSignature_renaming; [intros a b H; lia | reflexivity].
Defined.

(* ================================================================== *)
(** * The language of the patterns *)
(* ================================================================== *)

Lemma lastOr_app (prev : option N) (t1 t2 : jsstring) :
  lastOr (lastOr prev t1) t2 = lastOr prev (t1 ++ t2).
Proof.
  unfold lastOr. destruct t2 as [|c t2] using rev_ind.
  - rewrite app_nil_r. reflexivity.
  - rewrite app_assoc, !last_snoc. reflexivity.
Qed.

Lemma lastOr_cons (prev : option N) (c : N) (t : jsstring) :
  lastOr prev (c :: t) = lastOr (Some c) t.
Proof. apply (eq_sym (lastOr_app prev [c] t)). Qed.

(** The matcher is sound: what it consumes before it calls its
    continuation is a text of the language of the pattern. *)
Lemma rmatch_sound {R} (r : regex) :
  forall prev s cs (k : option N -> jsstring -> captures -> option R) x,
    rmatch r prev s cs k = Some x ->
    exists t s' cs',
      s = t ++ s' /\ lang r prev t s' /\ k (lastOr prev t) s' cs' = Some x.
Proof.
  induction r as [p| |r1 IH1 r2 IH2|r1 IH1 r2 IH2|g r1 IH1|j r1 IH1| | |];
    intros prev s cs k x H; simpl in H.
  - destruct s as [|c s']; [discriminate|].
    destruct (p c) eqn:Ep; [|discriminate].
    exists [c], s', cs. repeat split; [constructor; exact Ep | exact H].
  - exists [], s, cs. repeat split; [constructor | exact H].
  - apply IH1 in H as (t1 & s1 & cs1 & -> & L1 & H).
    apply IH2 in H as (t2 & s2 & cs2 & -> & L2 & H).
    exists (t1 ++ t2), s2, cs2. rewrite <- lastOr_app.
    repeat split; [apply app_assoc | constructor; assumption | exact H].
  - destruct (rmatch r1 prev s cs k) as [y|] eqn:E.
    + inversion H; subst.
      apply IH1 in E as (t & s' & cs' & -> & L & E).
      exists t, s', cs'. repeat split; [apply LAltL; exact L | exact E].
    + apply IH2 in H as (t & s' & cs' & -> & L & E').
      exists t, s', cs'. repeat split; [apply LAltR; exact L | exact E'].
  - revert H. generalize (length s). intros n. revert prev s cs.
    induction n as [|n IHn]; intros prev s cs H.
    + assert (Hk : k prev s cs = Some x).
      { destruct g; [exact H|].
        destruct (k prev s cs); [exact H | discriminate]. }
      exists [], s, cs. repeat split; [constructor | exact Hk].
    + assert (Hmore :
          forall t1 s1 t2 s2 cs2,
            s = t1 ++ s1 -> lang r1 prev t1 s1 ->
            s1 = t2 ++ s2 -> lang (RStar g r1) (lastOr prev t1) t2 s2 ->
            k (lastOr (lastOr prev t1) t2) s2 cs2 = Some x ->
            exists t s' cs',
              s = t ++ s' /\ lang (RStar g r1) prev t s'
              /\ k (lastOr prev t) s' cs' = Some x).
      { intros t1 s1 t2 s2 cs2 -> L1 -> L2 Hk.
        exists (t1 ++ t2), s2, cs2. rewrite <- lastOr_app.
        repeat split; [apply app_assoc | | exact Hk].
        apply LStarCons; assumption. }
      destruct g.
      * match type of H with
        | match ?m with _ => _ end = _ => destruct m as [y|] eqn:E
        end.
        -- inversion H; subst.
           apply IH1 in E as (t1 & s1 & cs1 & Hs1 & L1 & E).
           destruct (length s1 <? length s)%nat; [|discriminate].
           apply IHn in E as (t2 & s2 & cs2 & Hs2 & L2 & E).
           eapply Hmore; eassumption.
        -- exists [], s, cs. repeat split; [constructor | exact H].
      * destruct (k prev s cs) eqn:Ek.
        -- inversion H; subst.
           exists [], s, cs. repeat split; [constructor | exact Ek].
        -- apply IH1 in H as (t1 & s1 & cs1 & Hs1 & L1 & E).
           destruct (length s1 <? length s)%nat; [|discriminate].
           apply IHn in E as (t2 & s2 & cs2 & Hs2 & L2 & E).
           eapply Hmore; eassumption.
  - apply IH1 in H as (t & s' & cs' & -> & L & H).
    eexists t, s', _. repeat split; [constructor; exact L | exact H].
  - destruct (xorb _ _) eqn:Ex; [|discriminate].
    exists [], s, cs. repeat split; [constructor; exact Ex | exact H].
  - destruct prev; [discriminate|].
    exists [], s, cs. repeat split; [constructor | exact H].
  - destruct s; [|discriminate].
    exists [], [], cs. repeat split; [constructor | exact H].
Qed.

Lemma matchHere_sound (r : regex) (prev : option N) (s s' : jsstring)
    (cs : captures) :
  matchHere r prev s = Some (s', cs) ->
  exists t, s = t ++ s' /\ lang r prev t s'
            /\ take (length s - length s') s = t.
Proof.
  unfold matchHere. intros E.
  apply rmatch_sound in E as (t & s'' & cs' & Hs & L & E).
  inversion E; subst s'' cs'; clear E. exists t.
  repeat split; [exact Hs | exact L|]. rewrite Hs.
  replace (length (t ++ s') - length s')%nat with (length t)
    by (rewrite length_app; lia).
  apply take_app_length.
Qed.

(** The leftmost match is a text of the language, where it stands. *)
Lemma search_sound (r : regex) (s : jsstring) :
  forall (prev : option N) (pos : nat) (m : MatchResult),
    search r prev s pos = Some m ->
    exists pre,
      s = pre ++ m_text m ++ m_rest m
      /\ m_index m = (pos + length pre)%nat
      /\ lang r (lastOr prev pre) (m_text m) (m_rest m).
Proof.
  induction s as [|c s IH]; intros prev pos m H; cbn [search] in H.
  - destruct (matchHere r prev []) as [[s' cs]|] eqn:E; [|discriminate].
    apply matchHere_sound in E as (t & Hs & L & Ht).
    inversion H; subst m; clear H. exists [].
    symmetry in Hs. apply app_eq_nil in Hs as [-> ->].
    cbn [m_text m_rest m_index app].
    repeat split; [simpl; lia | exact L].
  - destruct (matchHere r prev (c :: s)) as [[s' cs]|] eqn:E.
    + apply matchHere_sound in E as (t & Hs & L & Ht).
      injection H as <-. exists [].
      cbn [m_text m_rest m_index app].
      change (length (c :: s)) with (S (length s)) in Ht. rewrite Ht.
      repeat split; [exact Hs | simpl; lia | exact L].
    + apply IH in H as (pre & Hs & Hi & L).
      exists (c :: pre). rewrite lastOr_cons.
      repeat split; [simpl; congruence | simpl; lia | exact L].
Qed.

(** The successive matches of a global pattern, with the texts skipped
    before them and the text left after the last one, make up the
    string; each match is a text of the language. *)
Lemma matchesFrom_sound (r : regex) (fuel : nat) :
  forall (prev : option N) (s : jsstring)
         (ms : list (jsstring * jsstring)) (tl : jsstring),
    matchesFrom fuel r prev s = (ms, tl) ->
    s = concat (map (fun p => fst p ++ snd p) ms) ++ tl
    /\ Forall (fun p => exists prev' rest, lang r prev' (snd p) rest) ms.
Proof.
  induction fuel as [|fuel IH]; intros prev s ms tl H; cbn [matchesFrom] in H.
  - injection H as <- <-. split; [reflexivity | constructor].
  - destruct (search r prev s 0) as [m|] eqn:E.
    2:{ injection H as <- <-. split; [reflexivity | constructor]. }
    apply search_sound in E as (pre & Hs & Hi & L).
    simpl in Hi. cbv zeta in H.
    assert (Htake : take (m_index m) s = pre).
    { rewrite Hi, Hs. apply take_app_length. }
    rewrite Htake in H.
    assert (Hm : exists prev' rest, lang r prev' (m_text m) rest) by eauto.
    destruct (m_text m) as [|c0 t0] eqn:Et.
    + destruct (m_rest m) as [|c rest'] eqn:Er.
      * injection H as <- <-. split.
        -- rewrite Hs. simpl. rewrite !app_nil_r. reflexivity.
        -- repeat constructor. exact Hm.
      * destruct (matchesFrom fuel r (Some c) rest') as [ms' tl'] eqn:E'.
        apply IH in E' as [Hrest Hall].
        destruct ms' as [|[sk t] ms''].
        -- injection H as <- <-. split.
           ++ rewrite Hs. simpl in Hrest. subst rest'. simpl.
              rewrite !app_nil_r. reflexivity.
           ++ repeat constructor. exact Hm.
        -- injection H as <- <-. split.
           ++ rewrite Hs, Hrest. simpl. rewrite !app_nil_r.
              rewrite <- !app_assoc. simpl. rewrite <- !app_assoc.
              reflexivity.
           ++ apply Forall_cons in Hall as [Ht Hall].
              constructor; [exact Hm|]. constructor; [exact Ht | exact Hall].
    + destruct (matchesFrom fuel r _ (m_rest m)) as [ms' tl'] eqn:E'.
      apply IH in E' as [Hrest Hall].
      injection H as <- <-. split.
      * rewrite Hs. simpl. rewrite <- !app_assoc. simpl.
        rewrite Hrest at 1. reflexivity.
      * constructor; [exact Hm | exact Hall].
Qed.

(** ** The fragments of the items *)

Lemma lang_RLit (l : jsstring) :
  forall prev t rest, lang (RLit l) prev t rest -> t = l.
Proof.
  induction l as [|c l IH]; intros prev t rest H; simpl in H.
  - inversion H. reflexivity.
  - inversion H as [| |? ? ? t1 t2 ? L1 L2| | | | | | | |]; subst.
    inversion L1; subst. apply IH in L2. subst t2.
    match goal with E : N.eqb _ _ = true |- _ => apply N.eqb_eq in E end.
    subst. reflexivity.
Qed.

Lemma lang_star_class (g : bool) (p : N -> bool) (prev : option N)
    (t rest : jsstring) :
  lang (RStar g (RClass p)) prev t rest -> Forall (fun c => p c = true) t.
Proof.
  remember (RStar g (RClass p)) as r eqn:Er. intros H.
  induction H as [| | | | | |g' r' prev t1 t2 rest L1 _ L2 IH2| | | |];
    try discriminate.
  - constructor.
  - injection Er as -> ->. inversion L1; subst. constructor; [assumption|].
    apply IH2. reflexivity.
Qed.

Lemma lang_tabFragment (prev : option N) (t rest : jsstring) :
  lang tabFragmentMatcher prev t rest -> isTabFragment t.
Proof.
  unfold tabFragmentMatcher. intros H.
  inversion H as [| | | | | | |? ? ? ? ? H1| | |]; subst. clear H.
  inversion H1 as [| |? ? ? a1 a2 ? La Lb| | | | | | | |]; subst. clear H1.
  apply (lang_RLit (lit "<li")) in La. subst a1.
  inversion Lb as [| |? ? ? b1 b2 ? Lc Ld| | | | | | | |]; subst. clear Lb.
  apply lang_star_class in Lc.
  inversion Ld as [| |? ? ? c1 c2 ? Le Lf| | | | | | | |]; subst. clear Ld.
  inversion Le; subst. clear Le.
  match goal with E : N.eqb 62 _ = true |- _ => apply N.eqb_eq in E end.
  subst.
  inversion Lf as [| |? ? ? d1 d2 ? Lg Lh| | | | | | | |]; subst. clear Lf.
  apply (lang_RLit (lit "</li>")) in Lh. subst d2.
  unfold RPlus in Lg.
  inversion Lg as [| |? ? ? e1 e2 ? Li Lj| | | | | | | |]; subst. clear Lg.
  inversion Li; subst. clear Li.
  exists b1, ([c] ++ e2). split; [|split].
  - rewrite <- !app_assoc. reflexivity.
  - eapply Forall_impl; [exact Lc|]. simpl. intros x Hx ->. discriminate.
  - discriminate.
Qed.

Lemma tabFragments_sound (cachedTabs : jsstring) :
  Forall isTabFragment (tabFragments cachedTabs)
  /\ exists (gaps : list jsstring) (tl : jsstring),
       length gaps = length (tabFragments cachedTabs)
       /\ cachedTabs
          = concat (zip_with app gaps (tabFragments cachedTabs)) ++ tl.
Proof.
  unfold tabFragments, jsmatchAll.
  destruct (matchesFrom (S (length cachedTabs)) tabFragmentMatcher None
              cachedTabs) as [ms tl] eqn:E.
  apply matchesFrom_sound in E as [Hs Hall]. cbn [fst].
  assert (Hgen :
    Forall isTabFragment (map snd ms)
    /\ exists gaps tl0,
         length gaps = length (map snd ms)
         /\ cachedTabs = concat (zip_with app gaps (map snd ms)) ++ tl0).
  { split.
    - apply Forall_map. eapply Forall_impl; [exact Hall|].
      intros p (prev' & rest & L). eapply lang_tabFragment. exact L.
    - exists (map fst ms), tl. split; [rewrite !length_map; reflexivity|].
      rewrite Hs at 1. f_equal. f_equal. clear.
      induction ms as [|[a b] ms IH]; simpl; [reflexivity|].
      rewrite IH. reflexivity. }
  destruct ms as [|m ms]; [|exact Hgen].
  split; [constructor|]. exists [], cachedTabs. split; reflexivity.
Qed.

(** X20. The fragments of a cached tab bar are texts of items: an opening
    tag with its attributes, a content that is not empty, and a closing
    tag. They lie in the cache one after the other, in their order, apart
    from what stands between them. *)
Theorem tabFragments_items (cachedTabs : jsstring) :
  Forall isTabFragment (tabFragments cachedTabs)
  /\ exists (gaps : list jsstring) (tl : jsstring),
       length gaps = length (tabFragments cachedTabs)
       /\ cachedTabs
          = concat (zip_with app gaps (tabFragments cachedTabs)) ++ tl.
Proof. apply tabFragments_sound. Qed.

Lemma indexOf_occurs (pre pat rest : jsstring) :
  0 <= indexOf (pre ++ pat ++ rest) pat.
Proof.
  induction pre as [|c pre IH]; simpl app.
  - rewrite indexOf_at_start; [lia | apply starts_with_app].
  - cbn [indexOf]. destruct (starts_with pat (c :: pre ++ pat ++ rest));
      [lia|].
    destruct (indexOf (pre ++ pat ++ rest) pat <? 0) eqn:E.
    + apply Z.ltb_lt in E. lia.
    + lia.
Qed.

Lemma tabFragments_none (cachedTabs : jsstring) :
  indexOf cachedTabs (lit "<li") = -1 -> tabFragments cachedTabs = [].
Proof.
  intros Hno. destruct (tabFragments_sound cachedTabs)
    as (Hall & gaps & tl & Hlen & Hs).
  destruct (tabFragments cachedTabs) as [|f fs]; [reflexivity|].
  exfalso. destruct gaps as [|g gaps]; [discriminate|].
  apply Forall_cons in Hall as [(attrs & content & Hf & _) _].
  assert (Hocc : 0 <= indexOf cachedTabs (lit "<li")).
  { rewrite Hs. cbn [zip_with concat]. rewrite Hf.
    rewrite <- !app_assoc. apply indexOf_occurs. }
  lia.
Qed.

(** X21. A cache in which no item starts has the empty signature, which
    no signature of a window matches. *)
Theorem signatureFromTabsCache_no_item (kAPI_TAB_ID kPARENT : jsstring)
    (cachedTabs : jsstring) (actual : option jsstring) :
  indexOf cachedTabs (lit "<li") = -1 ->
  signatureFromTabsCache kAPI_TAB_ID kPARENT cachedTabs = Ok []
  /\ truthy (matcheSignatures (mkSignatures actual (Some []))) = false.
Proof.
  intros Hno. split.
  - unfold signatureFromTabsCache, cachedTabsOf.
    rewrite (tabFragments_none _ Hno). reflexivity.
  - apply matcheSignatures_missing. right. right. right. reflexivity.
Qed.

Lemma signatureFromTabsCache_no_item_witness :
  signatureFromTabsCache dataTabId dataParentId (lit "<ul></ul>") = Ok []
  /\ truthy (matcheSignatures
               (mkSignatures (Some signatureOfOne) (Some []))) = false.
Proof.
  apply (signatureFromTabsCache_no_item dataTabId dataParentId
           (lit "<ul></ul>") (Some signatureOfOne)).
  vm_compute. reflexivity.
Defined.

(** ** Trimming the cache *)

Lemma lang_RRepeat (r : regex) (n : nat) :
  forall prev t rest,
    lang (RRepeat n r) prev t rest ->
    exists fs, t = concat fs /\ length fs = n
               /\ Forall (fun f => exists prev' rest', lang r prev' f rest')
                    fs.
Proof.
  induction n as [|n IH]; intros prev t rest H; simpl in H.
  - inversion H; subst. exists []. repeat split. constructor.
  - inversion H as [| |? ? ? t1 t2 ? L1 L2| | | | | | | |]; subst.
    apply IH in L2 as (fs & -> & Hlen & Hall).
    exists (t1 :: fs). repeat split; [simpl; lia|].
    constructor; [eauto | exact Hall].
Qed.

(** X22. Trimming a cache leaves it as it is, or takes out of it one run
    of [ignoreCount] texts of items that follow each other without
    anything between them; what stands before and after the run is
    kept. *)
Theorem trimTabsCache_removes (cache : jsstring) (ignoreCount : option Z) :
  trimTabsCache cache ignoreCount = cache
  \/ exists (n : Z) (before after : jsstring) (items : list jsstring),
       ignoreCount = Some n /\ 0 < n
       /\ cache = before ++ concat items ++ after
       /\ length items = Z.to_nat n
       /\ Forall isTabFragment items
       /\ trimTabsCache cache ignoreCount = before ++ after.
Proof.
  unfold trimTabsCache. destruct ignoreCount as [n|]; [|left; reflexivity].
  destruct ((n =? 0) || (n <? 0)) eqn:En; [left; reflexivity|].
  apply orb_false_iff in En as [E0 E1].
  apply Z.eqb_neq in E0. apply Z.ltb_ge in E1.
  unfold jsremoveFirst, jsmatch.
  destruct (search _ None cache 0) as [m|] eqn:E; [|left; reflexivity].
  right. apply search_sound in E as (pre & Hs & Hi & L).
  apply lang_RRepeat in L as (fs & Ht & Hlen & Hall).
  exists n, pre, (m_rest m), fs.
  split; [reflexivity|]. split; [lia|].
  split; [rewrite <- Ht; exact Hs|]. split; [exact Hlen|]. split.
  - eapply Forall_impl; [exact Hall|].
    intros f (prev' & rest' & Lf). eapply lang_tabFragment. exact Lf.
  - f_equal. simpl in Hi. rewrite Hi, Hs. apply take_app_length.
Qed.

(* ================================================================== *)
(** * The fixup pass, step by step *)
(* ================================================================== *)

Lemma jsstring_eqb_refl (s : jsstring) : jsstring_eqb s s = true.
Proof.
  induction s as [|c s IH]; simpl; [reflexivity|].
  rewrite N.eqb_refl. exact IH.
Qed.

Lemma getAssoc_setAssoc (name value : jsstring)
    (l : list (jsstring * jsstring)) :
  getAssoc name (setAssoc name value l) = Some value.
Proof.
  induction l as [|[k v] l IH]; simpl.
  - rewrite jsstring_eqb_refl. reflexivity.
  - destruct (jsstring_eqb k name) eqn:E; simpl; rewrite E; [reflexivity|].
    exact IH.
Qed.

Lemma jsstring_eqb_eq (a b : jsstring) : jsstring_eqb a b = true -> a = b.
Proof.
  revert b. induction a as [|x a IH]; intros [|y b]; simpl;
    try discriminate; [reflexivity|].
  intros H. apply andb_true_iff in H as [H1 H2]. apply N.eqb_eq in H1.
  rewrite H1, (IH _ H2). reflexivity.
Qed.

Lemma getAssoc_setAssoc_ne (name name' value : jsstring)
    (l : list (jsstring * jsstring)) :
  name <> name' ->
  getAssoc name (setAssoc name' value l) = getAssoc name l.
Proof.
  intros Hne. induction l as [|[k v] l IH]; simpl.
  - destruct (jsstring_eqb name' name) eqn:E; [|reflexivity].
    apply jsstring_eqb_eq in E. congruence.
  - destruct (jsstring_eqb k name') eqn:E; simpl.
    + destruct (jsstring_eqb k name) eqn:E2; [|reflexivity].
      apply jsstring_eqb_eq in E, E2. congruence.
    + destruct (jsstring_eqb k name); [reflexivity | exact IH].
Qed.

Ltac wproj :=
  cbn [w_dom w_next w_wholeContainer w_windows w_tabs w_clock w_ticks
       w_trace withDom withTabs withTrace withTicks afterCalls afterBinding].

Ltac wproj_in H :=
  cbn [w_dom w_next w_wholeContainer w_windows w_tabs w_clock w_ticks
       w_trace withDom withTabs withTrace withTicks afterCalls afterBinding]
    in H.

Section FixupSteps.
Variables kAPI_TAB_ID kAPI_WINDOW_ID : jsstring.
Variable kPROGRESS_INTERVAL : Z.
Variable fl : Q -> Q.

Abbreviation step1 :=
  (fixupStep1 kAPI_TAB_ID kAPI_WINDOW_ID kPROGRESS_INTERVAL fl).
Abbreviation step2 := (fixupStep2 kPROGRESS_INTERVAL fl).
Abbreviation report := (reportProgress kPROGRESS_INTERVAL fl).
Abbreviation fixup :=
  (fixupTabsRestoredFromCache kAPI_TAB_ID kAPI_WINDOW_ID kPROGRESS_INTERVAL
     fl).

(** The end of an iteration, in closed form. *)
Lemma reportProgress_eval (maxCount count lastDraw : Z) (w : World) :
  report maxCount (count, lastDraw) w
  = if kPROGRESS_INTERVAL <? w_clock w (w_ticks w) - lastDraw
    then (Ok (count + 1, w_clock w (S (w_ticks w))),
          withTicks (S (S (w_ticks w)))
            (afterCalls [ESetProgress (progressOf fl (count + 1) maxCount);
                         ENextFrame] w))
    else (Ok (count, lastDraw), withTicks (S (w_ticks w)) w).
Proof.
  unfold reportProgress, bind, dateNow. simpl.
  destruct (kPROGRESS_INTERVAL <? w_clock w (w_ticks w) - lastDraw);
    reflexivity.
Qed.

Ltac wsimpl :=
  cbn [w_dom w_next w_wholeContainer w_windows w_tabs w_clock w_ticks
       w_trace withDom withTabs withTrace withTicks afterCalls rev app].

(** The writes and calls of one iteration of step 1. *)
Lemma binding_eval {A} (el : node) (v0 : jsstring) (tab : Tab) (id : Z)
    (e : Event) (n1 v1 n2 v2 : jsstring) (k : M A) (w : World) :
  (do _ <- setElementAttribute el attrId v0;
   do _ <- bindElement tab el;
   do _ <- setProperty (setApiTab tab) el;
   do _ <- emit e;
   do _ <- tstSetAttribute tab attrId v0;
   do _ <- setProperty (setTst id) el;
   do _ <- tstSetAttribute tab n1 v1;
   do _ <- tstSetAttribute tab n2 v2;
   k) w
  = match w_dom w !! el with
    | Some r =>
        if isElement r
        then k (afterCalls
                  [EBindElement (tab_id tab) el; e;
                   ETabSetAttribute (tab_id tab) attrId v0;
                   ETabSetAttribute (tab_id tab) n1 v1;
                   ETabSetAttribute (tab_id tab) n2 v2]
                  (withTabs (<[tab_id tab := Some el]> (w_tabs w))
                     (withDom
                        (<[el := setAttr n2 v2
                                   (setAttr n1 v1
                                      (setTst id
                                         (setAttr attrId v0
                                            (setApiTab tab
                                               (setAttr attrId v0 r)))))]>
                           (w_dom w)) w)))
        else (Throw TypeError, w)
    | None => (Throw TypeError, w)
    end.
Proof.
  destruct w as [d n c ws ts cl ti tr]. wsimpl.
  unfold bind at 1. unfold setElementAttribute at 1. wsimpl.
  destruct (d !! el) as [r|] eqn:Er; [|reflexivity].
  destruct (isElement r) eqn:Eel; [|reflexivity]. wsimpl.
  (* bindElement *)
  unfold bind at 1. unfold bindElement. unfold bind at 1.
  unfold emit at 1. wsimpl.
  (* apiTab *)
  unfold bind at 1. unfold setProperty at 1. unfold updateNode. wsimpl.
  rewrite lookup_insert_eq. rewrite insert_insert_eq.
  (* Tab.init *)
  unfold bind at 1. unfold emit at 1. wsimpl.
  (* the id, through the tab *)
  unfold bind at 1. unfold tstSetAttribute at 1. unfold bind at 1.
  unfold emit at 1. wsimpl. rewrite lookup_insert_eq.
  unfold setElementAttribute at 1. wsimpl. rewrite lookup_insert_eq.
  cbn [isElement setAttr setApiTab setTst]. rewrite Eel. wsimpl.
  rewrite insert_insert_eq.
  (* the helper *)
  unfold bind at 1. unfold setProperty at 1. unfold updateNode. wsimpl.
  rewrite lookup_insert_eq. rewrite insert_insert_eq.
  (* the tab id *)
  unfold bind at 1. unfold tstSetAttribute at 1. unfold bind at 1.
  unfold emit at 1. wsimpl. rewrite lookup_insert_eq.
  unfold setElementAttribute at 1. wsimpl. rewrite lookup_insert_eq.
  cbn [isElement setAttr setApiTab setTst]. rewrite Eel. wsimpl.
  rewrite insert_insert_eq.
  (* the window id *)
  unfold bind at 1. unfold tstSetAttribute at 1. unfold bind at 1.
  unfold emit at 1. wsimpl. rewrite lookup_insert_eq.
  unfold setElementAttribute at 1. wsimpl. rewrite lookup_insert_eq.
  cbn [isElement setAttr setApiTab setTst]. rewrite Eel. wsimpl.
  rewrite insert_insert_eq.
  reflexivity.
Qed.

(** One iteration of step 1, in closed form. *)
Lemma fixupStep1_cons (tabs : list Tab) (el : node) (rest : list node)
    (index : nat) (maxCount : Z) (st : Z * Z) (w : World) :
  step1 tabs (el :: rest) index maxCount st w
  = match tabs !! index, w_dom w !! el with
    | Some tab, Some r =>
        if isElement r
        then bind (report maxCount st)
               (fun st' => step1 tabs rest (S index) maxCount st')
               (afterBinding kAPI_TAB_ID kAPI_WINDOW_ID tab el r w)
        else (Throw TypeError, w)
    | _, _ => (Throw TypeError, w)
    end.
Proof.
  cbn [fixupStep1]. unfold bind at 1.
  destruct (tabs !! index) as [tab|].
  - cbn [deref ret]. exact (binding_eval _ _ _ _ _ _ _ _ _ _ _).
  - cbn [deref throw]. destruct (w_dom w !! el); reflexivity.
Qed.

(** One iteration of step 2, in closed form. *)
Lemma fixupStep2_cons (dirty : bool) (el : node) (rest : list node)
    (maxCount : Z) (st : Z * Z) (w : World) :
  step2 dirty (el :: rest) maxCount st w
  = match w_dom w !! el with
    | Some r =>
        match apiTab r with
        | Some tab =>
            bind (report maxCount st)
              (fun st' => step2 dirty rest maxCount st')
              (afterCalls (stateCalls dirty tab) w)
        | None => (Throw TypeError, w)
        end
    | None => (Throw TypeError, w)
    end.
Proof.
  destruct w as [d n c ws ts cl ti tr].
  cbn [fixupStep2]. unfold bind at 1. unfold getDom. wsimpl.
  unfold bind at 1.
  destruct (d !! el) as [r|]; [|reflexivity].
  destruct (apiTab r) as [tab|]; [|reflexivity].
  cbn [deref ret]. unfold stateCalls.
  unfold bind at 1. unfold emit at 1. wsimpl.
  unfold bind at 1. unfold emit at 1. wsimpl.
  unfold bind at 1.
  destruct dirty; [unfold emit at 1 | unfold ret at 1]; wsimpl; reflexivity.
Qed.

(** A relation between the sidebar before and after, which holds across
    the pass when it holds across each of its steps. *)
Section Invariant.
Variable R : World -> World -> Prop.
Hypothesis R_refl : forall w, R w w.
Hypothesis R_trans : forall a b c, R a b -> R b c -> R a c.
Hypothesis R_tick : forall w, R w (withTicks (S (w_ticks w)) w).
Hypothesis R_report :
  forall w p, R w (withTicks (S (S (w_ticks w)))
                     (afterCalls [ESetProgress p; ENextFrame] w)).
Variable tabElements : list node.
Variable tabs : list Tab.
Hypothesis R_binding :
  forall w tab el r,
    In tab tabs -> In el tabElements ->
    w_dom w !! el = Some r -> isElement r = true ->
    R w (afterBinding kAPI_TAB_ID kAPI_WINDOW_ID tab el r w).
Hypothesis R_states :
  forall w dirty tab, R w (afterCalls (stateCalls dirty tab) w).

Lemma report_invariant (maxCount : Z) (st : Z * Z) (w w' : World)
    (r : result (Z * Z)) :
  report maxCount st w = (r, w') -> R w w'.
Proof.
  destruct st as [count lastDraw]. rewrite reportProgress_eval.
  destruct (_ <? _); intros H; inversion H; subst; auto.
Qed.

Lemma report_Ok (maxCount : Z) (st : Z * Z) (w : World) :
  exists st', fst (report maxCount st w) = Ok st'.
Proof.
  destruct st as [count lastDraw]. rewrite reportProgress_eval.
  destruct (_ <? _); simpl; eauto.
Qed.

Lemma fixupStep1_invariant (maxCount : Z) (els : list node) :
  forall (index : nat) (st : Z * Z) (w w' : World) (r : result (Z * Z)),
    incl els tabElements ->
    step1 tabs els index maxCount st w = (r, w') -> R w w'.
Proof.
  induction els as [|el rest IH]; intros index st w w' r Hincl H.
  - inversion H; subst. apply R_refl.
  - rewrite fixupStep1_cons in H.
    destruct (tabs !! index) as [tab|] eqn:Etab;
      [|inversion H; subst; apply R_refl].
    destruct (w_dom w !! el) as [rec|] eqn:Erec;
      [|inversion H; subst; apply R_refl].
    destruct (isElement rec) eqn:Eel; [|inversion H; subst; apply R_refl].
    assert (Hstep : R w (afterBinding kAPI_TAB_ID kAPI_WINDOW_ID tab el
                           rec w)).
    { apply R_binding; [| |exact Erec|exact Eel].
      - apply list_elem_of_In. eapply list_elem_of_lookup_2. exact Etab.
      - apply Hincl. left. reflexivity. }
    unfold bind in H.
    destruct (report maxCount st _) as [[st'|e] w1] eqn:Erep.
    + eapply R_trans; [exact Hstep|]. eapply R_trans.
      * eapply report_invariant. exact Erep.
      * eapply IH; [|exact H]. intros x Hx. apply Hincl. right. exact Hx.
    + inversion H; subst. eapply R_trans; [exact Hstep|].
      eapply report_invariant. exact Erep.
Qed.

Lemma fixupStep2_invariant (dirty : bool) (maxCount : Z) (els : list node) :
  forall (st : Z * Z) (w w' : World) (r : result (Z * Z)),
    step2 dirty els maxCount st w = (r, w') -> R w w'.
Proof.
  induction els as [|el rest IH]; intros st w w' r H.
  - inversion H; subst. apply R_refl.
  - rewrite fixupStep2_cons in H.
    destruct (w_dom w !! el) as [rec|];
      [|inversion H; subst; apply R_refl].
    destruct (apiTab rec) as [tab|]; [|inversion H; subst; apply R_refl].
    unfold bind in H.
    destruct (report maxCount st _) as [[st'|e] w1] eqn:Erep.
    + eapply R_trans; [apply (R_states w dirty tab)|].
      eapply R_trans; [eapply report_invariant; exact Erep|].
      eapply IH. exact H.
    + inversion H; subst.
      eapply R_trans; [apply (R_states w dirty tab)|].
      eapply report_invariant. exact Erep.
Qed.

Lemma fixup_invariant (dirty : bool) (w w' : World) (r : result unit) :
  fixup tabElements tabs dirty w = (r, w') -> R w w'.
Proof.
  unfold fixupTabsRestoredFromCache.
  destruct (negb _); [intros H; inversion H; subst; apply R_refl|].
  unfold bind at 1. simpl. unfold bind at 1.
  destruct (step1 _ _ _ _ _ _) as [[st1|e] w1] eqn:E1.
  - unfold bind.
    destruct (step2 _ _ _ _ _) as [[st2|e] w2] eqn:E2; intros H;
      inversion H; subst.
    + eapply R_trans; [apply R_tick|].
      eapply R_trans; [eapply fixupStep1_invariant; [|exact E1]|].
      * intros x Hx; exact Hx.
      * eapply fixupStep2_invariant. exact E2.
    + eapply R_trans; [apply R_tick|].
      eapply R_trans; [eapply fixupStep1_invariant; [|exact E1]|].
      * intros x Hx; exact Hx.
      * eapply fixupStep2_invariant. exact E2.
  - intros H; inversion H; subst.
    eapply R_trans; [apply R_tick|].
    eapply fixupStep1_invariant; [|exact E1]. intros x Hx; exact Hx.
Qed.
End Invariant.

End FixupSteps.

Lemma sameStores_refl (w : World) : sameStores w w.
Proof. repeat split. Qed.

Lemma sameStores_trans (a b c : World) :
  sameStores a b -> sameStores b c -> sameStores a c.
Proof.
  unfold sameStores. intros (?&?&?&?) (?&?&?&?).
  repeat split; congruence.
Qed.

Lemma sameTree_refl (d : DOM) : sameTree d d.
Proof. intros n. auto. Qed.

Lemma sameTree_trans (a b c : DOM) :
  sameTree a b -> sameTree b c -> sameTree a c.
Proof.
  intros H1 H2 n. destruct (H1 n) as (?&?&?), (H2 n) as (?&?&?).
  repeat split; congruence.
Qed.

Lemma sameTree_bound (kAPI_TAB_ID kAPI_WINDOW_ID : jsstring) (d : DOM)
    (el : node) (tab : Tab) (r : NodeRec) :
  d !! el = Some r ->
  sameTree d (<[el := boundRecord kAPI_TAB_ID kAPI_WINDOW_ID tab r]> d).
Proof.
  intros Hr n. destruct (decide (el = n)) as [<-|Hne].
  - rewrite lookup_insert_eq, Hr. auto.
  - rewrite lookup_insert_ne by exact Hne. auto.
Qed.

Section FixupTheorems.
Variables kAPI_TAB_ID kAPI_WINDOW_ID : jsstring.
Variable kPROGRESS_INTERVAL : Z.
Variable fl : Q -> Q.

Abbreviation step1' :=
  (fixupStep1 kAPI_TAB_ID kAPI_WINDOW_ID kPROGRESS_INTERVAL fl).
Abbreviation step2' := (fixupStep2 kPROGRESS_INTERVAL fl).
Abbreviation report' := (reportProgress kPROGRESS_INTERVAL fl).
Abbreviation fixup' :=
  (fixupTabsRestoredFromCache kAPI_TAB_ID kAPI_WINDOW_ID kPROGRESS_INTERVAL
     fl).

Lemma fixup_frame (tabElements : list node) (tabs : list Tab)
    (dirty : bool) (w w' : World) (r : result unit) :
  fixup' tabElements tabs dirty w = (r, w') ->
  sameStores w w' /\ sameTree (w_dom w) (w_dom w').
Proof.
  apply (fixup_invariant kAPI_TAB_ID kAPI_WINDOW_ID kPROGRESS_INTERVAL fl
           (fun w w' => sameStores w w' /\ sameTree (w_dom w) (w_dom w'))).
  - intros w0. split; [apply sameStores_refl | apply sameTree_refl].
  - intros a b c [S1 T1] [S2 T2].
    split; [eapply sameStores_trans | eapply sameTree_trans]; eassumption.
  - intros w0. split; [repeat split | exact (sameTree_refl _)].
  - intros w0 p. split; [repeat split | exact (sameTree_refl _)].
  - intros w0 tab el rec _ _ Hrec _. split; [repeat split|].
    exact (sameTree_bound _ _ _ _ _ _ Hrec).
  - intros w0 d tab. split; [repeat split | exact (sameTree_refl _)].
Qed.

Lemma tabsRebound_same (tabs : list Tab) (els : list node) (w w' : World) :
  w_tabs w' = w_tabs w -> tabsRebound tabs els w w'.
Proof.
  intros H. split; [intros id _ | intros id el Hid; left]; congruence.
Qed.

Lemma tabsRebound_trans (tabs : list Tab) (els : list node)
    (a b c : World) :
  tabsRebound tabs els a b -> tabsRebound tabs els b c ->
  tabsRebound tabs els a c.
Proof.
  intros [K1 N1] [K2 N2]. split.
  - intros id Hid. rewrite K2, K1; auto.
  - intros id el Hel. destruct (N2 id el Hel) as [H | H]; [|right; exact H].
    apply N1. exact H.
Qed.

(** What the pass does to the store of tabs. *)
Lemma fixup_tabs (tabElements : list node) (tabs : list Tab)
    (dirty : bool) (w w' : World) (r : result unit) :
  fixup' tabElements tabs dirty w = (r, w') ->
  tabsRebound tabs tabElements w w'.
Proof.
  apply (fixup_invariant kAPI_TAB_ID kAPI_WINDOW_ID kPROGRESS_INTERVAL fl
           (tabsRebound tabs tabElements)).
  - intros w0. apply tabsRebound_same. reflexivity.
  - apply tabsRebound_trans.
  - intros w0. apply tabsRebound_same. reflexivity.
  - intros w0 p. apply tabsRebound_same. reflexivity.
  - intros w0 tab el rec Htab Hel _ _. split.
    + intros id Hid. apply lookup_insert_ne. intros <-. apply Hid.
      apply in_map. exact Htab.
    + intros id el' Hid.
      change (w_tabs (afterBinding kAPI_TAB_ID kAPI_WINDOW_ID tab el rec w0))
        with (<[tab_id tab := Some el]> (w_tabs w0)) in Hid.
      destruct (decide (tab_id tab = id)) as [<-|Hne].
      * rewrite lookup_insert_eq in Hid. injection Hid as <-.
        right. exact Hel.
      * rewrite lookup_insert_ne in Hid by exact Hne. left. exact Hid.
  - intros w0 d tab. apply tabsRebound_same. reflexivity.
Qed.

(** X8. Whatever its outcome, the fixup pass leaves the tree as it is: no
    node is added, removed or moved, none changes its kind. It leaves
    the store of windows alone, and in the store of tabs it changes the
    entries of the tab records it is given only, and only to bind them
    to elements it is given. *)
Theorem fixup_keeps_tree (tabElements : list node) (tabs : list Tab)
    (dirty : bool) (w w' : World) (r : result unit) :
  fixup' tabElements tabs dirty w = (r, w') ->
  sameStores w w' /\ sameTree (w_dom w) (w_dom w')
  /\ tabsRebound tabs tabElements w w'.
Proof.
  intros H. destruct (fixup_frame _ _ _ _ _ _ H) as [Hs Ht].
  split; [exact Hs|]. split; [exact Ht|]. eapply fixup_tabs. exact H.
Qed.

Lemma fixupStep1_others (tabs : list Tab) (maxCount : Z) (els : list node)
    (index : nat) (st : Z * Z) (w w' : World) (r : result (Z * Z))
    (n : node) :
  step1' tabs els index maxCount st w = (r, w') ->
  ~ In n els -> w_dom w' !! n = w_dom w !! n.
Proof.
  intros H.
  apply (fixupStep1_invariant kAPI_TAB_ID kAPI_WINDOW_ID kPROGRESS_INTERVAL
           fl (fun w w' => ~ In n els -> w_dom w' !! n = w_dom w !! n))
    with (tabElements := els) (tabs := tabs) (maxCount := maxCount)
         (els := els) (index := index) (st := st) (r := r); auto.
  - intros a b c H1 H2 Hn. rewrite H2, H1; auto.
  - intros w0 tab el rec _ Hin _ _ Hn.
    apply lookup_insert_ne. intros ->. contradiction.
  - intros x Hx. exact Hx.
Qed.

Lemma fixupStep2_dom (dirty : bool) (maxCount : Z) (els : list node)
    (st : Z * Z) (w w' : World) (r : result (Z * Z)) :
  step2' dirty els maxCount st w = (r, w') -> w_dom w' = w_dom w.
Proof.
  apply (fixupStep2_invariant kPROGRESS_INTERVAL fl
           (fun w w' => w_dom w' = w_dom w)); auto.
  intros a b c H1 H2. congruence.
Qed.

Lemma fixup_others (tabElements : list node)
    (tabs : list Tab) (dirty : bool) (w w' : World) (r : result unit)
    (n : node) :
  fixup' tabElements tabs dirty w = (r, w') ->
  ~ In n tabElements ->
  w_dom w' !! n = w_dom w !! n.
Proof.
  intros H.
  apply (fixup_invariant kAPI_TAB_ID kAPI_WINDOW_ID kPROGRESS_INTERVAL fl
           (fun w w' => ~ In n tabElements -> w_dom w' !! n = w_dom w !! n))
    with (tabElements := tabElements) (tabs := tabs) (dirty := dirty)
         (r := r); auto.
  - intros a b c H1 H2 Hn. rewrite H2, H1; auto.
  - intros w0 tab el rec _ Hin _ _ Hn.
    apply lookup_insert_ne. intros ->. contradiction.
Qed.

(** X9. The pass writes to the elements it is given only: the record of
    any other node is the same after it, whatever the outcome. *)
Theorem fixup_touches_elements_only (tabElements : list node)
    (tabs : list Tab) (dirty : bool) (w w' : World) (r : result unit)
    (n : node) :
  fixup' tabElements tabs dirty w = (r, w') ->
  ~ In n tabElements ->
  w_dom w' !! n = w_dom w !! n.
Proof. apply fixup_others. Qed.

Lemma report_inv (maxCount : Z) (st : Z * Z) (w w' : World)
    (r : result (Z * Z)) :
  report' maxCount st w = (r, w') ->
  w_dom w' = w_dom w /\ exists st', r = Ok st'.
Proof.
  destruct st as [count lastDraw]. rewrite reportProgress_eval.
  destruct (_ <? _); intros H; inversion H; subst; simpl; eauto.
Qed.

Lemma isElementIn_bound (d : DOM) (el n : node) (tab : Tab) (r : NodeRec) :
  d !! el = Some r ->
  isElementIn (<[el := boundRecord kAPI_TAB_ID kAPI_WINDOW_ID tab r]> d) n
  = isElementIn d n.
Proof.
  intros Hr. unfold isElementIn. destruct (decide (el = n)) as [<-|Hne].
  - rewrite lookup_insert_eq, Hr. reflexivity.
  - rewrite lookup_insert_ne by exact Hne. reflexivity.
Qed.

(** Step 1 succeeds exactly when each element is an element of the
    document and has its tab record. *)
Lemma fixupStep1_Ok_iff (tabs : list Tab) (maxCount : Z) (els : list node) :
  forall (index : nat) (st : Z * Z) (w : World),
    (exists st' w', step1' tabs els index maxCount st w = (Ok st', w'))
    <-> (forall i, (i < length els)%nat -> is_Some (tabs !! (index + i)%nat))
        /\ Forall (fun el => isElementIn (w_dom w) el = true) els.
Proof.
  induction els as [|el rest IH]; intros index st w.
  - simpl. split.
    + intros _. split; [intros i Hi; lia | constructor].
    + intros _. eauto.
  - rewrite fixupStep1_cons. split.
    + intros (st' & w' & H).
      destruct (tabs !! index) as [tab|] eqn:Etab; [|discriminate].
      destruct (w_dom w !! el) as [rec|] eqn:Erec; [|discriminate].
      destruct (isElement rec) eqn:Eel; [|discriminate].
      unfold bind in H.
      destruct (report' maxCount st _) as [[st1|e] w1] eqn:Erep;
        [|discriminate].
      apply report_inv in Erep as [Hdom _]. wproj_in Hdom.
      destruct (proj1 (IH (S index) st1 w1)) as [Htabs Hels]; [eauto|].
      split.
      * intros [|i] Hi; [rewrite Nat.add_0_r, Etab; eauto|].
        replace (index + S i)%nat with (S index + i)%nat by lia.
        apply Htabs. simpl in Hi. lia.
      * constructor.
        -- unfold isElementIn. rewrite Erec. exact Eel.
        -- eapply Forall_impl; [exact Hels|]. simpl. intros x Hx.
           rewrite Hdom, isElementIn_bound in Hx by exact Erec. exact Hx.
    + intros [Htabs Hels].
      destruct (Htabs O) as [tab Etab]; [simpl; lia|].
      rewrite Nat.add_0_r in Etab. rewrite Etab.
      apply Forall_cons in Hels as [Hel Hels].
      unfold isElementIn in Hel.
      destruct (w_dom w !! el) as [rec|] eqn:Erec; [|discriminate].
      rewrite Hel. unfold bind.
      destruct (report' maxCount st _) as [[st1|e] w1] eqn:Erep.
      * apply report_inv in Erep as [Hdom _]. wproj_in Hdom.
        apply IH. split.
        -- intros i Hi.
           replace (S index + i)%nat with (index + S i)%nat by lia.
           apply Htabs. simpl. lia.
        -- eapply Forall_impl; [exact Hels|]. simpl. intros x Hx.
           rewrite Hdom, isElementIn_bound by exact Erec. exact Hx.
      * apply report_inv in Erep as [_ [st' Hst]]. discriminate.
Qed.

(** What step 1 leaves in the record of each element, when no element
    occurs twice. *)
Lemma fixupStep1_bound (tabs : list Tab) (maxCount : Z) (els : list node) :
  forall (index : nat) (st st' : Z * Z) (w w' : World),
    NoDup els ->
    step1' tabs els index maxCount st w = (Ok st', w') ->
    forall (i : nat) (el : node) (tab : Tab),
      els !! i = Some el -> tabs !! (index + i)%nat = Some tab ->
      w_dom w' !! el
      = boundRecord kAPI_TAB_ID kAPI_WINDOW_ID tab <$> w_dom w !! el.
Proof.
  induction els as [|el0 rest IH]; intros index st st' w w' Hnd H i el tab
    Hel Htab; [destruct i; discriminate|].
  apply NoDup_cons in Hnd as [Hfresh Hnd].
  rewrite fixupStep1_cons in H.
  destruct (tabs !! index) as [tab0|] eqn:Etab; [|discriminate].
  destruct (w_dom w !! el0) as [rec|] eqn:Erec; [|discriminate].
  destruct (isElement rec) eqn:Eel; [|discriminate].
  unfold bind in H.
  destruct (report' maxCount st _) as [[st1|e] w1] eqn:Erep; [|discriminate].
  apply report_inv in Erep as [Hdom _]. wproj_in Hdom.
  destruct i as [|i].
  - injection Hel as <-. rewrite Nat.add_0_r, Etab in Htab.
    injection Htab as <-.
    rewrite (fixupStep1_others _ _ _ _ _ _ _ _ el0 H).
    + rewrite Hdom, lookup_insert_eq, Erec. reflexivity.
    + intros Hin. apply Hfresh, list_elem_of_In, Hin.
  - simpl in Hel.
    replace (index + S i)%nat with (S index + i)%nat in Htab by lia.
    rewrite (IH _ _ _ _ _ Hnd H i el tab Hel Htab).
    rewrite Hdom, lookup_insert_ne; [reflexivity|].
    intros ->. apply Hfresh. eapply list_elem_of_lookup_2. exact Hel.
Qed.

(** Step 1 leaves every element of its list with a tab record. *)
Lemma fixupStep1_apiTab (tabs : list Tab) (maxCount : Z) (els : list node) :
  forall (index : nat) (st st' : Z * Z) (w w' : World),
    step1' tabs els index maxCount st w = (Ok st', w') ->
    (forall n, (exists r, w_dom w !! n = Some r /\ is_Some (apiTab r)) ->
               exists r, w_dom w' !! n = Some r /\ is_Some (apiTab r))
    /\ Forall (fun el => exists r, w_dom w' !! el = Some r
                                   /\ is_Some (apiTab r)) els.
Proof.
  induction els as [|el0 rest IH]; intros index st st' w w' H.
  - inversion H; subst. split; [auto | constructor].
  - rewrite fixupStep1_cons in H.
    destruct (tabs !! index) as [tab0|] eqn:Etab; [|discriminate].
    destruct (w_dom w !! el0) as [rec|] eqn:Erec; [|discriminate].
    destruct (isElement rec) eqn:Eel; [|discriminate].
    unfold bind in H.
    destruct (report' maxCount st _) as [[st1|e] w1] eqn:Erep;
      [|discriminate].
    apply report_inv in Erep as [Hdom _]. wproj_in Hdom.
    destruct (IH _ _ _ _ _ H) as [Hkeep Hall].
    assert (Hstep : forall n,
               (exists r, w_dom w !! n = Some r /\ is_Some (apiTab r)) ->
               exists r, w_dom w1 !! n = Some r /\ is_Some (apiTab r)).
    { intros n (r & Hr & Ha). rewrite Hdom.
      destruct (decide (el0 = n)) as [<-|Hne].
      - rewrite lookup_insert_eq. eexists. split; [reflexivity|].
        simpl. eauto.
      - rewrite lookup_insert_ne by exact Hne. eauto. }
    split.
    + intros n Hn. apply Hkeep, Hstep, Hn.
    + constructor; [|exact Hall].
      apply Hkeep. rewrite Hdom, lookup_insert_eq.
      eexists. split; [reflexivity|]. simpl. eauto.
Qed.

(** Step 2 succeeds when each element has its tab record. *)
Lemma fixupStep2_Ok (dirty : bool) (maxCount : Z) (els : list node) :
  forall (st : Z * Z) (w : World),
    Forall (fun el => exists r, w_dom w !! el = Some r
                                /\ is_Some (apiTab r)) els ->
    exists st' w', step2' dirty els maxCount st w = (Ok st', w').
Proof.
  induction els as [|el rest IH]; intros st w Hall; [simpl; eauto|].
  apply Forall_cons in Hall as [(r & Hr & [tab Htab]) Hall].
  rewrite fixupStep2_cons, Hr, Htab. unfold bind.
  destruct (report' maxCount st _) as [[st1|e] w1] eqn:Erep.
  - apply report_inv in Erep as [Hdom _]. wproj_in Hdom.
    apply IH. rewrite Hdom. exact Hall.
  - apply report_inv in Erep as [_ [st' Hst]]. discriminate.
Qed.

Lemma fixup_Ok_iff (tabElements : list node) (tabs : list Tab)
    (dirty : bool) (w : World) :
  (exists w', fixup' tabElements tabs dirty w = (Ok tt, w'))
  <-> length tabElements = length tabs
      /\ Forall (fun el => isElementIn (w_dom w) el = true) tabElements.
Proof.
  unfold fixupTabsRestoredFromCache.
  destruct (Nat.eqb_spec (length tabElements) (length tabs)) as [Hlen|Hlen];
    simpl.
  - unfold bind at 1. simpl.
    set (w0 := mkWorld _ _ _ _ _ _ _ _).
    set (st0 := (0, w_clock w (w_ticks w))).
    set (maxCount := Z.of_nat (length tabElements) * 2).
    pose proof (fixupStep1_Ok_iff tabs maxCount tabElements O st0 w0) as H1.
    split.
    + intros [w' H]. split; [exact Hlen|].
      unfold bind in H.
      destruct (step1' tabs tabElements 0 maxCount st0 w0)
        as [[st1|e] w1] eqn:E1; [|discriminate].
      apply (proj1 H1). eauto.
    + intros [_ Hels].
      destruct (proj2 H1) as (st1 & w1 & E1).
      { split; [|exact Hels]. intros i Hi. simpl.
        apply lookup_lt_is_Some. lia. }
      unfold bind. rewrite E1.
      destruct (fixupStep1_apiTab _ _ _ _ _ _ _ _ E1) as [_ Hall].
      destruct (fixupStep2_Ok dirty maxCount tabElements st1 w1 Hall)
        as (st2 & w2 & E2).
      rewrite E2. eauto.
  - split; [intros [w' H]; discriminate | intros [H _]; contradiction].
Qed.

(** X10. The pass succeeds exactly when it is given as many elements as
    tab records, and each of them is an element of the document. *)
Theorem fixup_succeeds_iff (tabElements : list node) (tabs : list Tab)
    (dirty : bool) (w : World) :
  (exists w', fixup' tabElements tabs dirty w = (Ok tt, w'))
  <-> length tabElements = length tabs
      /\ Forall (fun el => isElementIn (w_dom w) el = true) tabElements.
Proof. apply fixup_Ok_iff. Qed.








(** The fields of a bound record. The attribute of the window id is
    written last; the one of the tab id and the id attribute are read
    back when no later write has their name. *)
Lemma boundRecord_fields (tab : Tab) (r : NodeRec) :
  getAttribute kAPI_WINDOW_ID (boundRecord kAPI_TAB_ID kAPI_WINDOW_ID tab r)
  = Some (showZ (orMinusOne (tab_windowId tab)))
  /\ (kAPI_TAB_ID <> kAPI_WINDOW_ID ->
      getAttribute kAPI_TAB_ID (boundRecord kAPI_TAB_ID kAPI_WINDOW_ID tab r)
      = Some (showZ (orMinusOne (tab_id tab))))
  /\ (attrId <> kAPI_TAB_ID -> attrId <> kAPI_WINDOW_ID ->
      getAttribute attrId (boundRecord kAPI_TAB_ID kAPI_WINDOW_ID tab r)
      = Some (elementIdOf tab))
  /\ apiTab (boundRecord kAPI_TAB_ID kAPI_WINDOW_ID tab r) = Some tab
  /\ tst (boundRecord kAPI_TAB_ID kAPI_WINDOW_ID tab r) = Some (tab_id tab)
  /\ parentNode (boundRecord kAPI_TAB_ID kAPI_WINDOW_ID tab r)
     = parentNode r
  /\ childNodes (boundRecord kAPI_TAB_ID kAPI_WINDOW_ID tab r)
     = childNodes r
  /\ isElement (boundRecord kAPI_TAB_ID kAPI_WINDOW_ID tab r) = isElement r.
Proof.
  unfold getAttribute, boundRecord.
  cbn [attributes apiTab tst parentNode childNodes isElement setAttr setTst
       setApiTab].
  split; [apply getAssoc_setAssoc|].
  split; [intros H1; rewrite getAssoc_setAssoc_ne by exact H1;
          apply getAssoc_setAssoc|].
  split; [intros H1 H2; rewrite !getAssoc_setAssoc_ne by assumption;
          apply getAssoc_setAssoc|].
  repeat split.
Qed.


Lemma callsOf_app (a b : list Event) :
  callsOf (a ++ b) = callsOf a ++ callsOf b.
Proof. apply List.filter_app. Qed.

Lemma report_calls (maxCount : Z) (st : Z * Z) (w w' : World)
    (r : result (Z * Z)) :
  report' maxCount st w = (r, w') ->
  exists new, w_trace w' = new ++ w_trace w /\ callsOf new = [].
Proof.
  destruct st as [count lastDraw]. rewrite reportProgress_eval.
  destruct (_ <? _); intros H; inversion H; subst.
  - exists [ENextFrame; ESetProgress (progressOf fl (count + 1) maxCount)].
    split; reflexivity.
  - exists []. split; reflexivity.
Qed.

Lemma callsOf_bindingCalls (tab : Tab) (el : node) :
  callsOf (rev (bindingCalls kAPI_TAB_ID kAPI_WINDOW_ID tab el))
  = rev (bindingCalls kAPI_TAB_ID kAPI_WINDOW_ID tab el).
Proof. reflexivity. Qed.

Lemma callsOf_stateCalls (dirty : bool) (tab : Tab) :
  callsOf (rev (stateCalls dirty tab)) = rev (stateCalls dirty tab).
Proof. destruct dirty; reflexivity. Qed.

(** The calls of step 1. *)
Lemma fixupStep1_calls (tabs : list Tab) (maxCount : Z) (els : list node) :
  forall (index : nat) (st st' : Z * Z) (w w' : World),
    step1' tabs els index maxCount st w = (Ok st', w') ->
    exists new,
      w_trace w' = new ++ w_trace w
      /\ rev (callsOf new)
         = concat (zip_with (bindingCalls kAPI_TAB_ID kAPI_WINDOW_ID)
                     (drop index tabs) els).
Proof.
  induction els as [|el rest IH]; intros index st st' w w' H.
  - inversion H; subst. exists []. split; [reflexivity|].
    destruct (drop index tabs); reflexivity.
  - rewrite fixupStep1_cons in H.
    destruct (tabs !! index) as [tab|] eqn:Etab; [|discriminate].
    destruct (w_dom w !! el) as [rec|] eqn:Erec; [|discriminate].
    destruct (isElement rec) eqn:Eel; [|discriminate].
    unfold bind in H.
    destruct (report' maxCount st _) as [[st1|e] w1] eqn:Erep;
      [|discriminate].
    apply report_calls in Erep as (new1 & Ht1 & Hc1).
    destruct (IH _ _ _ _ _ H) as (new2 & Ht2 & Hc2).
    exists (new2 ++ new1
            ++ rev (bindingCalls kAPI_TAB_ID kAPI_WINDOW_ID tab el)).
    split.
    + rewrite Ht2, Ht1. wproj.
      rewrite <- !app_assoc. reflexivity.
    + rewrite !callsOf_app, Hc1, callsOf_bindingCalls.
      cbn [app]. rewrite rev_app_distr, rev_involutive, Hc2.
      rewrite (drop_S _ _ _ Etab). reflexivity.
Qed.

(** The calls of step 2, for the tab records the elements carry. *)
Lemma fixupStep2_calls (dirty : bool) (maxCount : Z) (els : list node) :
  forall (tabs : list Tab) (st st' : Z * Z) (w w' : World),
    Forall2 (fun el tab => exists r, w_dom w !! el = Some r
                                     /\ apiTab r = Some tab) els tabs ->
    step2' dirty els maxCount st w = (Ok st', w') ->
    exists new,
      w_trace w' = new ++ w_trace w
      /\ rev (callsOf new) = concat (map (stateCalls dirty) tabs).
Proof.
  induction els as [|el rest IH]; intros tabs st st' w w' Hall H.
  - apply Forall2_nil_inv_l in Hall as ->. inversion H; subst.
    exists []. split; reflexivity.
  - apply Forall2_cons_inv_l in Hall
      as (tab & tabs' & (rec & Hrec & Htab) & Hall & ->).
    rewrite fixupStep2_cons, Hrec, Htab in H. unfold bind in H.
    destruct (report' maxCount st _) as [[st1|e] w1] eqn:Erep;
      [|discriminate].
    pose proof (report_inv _ _ _ _ _ Erep) as [Hdom _].
    apply report_calls in Erep as (new1 & Ht1 & Hc1).
    destruct (IH tabs' _ _ _ _ ltac:(rewrite Hdom; exact Hall) H)
      as (new2 & Ht2 & Hc2).
    exists (new2 ++ new1 ++ rev (stateCalls dirty tab)). split.
    + rewrite Ht2, Ht1. wproj.
      rewrite <- !app_assoc. reflexivity.
    + rewrite !callsOf_app, Hc1, callsOf_stateCalls.
      cbn [app]. rewrite rev_app_distr, rev_involutive, Hc2. reflexivity.
Qed.

(** X12. When the pass succeeds on elements that are all different, the
    calls it makes to the tab model are, in this order: for each tab record
    with its element, the binding, the initialisation and the three
    attributes; then, for each tab record, the two applications of states,
    followed by the update of the tab exactly when the pass is dirty. *)
Theorem fixup_calls (tabElements : list node) (tabs : list Tab)
    (dirty : bool) (w w' : World) :
  NoDup tabElements ->
  fixup' tabElements tabs dirty w = (Ok tt, w') ->
  exists new,
    w_trace w' = new ++ w_trace w
    /\ rev (callsOf new)
       = concat (zip_with (bindingCalls kAPI_TAB_ID kAPI_WINDOW_ID) tabs
                   tabElements)
         ++ concat (map (stateCalls dirty) tabs).
Proof.
  intros Hnd H. unfold fixupTabsRestoredFromCache in H.
  destruct (Nat.eqb_spec (length tabElements) (length tabs)) as [Hlen|Hlen];
    [|discriminate].
  cbn [negb] in H. unfold bind at 1 in H. cbn [dateNow] in H.
  unfold bind in H.
  destruct (step1' _ _ _ _ _ _) as [[st1|e] w1] eqn:E1; [|discriminate].
  destruct (step2' _ _ _ _ _) as [[st2|e] w2] eqn:E2; [|discriminate].
  inversion H; subst; clear H.
  destruct (fixupStep1_calls _ _ _ _ _ _ _ _ E1) as (new1 & Ht1 & Hc1).
  assert (Hall : Forall2 (fun el tab => exists r, w_dom w1 !! el = Some r
                                                  /\ apiTab r = Some tab)
                   tabElements tabs).
  { apply Forall2_same_length_lookup_2; [exact Hlen|].
    intros i el tab Hel Htab.
    rewrite (fixupStep1_bound _ _ _ _ _ _ _ _ Hnd E1 i el tab Hel Htab).
    destruct (proj1 (fixupStep1_Ok_iff _ _ _ _ _ _)
                (ex_intro _ st1 (ex_intro _ w1 E1))) as [_ Hels].
    rewrite Forall_forall in Hels.
    specialize (Hels el (list_elem_of_lookup_2 _ _ _ Hel)).
    unfold isElementIn in Hels. cbn [w_dom] in *.
    destruct (w_dom w !! el) as [rec|]; [|discriminate].
    eexists. split; reflexivity. }
  destruct (fixupStep2_calls _ _ _ _ _ _ _ _ Hall E2) as (new2 & Ht2 & Hc2).
  exists (new2 ++ new1). split.
  - rewrite Ht2, Ht1. cbn [w_trace]. rewrite app_assoc. reflexivity.
  - rewrite callsOf_app, rev_app_distr, Hc1, Hc2. reflexivity.
Qed.

(** ** The percentages *)

Lemma map_seq_shift {A} (f : nat -> A) (k1 a k2 : nat) :
  map f (seq (k1 + a) k2) = map (fun i => f (k1 + i)%nat) (seq a k2).
Proof.
  revert a. induction k2 as [|k2 IH]; intros a; simpl; [reflexivity|].
  f_equal. rewrite <- IH. f_equal. f_equal. lia.
Qed.

Lemma reportsBetween_app (maxCount count : Z) (k1 k2 : nat) :
  reportsBetween fl maxCount count (k1 + k2)
  = reportsBetween fl maxCount (count + Z.of_nat k1) k2
    ++ reportsBetween fl maxCount count k1.
Proof.
  unfold reportsBetween. rewrite seq_app, map_app, rev_app_distr.
  f_equal. f_equal. rewrite (Nat.add_comm 1 k1), map_seq_shift.
  apply map_ext. intros i. f_equal. lia.
Qed.

Lemma report_progress (maxCount count lastDraw : Z) (w w' : World)
    (r : result (Z * Z)) :
  report' maxCount (count, lastDraw) w = (r, w') ->
  exists new k st',
    r = Ok st' /\ w_trace w' = new ++ w_trace w /\ (k <= 1)%nat
    /\ fst st' = count + Z.of_nat k
    /\ progressReports new = reportsBetween fl maxCount count k.
Proof.
  rewrite reportProgress_eval.
  destruct (_ <? _); intros H; inversion H; subst.
  - exists [ENextFrame; ESetProgress (progressOf fl (count + 1) maxCount)],
      1%nat, (count + 1, w_clock w (S (w_ticks w))).
    repeat split; lia.
  - exists [], O, (count, lastDraw). repeat split; simpl; lia.
Qed.

Lemma progressReports_bindingCalls (tab : Tab) (el : node) :
  progressReports (rev (bindingCalls kAPI_TAB_ID kAPI_WINDOW_ID tab el)) = [].
Proof. reflexivity. Qed.

Lemma progressReports_stateCalls (dirty : bool) (tab : Tab) :
  progressReports (rev (stateCalls dirty tab)) = [].
Proof. destruct dirty; reflexivity. Qed.

Lemma fixupStep1_progress (tabs : list Tab) (maxCount : Z)
    (els : list node) :
  forall (index : nat) (count lastDraw : Z) (w w' : World)
         (r : result (Z * Z)),
    step1' tabs els index maxCount (count, lastDraw) w = (r, w') ->
    exists new k,
      w_trace w' = new ++ w_trace w /\ (k <= length els)%nat
      /\ progressReports new = reportsBetween fl maxCount count k
      /\ forall st', r = Ok st' -> fst st' = count + Z.of_nat k.
Proof.
  induction els as [|el rest IH]; intros index count lastDraw w w' r H.
  - inversion H; subst. exists [], O. repeat split; simpl; try lia.
    intros st' Hst. inversion Hst; subst. simpl. lia.
  - rewrite fixupStep1_cons in H.
    assert (Hstop : (Throw TypeError, w) = (r, w') ->
              exists new k,
                w_trace w' = new ++ w_trace w /\ (k <= length (el :: rest))%nat
                /\ progressReports new = reportsBetween fl maxCount count k
                /\ forall st', r = Ok st' -> fst st' = count + Z.of_nat k).
    { intros H0. inversion H0; subst. exists [], O.
      repeat split; simpl; try lia. discriminate. }
    destruct (tabs !! index) as [tab|] eqn:Etab; [|auto].
    destruct (w_dom w !! el) as [rec|] eqn:Erec; [|auto].
    destruct (isElement rec) eqn:Eel; [|auto]. clear Hstop.
    unfold bind in H.
    destruct (report' maxCount (count, lastDraw) _) as [[st1|e] w1] eqn:Erep.
    + apply report_progress in Erep
        as (new1 & k1 & st1' & Hst1 & Ht1 & Hk1 & Hc1 & Hp1).
      injection Hst1 as <-. destruct st1 as [count1 lastDraw1].
      simpl in Hc1. subst count1.
      destruct (IH _ _ _ _ _ _ H) as (new2 & k2 & Ht2 & Hk2 & Hp2 & Hr2).
      exists (new2 ++ new1
              ++ rev (bindingCalls kAPI_TAB_ID kAPI_WINDOW_ID tab el)),
        (k1 + k2)%nat.
      split; [|split; [|split]].
      * rewrite Ht2, Ht1. wproj.
        rewrite <- !app_assoc. reflexivity.
      * simpl. lia.
      * rewrite !progressReports_app, progressReports_bindingCalls,
          app_nil_r, Hp1, Hp2.
        symmetry. apply reportsBetween_app.
      * intros st' Hst. rewrite (Hr2 st' Hst). lia.
    + apply report_progress in Erep as (? & ? & ? & Hst1 & _).
      discriminate.
Qed.

Lemma fixupStep2_progress (dirty : bool) (maxCount : Z) (els : list node) :
  forall (count lastDraw : Z) (w w' : World) (r : result (Z * Z)),
    step2' dirty els maxCount (count, lastDraw) w = (r, w') ->
    exists new k,
      w_trace w' = new ++ w_trace w /\ (k <= length els)%nat
      /\ progressReports new = reportsBetween fl maxCount count k
      /\ forall st', r = Ok st' -> fst st' = count + Z.of_nat k.
Proof.
  induction els as [|el rest IH]; intros count lastDraw w w' r H.
  - inversion H; subst. exists [], O. repeat split; simpl; try lia.
    intros st' Hst. inversion Hst; subst. simpl. lia.
  - rewrite fixupStep2_cons in H.
    assert (Hstop : (Throw TypeError, w) = (r, w') ->
              exists new k,
                w_trace w' = new ++ w_trace w /\ (k <= length (el :: rest))%nat
                /\ progressReports new = reportsBetween fl maxCount count k
                /\ forall st', r = Ok st' -> fst st' = count + Z.of_nat k).
    { intros H0. inversion H0; subst. exists [], O.
      repeat split; simpl; try lia. discriminate. }
    destruct (w_dom w !! el) as [rec|] eqn:Erec; [|auto].
    destruct (apiTab rec) as [tab|] eqn:Etab; [|auto]. clear Hstop.
    unfold bind in H.
    destruct (report' maxCount (count, lastDraw) _) as [[st1|e] w1] eqn:Erep.
    + apply report_progress in Erep
        as (new1 & k1 & st1' & Hst1 & Ht1 & Hk1 & Hc1 & Hp1).
      injection Hst1 as <-. destruct st1 as [count1 lastDraw1].
      simpl in Hc1. subst count1.
      destruct (IH _ _ _ _ _ H) as (new2 & k2 & Ht2 & Hk2 & Hp2 & Hr2).
      exists (new2 ++ new1 ++ rev (stateCalls dirty tab)), (k1 + k2)%nat.
      split; [|split; [|split]].
      * rewrite Ht2, Ht1. wproj.
        rewrite <- !app_assoc. reflexivity.
      * simpl. lia.
      * rewrite !progressReports_app, progressReports_stateCalls,
          app_nil_r, Hp1, Hp2.
        symmetry. apply reportsBetween_app.
      * intros st' Hst. rewrite (Hr2 st' Hst). lia.
    + apply report_progress in Erep as (? & ? & ? & Hst1 & _).
      discriminate.
Qed.

Lemma fixup_progress_exact (tabElements : list node) (tabs : list Tab)
    (dirty : bool) (w w' : World) (r : result unit) :
  fixup' tabElements tabs dirty w = (r, w') ->
  exists new k,
    w_trace w' = new ++ w_trace w
    /\ (k <= 2 * length tabElements)%nat
    /\ progressReports new
       = reportsBetween fl (Z.of_nat (length tabElements) * 2) 0 k.
Proof.
  unfold fixupTabsRestoredFromCache.
  destruct (negb _).
  { intros H; inversion H; subst. exists [], O.
    repeat split; [lia]. }
  unfold bind at 1. cbn [dateNow]. unfold bind at 1.
  destruct (step1' _ _ _ _ _ _) as [[[count1 lastDraw1]|e] w1] eqn:E1.
  - apply fixupStep1_progress in E1 as (new1 & k1 & Ht1 & Hk1 & Hp1 & Hr1).
    specialize (Hr1 _ eq_refl). simpl in Hr1. subst count1.
    unfold bind.
    destruct (step2' _ _ _ _ _) as [[st2|e] w2] eqn:E2.
    + apply fixupStep2_progress in E2 as (new2 & k2 & Ht2 & Hk2 & Hp2 & _).
      intros H; inversion H; subst.
      exists (new2 ++ new1), (k1 + k2)%nat. split; [|split].
      * rewrite Ht2, Ht1. cbn [w_trace]. rewrite app_assoc. reflexivity.
      * lia.
      * rewrite progressReports_app, Hp1, Hp2. symmetry.
        apply reportsBetween_app.
    + apply fixupStep2_progress in E2 as (new2 & k2 & Ht2 & Hk2 & Hp2 & _).
      intros H; inversion H; subst.
      exists (new2 ++ new1), (k1 + k2)%nat. split; [|split].
      * rewrite Ht2, Ht1. cbn [w_trace]. rewrite app_assoc. reflexivity.
      * lia.
      * rewrite progressReports_app, Hp1, Hp2. symmetry.
        apply reportsBetween_app.
  - apply fixupStep1_progress in E1 as (new1 & k1 & Ht1 & Hk1 & Hp1 & _).
    intros H; inversion H; subst.
    exists new1, k1. split; [exact Ht1|]. split; [lia | exact Hp1].
Qed.

(** X13. Whatever its outcome, the percentages the pass reports are those
    of the counts 1, 2, ... up to some count, in this order and without a
    gap; there are at most two for each element. *)
Theorem fixup_progress_counts (tabElements : list node) (tabs : list Tab)
    (dirty : bool) (w w' : World) (r : result unit) :
  fixup' tabElements tabs dirty w = (r, w') ->
  exists new k,
    w_trace w' = new ++ w_trace w
    /\ (k <= 2 * length tabElements)%nat
    /\ progressReports new
       = reportsBetween fl (Z.of_nat (length tabElements) * 2) 0 k.
Proof. apply fixup_progress_exact. Qed.

End FixupTheorems.

Lemma fixup_succeeds_iff_witness :
  exists w', fixupTabsRestoredFromCache dataTabId dataWindowId 16 flExact
               [0%nat] [plainTab 1 None] false sidebarOneElement
             = (Ok tt, w').
Proof.
  apply (proj2 (fixup_succeeds_iff dataTabId dataWindowId 16 flExact
                  [0%nat] [plainTab 1 None] false
                  sidebarOneElement)).
  split; [reflexivity|]. repeat constructor.
Defined.

Lemma map_seq_lookup {A} (f : nat -> A) (k : nat) :
  forall (a i : nat) (x : A),
    map f (seq a k) !! i = Some x -> x = f (a + i)%nat /\ (i < k)%nat.
Proof.
  induction k as [|k IH]; intros a i x H; [destruct i; discriminate|].
  destruct i as [|i]; simpl in H.
  - injection H as <-. rewrite Nat.add_0_r. split; [reflexivity | lia].
  - apply IH in H as [-> Hi].
    split; [f_equal; lia | lia].
Qed.

Section ProgressOrder.
Variables kAPI_TAB_ID kAPI_WINDOW_ID : jsstring.
Variable kPROGRESS_INTERVAL : Z.
Variable fl : Q -> Q.
Hypothesis fl_monotone : forall x y : Q, (x <= y)%Q -> (fl x <= fl y)%Q.

Lemma progressOf_monotone (maxCount a b : Z) :
  0 < maxCount -> a <= b ->
  progressOf fl a maxCount <= progressOf fl b maxCount.
Proof.
  intros Hm Hab. unfold progressOf.
  apply Z.add_le_mono_r. apply Qfloor_resp_le.
  apply Qplus_le_compat; [|apply Qle_refl].
  apply fl_monotone. apply Qmult_le_compat_r; [|discriminate].
  apply fl_monotone. unfold Qdiv. apply Qmult_le_compat_r.
  - rewrite <- Zle_Qle. exact Hab.
  - apply Qinv_le_0_compat. change 0%Q with (inject_Z 0).
    rewrite <- Zle_Qle. lia.
Qed.

(** X14. The percentages the pass reports never decrease, for a rounding
    to doubles that is monotone. *)
Theorem fixup_progress_monotone (tabElements : list node) (tabs : list Tab)
    (dirty : bool) (w w' : World) (r : result unit) (new : list Event)
    (i j : nat) (a b : Z) :
  fixupTabsRestoredFromCache kAPI_TAB_ID kAPI_WINDOW_ID kPROGRESS_INTERVAL
    fl tabElements tabs dirty w = (r, w') ->
  w_trace w' = new ++ w_trace w ->
  (i <= j)%nat ->
  rev (progressReports new) !! i = Some a ->
  rev (progressReports new) !! j = Some b ->
  a <= b.
Proof.
  intros H Hnew Hij Ha Hb.
  apply fixup_progress_exact in H as (new' & k & Ht & Hk & Hp).
  assert (new = new') as ->.
  { apply (app_inv_tail (w_trace w)). congruence. }
  rewrite Hp in Ha, Hb. unfold reportsBetween in Ha, Hb.
  rewrite rev_involutive in Ha, Hb.
  apply map_seq_lookup in Ha as [-> Hi].
  apply map_seq_lookup in Hb as [-> Hj].
  apply progressOf_monotone; lia.
Qed.
End ProgressOrder.

Section Quiet.
Variables kAPI_TAB_ID kAPI_WINDOW_ID : jsstring.
Variable kPROGRESS_INTERVAL : Z.
Variable fl : Q -> Q.

Lemma quietly_refl (w : World) : quietly w w.
Proof. exists []. split; [reflexivity | constructor]. Qed.

Lemma quietly_trans (a b c : World) :
  quietly a b -> quietly b c -> quietly a c.
Proof.
  intros (n1 & H1 & F1) (n2 & H2 & F2). exists (n2 ++ n1). split.
  - rewrite H2, H1, app_assoc. reflexivity.
  - apply Forall_app. split; assumption.
Qed.

Lemma quietly_calls (calls : list Event) (w w0 : World) :
  Forall (fun e => isProgressEvent e = false) calls ->
  w_trace w0 = w_trace w ->
  quietly w (afterCalls calls w0).
Proof.
  intros Hc Ht. exists (rev calls). split.
  - cbn [afterCalls withTrace w_trace]. rewrite Ht. reflexivity.
  - apply Forall_rev. exact Hc.
Qed.

Lemma report_quiet (maxCount : Z) (st : Z * Z) (w : World) :
  withinInterval kPROGRESS_INTERVAL (snd st) w ->
  reportProgress kPROGRESS_INTERVAL fl maxCount st w
  = (Ok st, withTicks (S (w_ticks w)) w).
Proof.
  intros Hq. destruct st as [count lastDraw]. rewrite reportProgress_eval.
  destruct (Z.ltb_spec kPROGRESS_INTERVAL (w_clock w (w_ticks w) - lastDraw))
    as [Hlt|_]; [|reflexivity].
  specialize (Hq (w_ticks w) (le_n _)). simpl in Hq. lia.
Qed.

Lemma fixupStep1_quiet (tabs : list Tab) (maxCount : Z) (els : list node) :
  forall (index : nat) (st : Z * Z) (w w' : World) (r : result (Z * Z)),
    withinInterval kPROGRESS_INTERVAL (snd st) w ->
    fixupStep1 kAPI_TAB_ID kAPI_WINDOW_ID kPROGRESS_INTERVAL fl tabs els
      index maxCount st w = (r, w') ->
    quietly w w' /\ withinInterval kPROGRESS_INTERVAL (snd st) w'
    /\ forall st', r = Ok st' -> st' = st.
Proof.
  induction els as [|el rest IH]; intros index st w w' r Hq H.
  - inversion H; subst. split; [apply quietly_refl|]. split; [exact Hq|].
    intros st' Hst. congruence.
  - rewrite fixupStep1_cons in H.
    assert (Hstop : (Throw TypeError, w) = (r, w') ->
              quietly w w' /\ withinInterval kPROGRESS_INTERVAL (snd st) w'
              /\ forall st', r = Ok st' -> st' = st).
    { intros H0. inversion H0; subst.
      split; [apply quietly_refl|]. split; [exact Hq | discriminate]. }
    destruct (tabs !! index) as [tab|]; [|auto].
    destruct (w_dom w !! el) as [rec|]; [|auto].
    destruct (isElement rec); [|auto]. clear Hstop.
    unfold bind in H. rewrite report_quiet in H by exact Hq.
    apply IH in H as (Hw & Hq' & Hst).
    + split; [|split; assumption].
      eapply quietly_trans; [|exact Hw].
      destruct (quietly_calls
                  (bindingCalls kAPI_TAB_ID kAPI_WINDOW_ID tab el) w
                  (withTabs (<[tab_id tab := Some el]> (w_tabs w))
                     (withDom (<[el := boundRecord kAPI_TAB_ID kAPI_WINDOW_ID
                                       tab rec]> (w_dom w)) w)))
        as (new & Hn & Hf); [repeat constructor | reflexivity|].
      exists new. split; [exact Hn | exact Hf].
    + intros j Hj. apply Hq. simpl in Hj. lia.
Qed.

Lemma fixupStep2_quiet (dirty : bool) (maxCount : Z) (els : list node) :
  forall (st : Z * Z) (w w' : World) (r : result (Z * Z)),
    withinInterval kPROGRESS_INTERVAL (snd st) w ->
    fixupStep2 kPROGRESS_INTERVAL fl dirty els maxCount st w = (r, w') ->
    quietly w w'.
Proof.
  induction els as [|el rest IH]; intros st w w' r Hq H.
  - inversion H; subst. apply quietly_refl.
  - rewrite fixupStep2_cons in H.
    destruct (w_dom w !! el) as [rec|];
      [|inversion H; subst; apply quietly_refl].
    destruct (apiTab rec) as [tab|];
      [|inversion H; subst; apply quietly_refl].
    unfold bind in H. rewrite report_quiet in H by exact Hq.
    apply IH in H.
    + eapply quietly_trans; [|exact H].
      destruct (quietly_calls (stateCalls dirty tab) w w)
        as (new & Hn & Hf); [|reflexivity|].
      * destruct dirty; repeat constructor.
      * exists new. split; [exact Hn | exact Hf].
    + intros j Hj. apply Hq. simpl in Hj. lia.
Qed.

(** X15. A pass during which the clock never advances by more than the
    progress interval reports no progress and is never suspended: all it
    adds to the trace are its calls to the tab model. *)
Theorem fixup_quiet (tabElements : list node) (tabs : list Tab)
    (dirty : bool) (w w' : World) (r : result unit) :
  (forall i j, (w_ticks w <= i <= j)%nat ->
               w_clock w j - w_clock w i <= kPROGRESS_INTERVAL) ->
  fixupTabsRestoredFromCache kAPI_TAB_ID kAPI_WINDOW_ID kPROGRESS_INTERVAL
    fl tabElements tabs dirty w = (r, w') ->
  exists new, w_trace w' = new ++ w_trace w
              /\ Forall (fun e => isProgressEvent e = false) new.
Proof.
  intros Hclock. unfold fixupTabsRestoredFromCache.
  destruct (negb _).
  { intros H; inversion H; subst. apply quietly_refl. }
  unfold bind at 1. cbn [dateNow]. unfold bind at 1.
  set (w0 := mkWorld _ _ _ _ _ _ _ _).
  assert (Hq : withinInterval kPROGRESS_INTERVAL (w_clock w (w_ticks w)) w0).
  { intros j Hj. apply Hclock. simpl in Hj. lia. }
  assert (H0 : quietly w w0).
  { exists []. split; [reflexivity | constructor]. }
  destruct (fixupStep1 _ _ _ _ _ _ _ _ _ _) as [[st1|e] w1] eqn:E1.
  - apply fixupStep1_quiet in E1 as (Hw1 & Hq1 & Hst); [|exact Hq].
    specialize (Hst _ eq_refl). subst st1. unfold bind.
    destruct (fixupStep2 _ _ _ _ _ _ _) as [[st2|e] w2] eqn:E2.
    + apply fixupStep2_quiet in E2; [|exact Hq1].
      intros H. injection H as _ <-.
      exact (quietly_trans _ _ _ H0 (quietly_trans _ _ _ Hw1 E2)).
    + apply fixupStep2_quiet in E2; [|exact Hq1].
      intros H. injection H as _ <-.
      exact (quietly_trans _ _ _ H0 (quietly_trans _ _ _ Hw1 E2)).
  - apply fixupStep1_quiet in E1 as (Hw1 & _ & _); [|exact Hq].
    intros H. injection H as _ <-.
    exact (quietly_trans _ _ _ H0 Hw1).
Qed.

(** Both steps raise nothing but a TypeError. *)
Lemma fixupStep1_raises (tabs : list Tab) (maxCount : Z) (els : list node) :
  forall (index : nat) (st : Z * Z) (w w' : World) (e : exn),
    fixupStep1 kAPI_TAB_ID kAPI_WINDOW_ID kPROGRESS_INTERVAL fl tabs els
      index maxCount st w = (Throw e, w') ->
    e = TypeError.
Proof.
  induction els as [|el rest IH]; intros index st w w' e H;
    [discriminate|].
  rewrite fixupStep1_cons in H.
  destruct (tabs !! index) as [tab|]; [|congruence].
  destruct (w_dom w !! el) as [rec|]; [|congruence].
  destruct (isElement rec); [|congruence].
  unfold bind in H.
  destruct (reportProgress _ _ _ _ _) as [[st1|e1] w1] eqn:Erep.
  - eapply IH. exact H.
  - apply report_inv in Erep as [_ [st' Hst]]. discriminate.
Qed.

Lemma fixupStep2_raises (dirty : bool) (maxCount : Z) (els : list node) :
  forall (st : Z * Z) (w w' : World) (e : exn),
    fixupStep2 kPROGRESS_INTERVAL fl dirty els maxCount st w
    = (Throw e, w') ->
    e = TypeError.
Proof.
  induction els as [|el rest IH]; intros st w w' e H; [discriminate|].
  rewrite fixupStep2_cons in H.
  destruct (w_dom w !! el) as [rec|]; [|congruence].
  destruct (apiTab rec) as [tab|]; [|congruence].
  unfold bind in H.
  destruct (reportProgress _ _ _ _ _) as [[st1|e1] w1] eqn:Erep.
  - eapply IH. exact H.
  - apply report_inv in Erep as [_ [st' Hst]]. discriminate.
Qed.

Lemma fixup_raises_cases (tabElements : list node) (tabs : list Tab)
    (dirty : bool) (w w' : World) (e : exn) :
  fixupTabsRestoredFromCache kAPI_TAB_ID kAPI_WINDOW_ID kPROGRESS_INTERVAL
    fl tabElements tabs dirty w = (Throw e, w') ->
  (length tabElements <> length tabs
   /\ e = Error (mismatchMessage (length tabElements) (length tabs))
   /\ w' = w)
  \/ (length tabElements = length tabs /\ e = TypeError).
Proof.
  unfold fixupTabsRestoredFromCache.
  destruct (Nat.eqb_spec (length tabElements) (length tabs)) as [Hlen|Hlen];
    cbn [negb].
  - intros H. right. split; [exact Hlen|].
    unfold bind at 1 in H. cbn [dateNow] in H. unfold bind at 1 in H.
    destruct (fixupStep1 _ _ _ _ _ _ _ _ _ _) as [[st1|e1] w1] eqn:E1.
    + unfold bind in H.
      destruct (fixupStep2 _ _ _ _ _ _ _) as [[st2|e2] w2] eqn:E2;
        [discriminate|].
      inversion H; subst. eapply fixupStep2_raises. exact E2.
    + inversion H; subst. eapply fixupStep1_raises. exact E1.
  - intros H. inversion H; subst. left. auto.
Qed.

End Quiet.

Lemma fixup_progress_monotone_witness :
  50 <= 66.
Proof.
  apply (fixup_progress_monotone dataTabId dataWindowId 16 flExact
           (fun x y H => H) [0%nat] [plainTab 1 None] false
           sidebarOneElement (snd (fixupExample sidebarOneElement))
           (fst (fixupExample sidebarOneElement))
           [ENextFrame; ESetProgress 66;
            EApplyCollapseExpandState 1; EApplyStates 1;
            ENextFrame; ESetProgress 50;
            ETabSetAttribute 1 dataWindowId (lit "1");
            ETabSetAttribute 1 dataTabId (lit "1");
            ETabSetAttribute 1 attrId (lit "tab-1");
            ETabInit 1; EBindElement 1 0%nat] 0%nat 1%nat 50 66).
  - vm_compute. reflexivity.
  - vm_compute. reflexivity.
  - lia.
  - reflexivity.
  - reflexivity.
Defined.

(* ================================================================== *)
(** * The outcome of a restoration *)
(* ================================================================== *)

Lemma raisesOnly_bind {A B} (P : exn -> Prop) (m : M A) (f : A -> M B) :
  raisesOnly P m -> (forall a, raisesOnly P (f a)) ->
  raisesOnly P (bind m f).
Proof.
  intros Hm Hf w e w' H. unfold bind in H.
  destruct (m w) as [[a|e1] w1] eqn:E.
  - eapply Hf. exact H.
  - inversion H; subst. eapply Hm. exact E.
Qed.

Lemma raisesOnly_ret {A} (P : exn -> Prop) (a : A) : raisesOnly P (ret a).
Proof. intros w e w' H. discriminate. Qed.

Lemma raisesOnly_throw {A} (P : exn -> Prop) (e : exn) :
  P e -> raisesOnly P (@throw A e).
Proof. intros He w e' w' H. inversion H; subst. exact He. Qed.

Lemma raisesOnly_deref {A} (P : exn -> Prop) (o : option A) :
  P TypeError -> raisesOnly P (deref o).
Proof.
  intros HP w e w' H. destruct o; inversion H; subst. exact HP.
Qed.

Lemma raisesOnly_derefOf {A} (P : exn -> Prop) (g : World -> option A) :
  P TypeError -> raisesOnly P (fun w => deref (g w) w).
Proof.
  intros HP w e w' H. destruct (g w); inversion H; subst. exact HP.
Qed.

Lemma raisesOnly_getDom (P : exn -> Prop) : raisesOnly P getDom.
Proof. intros w e w' H. discriminate. Qed.

Lemma raisesOnly_putDom (P : exn -> Prop) (d : DOM) :
  raisesOnly P (putDom d).
Proof. intros w e w' H. discriminate. Qed.

Lemma raisesOnly_emit (P : exn -> Prop) (ev : Event) :
  raisesOnly P (emit ev).
Proof. intros w e w' H. discriminate. Qed.

Lemma raisesOnly_liftResult {A} (P : exn -> Prop) (r : result A) :
  (forall e, r = Throw e -> P e) -> raisesOnly P (liftResult r).
Proof.
  intros Hr w e w' H. unfold liftResult in H. inversion H; subst.
  apply Hr. reflexivity.
Qed.

Lemma raisesOnly_liftDom (P : exn -> Prop) (f : DOM -> result DOM) :
  (forall d e, f d = Throw e -> P e) -> raisesOnly P (liftDom f).
Proof.
  intros Hf w e w' H. unfold liftDom in H.
  destruct (f (w_dom w)) as [d|e1] eqn:E; inversion H; subst.
  eapply Hf. exact E.
Qed.

Lemma raisesOnly_tabElementOf (P : exn -> Prop) (id : Z) :
  P TypeError -> raisesOnly P (tabElementOf id).
Proof.
  intros HP w e w' H. unfold tabElementOf in H.
  destruct (w_tabs w !! id) as [[el|]|]; inversion H; subst; exact HP.
Qed.

Lemma raisesOnly_setElementAttribute (P : exn -> Prop) (el : node)
    (name value : jsstring) :
  P TypeError -> raisesOnly P (setElementAttribute el name value).
Proof.
  intros HP w e w' H. unfold setElementAttribute in H.
  destruct (w_dom w !! el) as [r|]; [destruct (isElement r)|];
    inversion H; subst; exact HP.
Qed.

Lemma raisesOnly_createContextualFragment (P : exn -> Prop)
    (parseHTML : jsstring -> list tree) (source : jsstring) :
  raisesOnly P (createContextualFragment parseHTML source).
Proof.
  intros w e w' H. unfold createContextualFragment in H.
  destruct (allocForest _ _ _) as [ks [d2 next]]. discriminate.
Qed.

(** The operations of the DOM raise DOM exceptions. *)
Lemma insertNode_raises (r : Range) (f : node) (d : DOM) (e : exn) :
  insertNode r f d = Throw e -> e = DOMException.
Proof.
  unfold insertNode. destruct (rangeStart r) as [parent offset].
  destruct (d !! parent); [discriminate | congruence].
Qed.

Lemma removeChild_raises (parent child : node) (d : DOM) (e : exn) :
  removeChild parent child d = Throw e -> e = DOMException.
Proof.
  unfold removeChild. destruct (parentOf d child) as [p|]; [|congruence].
  destruct (Nat.eqb p parent); [discriminate | congruence].
Qed.

Lemma appendChild_raises (parent child : node) (d : DOM) (e : exn) :
  appendChild parent child d = Throw e -> e = DOMException.
Proof.
  unfold appendChild. destruct (isInclusiveAncestor d child parent);
    [congruence | discriminate].
Qed.

Section RestoreOutcome.
Variable parseHTML : jsstring -> list tree.
Variables kAPI_TAB_ID kAPI_WINDOW_ID : jsstring.
Variable kPROGRESS_INTERVAL : Z.
Variable fl : Q -> Q.

Ltac raises_step :=
  first
    [ apply raisesOnly_ret
    | apply raisesOnly_getDom
    | apply raisesOnly_putDom
    | apply raisesOnly_emit
    | apply raisesOnly_createContextualFragment
    | apply raisesOnly_deref; left; reflexivity
    | apply raisesOnly_derefOf; left; reflexivity
    | apply raisesOnly_tabElementOf; left; reflexivity
    | apply raisesOnly_setElementAttribute; left; reflexivity
    | apply raisesOnly_throw; left; reflexivity
    | apply raisesOnly_liftResult; intros ? ?; right;
      first [ eapply setStartBefore_raises; eassumption
            | eapply setEndAfter_raises; eassumption
            | eapply insertNode_raises; eassumption ]
    | apply raisesOnly_liftDom; intros ? ? ?; right;
      first [ eapply removeChild_raises; eassumption
            | eapply appendChild_raises; eassumption ] ].

Lemma restoreTree_raises (params : RestoreParams) :
  raisesOnly isBuiltinError (restoreTree parseHTML params).
Proof.
  unfold restoreTree.
  apply raisesOnly_bind; [raises_step|]. intros container.
  destruct (0 <? offsetOf params).
  - apply raisesOnly_bind; [raises_step|]. intros d.
    destruct container as [container|]; [|raises_step].
    destruct (_ <=? _); [raises_step|].
    repeat (apply raisesOnly_bind; [try raises_step | intros ?]);
      try raises_step.
    intros w e w' H. destruct (forallb _ _); inversion H; subst.
    left. reflexivity.
  - apply raisesOnly_bind.
    { destruct container as [container|]; [|raises_step].
      repeat (apply raisesOnly_bind; [raises_step | intros ?]).
      raises_step. }
    intros _.
    apply raisesOnly_bind.
    { destruct (p_insertionPoint params); [raises_step|].
      intros w e w' H. discriminate. }
    intros insertionPoint.
    repeat (apply raisesOnly_bind; [try raises_step | intros ?]);
      try raises_step.
    match goal with b : bool |- _ => destruct b end; raises_step.
Qed.

Lemma finishRestoration_raises (params : RestoreParams) (container : node)
    (tabElements : list node) :
  raisesOnly isBuiltinError
    (finishRestoration kAPI_TAB_ID kAPI_WINDOW_ID kPROGRESS_INTERVAL fl
       params container tabElements).
Proof.
  unfold finishRestoration.
  destruct (Nat.eqb_spec (length tabElements) (length (tabsOf params)))
    as [Hlen|Hlen]; cbn [negb].
  - repeat (apply raisesOnly_bind; [try raises_step | intros ?]);
      try raises_step.
    intros w e w' H. apply fixup_raises_cases in H as [(Hne & _) | [_ ->]].
    + contradiction.
    + left. reflexivity.
  - repeat (apply raisesOnly_bind; [raises_step | intros ?]). raises_step.
Qed.

(** X17. A restoration that fails raises a TypeError or a DOM exception:
    the error of the fixup pass about mismatched numbers is never raised,
    as the numbers have been compared before the pass is run. *)
Theorem restore_raises (params : RestoreParams) (w w' : World) (e : exn) :
  restoreTabsFromCacheInternal parseHTML kAPI_TAB_ID kAPI_WINDOW_ID
    kPROGRESS_INTERVAL fl params w = (Throw e, w') ->
  e = TypeError \/ e = DOMException.
Proof.
  revert w e w'. change (raisesOnly isBuiltinError
    (restoreTabsFromCacheInternal parseHTML kAPI_TAB_ID kAPI_WINDOW_ID
       kPROGRESS_INTERVAL fl params)).
  unfold restoreTabsFromCacheInternal.
  apply raisesOnly_bind; [apply restoreTree_raises|].
  intros [[container tabElements]|]; [|apply raisesOnly_ret].
  apply finishRestoration_raises.
Qed.
End RestoreOutcome.

(** ** What the writes keep *)

Lemma samePayload_refl (d : DOM) : samePayload d d.
Proof. intros n. reflexivity. Qed.

Lemma samePayload_trans (a b c : DOM) :
  samePayload a b -> samePayload b c -> samePayload a c.
Proof. intros H1 H2 n. rewrite H2. apply H1. Qed.

Lemma samePayload_updateNode (f : NodeRec -> NodeRec) (n : node) (d : DOM) :
  (forall r, payload (f r) = payload r) ->
  samePayload d (updateNode f n d).
Proof.
  intros Hf m. rewrite updateNode_lookup.
  destruct (decide (n = m)); [|reflexivity].
  destruct (d !! m) as [r|]; simpl; [rewrite Hf|]; reflexivity.
Qed.

Lemma samePayload_detach (n : node) (d : DOM) : samePayload d (detach n d).
Proof.
  unfold detach. destruct (parentOf d n) as [p|]; [|apply samePayload_refl].
  match goal with
  | |- samePayload d (updateNode _ _ ?d1) => apply (samePayload_trans d d1)
  end; apply samePayload_updateNode; reflexivity.
Qed.

Lemma samePayload_fold {A} (f : DOM -> A -> DOM) (xs : list A) :
  (forall d x, samePayload d (f d x)) ->
  forall d, samePayload d (fold_left f xs d).
Proof.
  intros Hf. induction xs as [|x xs IH]; intros d; simpl.
  - apply samePayload_refl.
  - eapply samePayload_trans; [apply Hf | apply IH].
Qed.

Lemma samePayload_insertAt (parent : node) (i : nat) (ns : list node)
    (d : DOM) :
  samePayload d (insertAt parent i ns d).
Proof.
  unfold insertAt.
  set (d1 := fold_left (fun d n => detach n d) ns d).
  assert (H1 : samePayload d d1).
  { apply (samePayload_fold (fun d n => detach n d)).
    intros d0 x. apply samePayload_detach. }
  apply (samePayload_trans _ _ _ H1).
  match goal with
  | |- samePayload d1 (fold_left _ _ ?d2) =>
      apply (samePayload_trans d1 d2)
  end.
  - apply samePayload_updateNode. reflexivity.
  - apply (samePayload_fold
             (fun d n => updateNode (setParent (Some parent)) n d)).
    intros d0 x. apply samePayload_updateNode. reflexivity.
Qed.

Lemma samePayload_appendChild (parent child : node) (d d' : DOM) :
  appendChild parent child d = Ok d' -> samePayload d d'.
Proof.
  unfold appendChild. destruct (isInclusiveAncestor d child parent);
    [discriminate|].
  intros H. injection H as <-.
  eapply samePayload_trans;
    [apply samePayload_detach | apply samePayload_insertAt].
Qed.

Lemma samePayload_hasTabOf (tabs : list Tab) (d d' : DOM) (n : node) :
  samePayload d d' -> hasTabOf tabs d n -> hasTabOf tabs d' n.
Proof.
  intros H (r & tab & Hr & Hel & Htab & Hin). specialize (H n).
  rewrite Hr in H. destruct (d' !! n) as [r'|] eqn:Er'; [|discriminate].
  simpl in H. unfold payload in H. injection H as H1 H2 H3 H4.
  exists r', tab. repeat split; congruence.
Qed.

Lemma samePayload_isElementIn (d d' : DOM) (n : node) :
  samePayload d d' -> isElementIn d' n = isElementIn d n.
Proof.
  intros H. specialize (H n). unfold isElementIn.
  destruct (d !! n) as [r|], (d' !! n) as [r'|]; try discriminate;
    [|reflexivity].
  simpl in H. unfold payload in H. injection H as H1 H2 H3 H4. exact H1.
Qed.

Lemma sameTree_parentOf (d d' : DOM) (n : node) :
  sameTree d d' -> parentOf d' n = parentOf d n.
Proof.
  intros H. destruct (H n) as (Hp & _ & _). unfold parentOf.
  destruct (d !! n), (d' !! n); try discriminate; [|reflexivity].
  injection Hp as ->. reflexivity.
Qed.

Lemma sameTree_childrenOf (d d' : DOM) (n : node) :
  sameTree d d' -> childrenOf d' n = childrenOf d n.
Proof.
  intros H. destruct (H n) as (_ & Hc & _). unfold childrenOf.
  destruct (d !! n), (d' !! n); try discriminate; [|reflexivity].
  injection Hc as ->. reflexivity.
Qed.

Section RestoreResult.
Variable parseHTML : jsstring -> list tree.
Variables kAPI_TAB_ID kAPI_WINDOW_ID : jsstring.
Variable kPROGRESS_INTERVAL : Z.
Variable fl : Q -> Q.

Abbreviation restore' :=
  (restoreTabsFromCacheInternal parseHTML kAPI_TAB_ID kAPI_WINDOW_ID
     kPROGRESS_INTERVAL fl).

(** Step 1 leaves every element of its list with one of the tab
    records. *)
Lemma fixupStep1_hasTab (tabs : list Tab) (maxCount : Z) (els : list node) :
  forall (index : nat) (st st' : Z * Z) (w w' : World),
    fixupStep1 kAPI_TAB_ID kAPI_WINDOW_ID kPROGRESS_INTERVAL fl tabs els
      index maxCount st w = (Ok st', w') ->
    (forall n, hasTabOf tabs (w_dom w) n -> hasTabOf tabs (w_dom w') n)
    /\ Forall (hasTabOf tabs (w_dom w')) els.
Proof.
  induction els as [|el0 rest IH]; intros index st st' w w' H.
  - inversion H; subst. split; [auto | constructor].
  - rewrite fixupStep1_cons in H.
    destruct (tabs !! index) as [tab0|] eqn:Etab; [|discriminate].
    destruct (w_dom w !! el0) as [rec|] eqn:Erec; [|discriminate].
    destruct (isElement rec) eqn:Eel; [|discriminate].
    unfold bind in H.
    destruct (reportProgress _ _ _ _ _) as [[st1|e] w1] eqn:Erep;
      [|discriminate].
    apply report_inv in Erep as [Hdom _]. wproj_in Hdom.
    destruct (IH _ _ _ _ _ H) as [Hkeep Hall].
    assert (Hbound : hasTabOf tabs (w_dom w1) el0).
    { exists (boundRecord kAPI_TAB_ID kAPI_WINDOW_ID tab0 rec), tab0.
      rewrite Hdom, lookup_insert_eq.
      repeat split; [exact Eel|].
      apply list_elem_of_In. eapply list_elem_of_lookup_2. exact Etab. }
    assert (Hstep : forall n, hasTabOf tabs (w_dom w) n ->
                              hasTabOf tabs (w_dom w1) n).
    { intros n Hn. destruct (decide (el0 = n)) as [<-|Hne]; [exact Hbound|].
      destruct Hn as (r & tab & Hr & Hn). exists r, tab.
      rewrite Hdom, lookup_insert_ne by exact Hne. auto. }
    split.
    + intros n Hn. apply Hkeep, Hstep, Hn.
    + constructor; [apply Hkeep, Hbound | exact Hall].
Qed.

Lemma fixup_hasTab (tabElements : list node) (tabs : list Tab)
    (dirty : bool) (w w' : World) :
  fixupTabsRestoredFromCache kAPI_TAB_ID kAPI_WINDOW_ID kPROGRESS_INTERVAL
    fl tabElements tabs dirty w = (Ok tt, w') ->
  Forall (hasTabOf tabs (w_dom w')) tabElements.
Proof.
  intros H. unfold fixupTabsRestoredFromCache in H.
  destruct (negb _); [discriminate|].
  unfold bind at 1 in H. cbn [dateNow] in H. unfold bind in H.
  destruct (fixupStep1 _ _ _ _ _ _ _ _ _ _) as [[st1|e] w1] eqn:E1;
    [|discriminate].
  destruct (fixupStep2 _ _ _ _ _ _ _) as [[st2|e] w2] eqn:E2;
    [|discriminate].
  inversion H; subst; clear H.
  rewrite (fixupStep2_dom _ _ _ _ _ _ _ _ _ E2).
  apply (fixupStep1_hasTab _ _ _ _ _ _ _ _ E1).
Qed.

Lemma liftDom_Ok (f : DOM -> result DOM) (w w' : World) (u : unit) :
  liftDom f w = (Ok u, w') ->
  exists d, f (w_dom w) = Ok d /\ w' = withDom d w.
Proof.
  unfold liftDom. destruct (f (w_dom w)) as [d|e]; [|discriminate].
  intros H. inversion H. eauto.
Qed.

(** X18. A restoration that returns elements returns as many as there are
    tab records to restore, and each of them is by then an element that
    carries one of these records. *)
Theorem restore_result (params : RestoreParams) (w w' : World)
    (tabElements : list node) :
  restore' params w = (Ok tabElements, w') ->
  tabElements = []
  \/ (length tabElements = length (tabsOf params)
      /\ Forall (hasTabOf (tabsOf params) (w_dom w')) tabElements).
Proof.
  intros H. unfold restoreTabsFromCacheInternal in H.
  apply bind_Ok_inv in H as (restored & w1 & _ & H).
  destruct restored as [[container els]|];
    [|inversion H; subst; left; reflexivity].
  unfold finishRestoration in H.
  destruct (Nat.eqb_spec (length els) (length (tabsOf params)))
    as [Hlen|Hlen]; cbn [negb] in H.
  - apply bind_Ok_inv in H as (d & wa & Hd & H).
    apply bind_Ok_inv in H as (parent & wb & _ & H).
    apply bind_Ok_inv in H as (u1 & wc & _ & H).
    apply bind_Ok_inv in H as (u2 & wd & Hfix & H).
    apply bind_Ok_inv in H as (u3 & we & Happ & H).
    inversion H; subst; clear H. right. split; [exact Hlen|].
    destruct u2. apply fixup_hasTab in Hfix.
    apply liftDom_Ok in Happ as (d' & Happ & ->).
    apply samePayload_appendChild in Happ.
    eapply Forall_impl; [exact Hfix|].
    intros n Hn. eapply samePayload_hasTabOf; [exact Happ | exact Hn].
  - apply bind_Ok_inv in H as (d & wa & _ & H).
    apply bind_Ok_inv in H as (parent & wb & _ & H).
    apply bind_Ok_inv in H as (u1 & wc & _ & H).
    inversion H; subst. left. reflexivity.
Qed.

(** X19. When the tree has been restored with the right number of nodes
    of which one is not an element, the fixup pass fails with a TypeError
    and the restoration with it; the container, taken out of the document
    for the pass, is not put back. *)
Theorem restore_fixup_failure (params : RestoreParams) (w w1 : World)
    (container parent : node) (tabElements : list node) :
  restoreTree parseHTML params w
  = (Ok (Some (container, tabElements)), w1) ->
  parentOf (w_dom w1) container = Some parent ->
  length tabElements = length (tabsOf params) ->
  ~ Forall (fun el => isElementIn (w_dom w1) el = true) tabElements ->
  exists w2,
    restore' params w = (Throw TypeError, w2)
    /\ parentOf (w_dom w2) container = None
    /\ ~ In container (childrenOf (w_dom w2) parent).
Proof.
  intros Htree Hparent Hlen Hbad.
  unfold restoreTabsFromCacheInternal. unfold bind at 1. rewrite Htree.
  unfold finishRestoration.
  apply Nat.eqb_eq in Hlen. rewrite Hlen. cbn [negb].
  apply Nat.eqb_eq in Hlen.
  unfold bind at 1. cbn [getDom]. unfold bind at 1.
  rewrite Hparent. cbn [deref ret]. unfold bind at 1.
  unfold liftDom, removeChild. rewrite Hparent, Nat.eqb_refl.
  set (w2 := withDom (detach container (w_dom w1)) w1).
  unfold bind at 1.
  destruct (fixupTabsRestoredFromCache _ _ _ _ _ _ _ w2)
    as [[[]|e] w3] eqn:Efix.
  - exfalso. apply Hbad.
    destruct (proj1 (fixup_Ok_iff _ _ _ _ _ _ _ _)
                (ex_intro _ w3 Efix)) as [_ Hels].
    eapply Forall_impl; [exact Hels|]. intros n Hn. simpl in Hn.
    rewrite <- Hn. symmetry.
    apply samePayload_isElementIn, samePayload_detach.
  - pose proof (fixup_raises_cases _ _ _ _ _ _ _ _ _ _ Efix) as He.
    destruct He as [(Hne & _) | [_ ->]]; [contradiction|].
    exists w3. split; [reflexivity|].
    apply fixup_frame in Efix as [_ Hsame].
    rewrite (sameTree_parentOf _ _ _ Hsame).
    rewrite (sameTree_childrenOf _ _ _ Hsame).
    apply detach_spec. exact Hparent.
Qed.
End RestoreResult.

Lemma restore_fixup_failure_witness :
  exists w2,
    restoreTabsFromCacheInternal textParser dataTabId dataWindowId 16
      flExact fullRestorationOfText emptySidebar = (Throw TypeError, w2)
    /\ parentOf (w_dom w2) 2%nat = None
    /\ ~ In 2%nat (childrenOf (w_dom w2) 0%nat).
Proof.
  apply (restore_fixup_failure textParser dataTabId dataWindowId 16 flExact
           fullRestorationOfText emptySidebar
           (snd (restoreTree textParser fullRestorationOfText emptySidebar))
           2%nat 0%nat [3%nat]).
  - vm_compute. reflexivity.
  - vm_compute. reflexivity.
  - reflexivity.
  - intros H. apply Forall_cons in H as [H _]. vm_compute in H.
    discriminate.
Defined.

Lemma restore_result_witness :
  [3; 5; 7]%nat = []
  \/ (length [3; 5; 7]%nat = length (tabsOf fullRestorationOfThree)
      /\ Forall (hasTabOf (tabsOf fullRestorationOfThree)
                   (w_dom (snd (restoreExample fullRestorationOfThree
                                  emptySidebar))))
           [3; 5; 7]%nat).
Proof.
  apply (restore_result flatParser dataTabId dataWindowId 16 flExact
           fullRestorationOfThree emptySidebar).
  vm_compute. reflexivity.
Defined.

Lemma restore_raises_witness :
  TypeError = TypeError \/ TypeError = DOMException.
Proof.
  apply (restore_raises flatParser dataTabId dataWindowId 16 flExact
           tailRestoration sidebarMissingTab sidebarMissingTab).
  vm_compute. reflexivity.
Defined.









Section FixupAgain.
Variables kAPI_TAB_ID kAPI_WINDOW_ID : jsstring.
Variable kPROGRESS_INTERVAL : Z.
Variable fl : Q -> Q.

End FixupAgain.

Section RestoreEdges.
Variable parseHTML : jsstring -> list tree.
Variables kAPI_TAB_ID kAPI_WINDOW_ID : jsstring.
Variable kPROGRESS_INTERVAL : Z.
Variable fl : Q -> Q.

(** X24. A restoration for a window the store does not know raises a
    TypeError, in both modes; so does a full restoration for a window
    whose container is not in the document. Nothing has been done by
    then. *)
Theorem restore_without_container_parent (params : RestoreParams)
    (w : World) :
  w_windows w !! p_windowId params = None
  \/ (offsetOf params <= 0
      /\ exists container,
           w_windows w !! p_windowId params = Some (Some container)
           /\ parentOf (w_dom w) container = None) ->
  restoreTabsFromCacheInternal parseHTML kAPI_TAB_ID kAPI_WINDOW_ID
    kPROGRESS_INTERVAL fl params w = (Throw TypeError, w).
Proof.
  intros [Hwin | (Hoff & container & Hwin & Hparent)];
    unfold restoreTabsFromCacheInternal, restoreTree;
    unfold bind at 1; unfold bind at 1; rewrite Hwin; cbn [deref throw ret].
  - reflexivity.
  - destruct (Z.ltb_spec 0 (offsetOf params)) as [Hlt|_]; [lia|].
    unfold bind at 1. unfold bind at 1. unfold bind at 1.
    cbn [getDom]. unfold bind at 1. rewrite Hparent. reflexivity.
Qed.
End RestoreEdges.

Lemma restore_without_container_parent_witness :
  restoreTabsFromCacheInternal flatParser dataTabId dataWindowId 16 flExact
    fullRestorationOfThree sidebarDetached
  = (Throw TypeError, sidebarDetached).
Proof.
  apply restore_without_container_parent. right. split.
  - vm_compute. discriminate.
  - exists 1%nat. split; vm_compute; reflexivity.
Defined.

(* ================================================================== *)
(** * The fixup pass at work *)
(* ================================================================== *)

Lemma fixup_keeps_tree_witness :
  sameStores sidebarOneElement (snd (fixupExample sidebarOneElement))
  /\ sameTree (w_dom sidebarOneElement)
       (w_dom (snd (fixupExample sidebarOneElement)))
  /\ tabsRebound [plainTab 1 None] [0%nat] sidebarOneElement
       (snd (fixupExample sidebarOneElement)).
Proof.
  apply (fixup_keeps_tree dataTabId dataWindowId 16 flExact [0%nat]
           [plainTab 1 None] false sidebarOneElement
           (snd (fixupExample sidebarOneElement))
           (fst (fixupExample sidebarOneElement))).
  vm_compute. reflexivity.
Defined.

Lemma fixup_touches_elements_only_witness :
  w_dom (snd (fixupSecond sidebarOfThree)) !! 2%nat
  = w_dom sidebarOfThree !! 2%nat.
Proof.
  apply (fixup_touches_elements_only dataTabId dataWindowId 16 flExact
           [3%nat] [plainTab 2 None] false sidebarOfThree
           (snd (fixupSecond sidebarOfThree))
           (fst (fixupSecond sidebarOfThree)) 2%nat).
  - vm_compute. reflexivity.
  - simpl. lia.
Defined.


(** The element of the example after the pass: its attributes, and the
    entry of its tab in the store, which was empty. *)
Example fixup_binds_attributes :
  (attributes <$> w_dom (snd (fixupExample sidebarOneElement)) !! 0%nat)
  = Some [(attrId, lit "tab-1"); (dataTabId, lit "1");
          (dataWindowId, lit "1")]
  /\ w_tabs sidebarOneElement !! 1 = None
  /\ w_tabs (snd (fixupExample sidebarOneElement)) !! 1 = Some (Some 0%nat).
Proof. vm_compute. repeat split. Qed.

Lemma fixup_calls_witness :
  exists new,
    w_trace (snd (fixupSecond sidebarOfThree))
    = new ++ w_trace sidebarOfThree
    /\ rev (callsOf new)
       = concat (zip_with (bindingCalls dataTabId dataWindowId)
                   [plainTab 2 None] [3%nat])
         ++ concat (map (stateCalls false) [plainTab 2 None]).
Proof.
  apply (fixup_calls dataTabId dataWindowId 16 flExact [3%nat]
           [plainTab 2 None] false sidebarOfThree
           (snd (fixupSecond sidebarOfThree))).
  - apply NoDup_singleton.
  - vm_compute. reflexivity.
Defined.

Lemma fixup_progress_counts_witness :
  exists new k,
    w_trace (snd (fixupSecond sidebarOfThree))
    = new ++ w_trace sidebarOfThree
    /\ (k <= 2 * length [3%nat])%nat
    /\ progressReports new
       = reportsBetween flExact (Z.of_nat (length [3%nat]) * 2) 0 k.
Proof.
  apply (fixup_progress_counts dataTabId dataWindowId 16 flExact [3%nat]
           [plainTab 2 None] false sidebarOfThree
           (snd (fixupSecond sidebarOfThree))
           (fst (fixupSecond sidebarOfThree))).
  vm_compute. reflexivity.
Defined.

Lemma fixup_quiet_witness :
  exists new,
    w_trace (snd (fixupExample sidebarStill)) = new ++ w_trace sidebarStill
    /\ Forall (fun e => isProgressEvent e = false) new.
Proof.
  apply (fixup_quiet dataTabId dataWindowId 16 flExact [0%nat]
           [plainTab 1 None] false sidebarStill
           (snd (fixupExample sidebarStill))
           (fst (fixupExample sidebarStill))).
  - intros i j _. simpl. unfold stillClock. lia.
  - vm_compute. reflexivity.
Defined.



(** A tail restoration binds the tabs after the offset to the restored
    elements: it can be made again on the sidebar it leaves. *)
Example restore_tail_rebinds :
  fst (restoreExample tailRestoration sidebarOfThree) = Ok [6; 8]%nat
  /\ w_tabs (snd (restoreExample tailRestoration sidebarOfThree)) !! 2
     = Some (Some 6%nat)
  /\ w_tabs (snd (restoreExample tailRestoration sidebarOfThree)) !! 3
     = Some (Some 8%nat)
  /\ fst (restoreExample tailRestoration
            (snd (restoreExample tailRestoration sidebarOfThree)))
     = Ok [11; 13]%nat.
Proof. repeat split; vm_compute; reflexivity. Qed.
